(** * lib/database.ts : the SQL statement builder, the dialect resolvers
      and the table helper, as a shallow embedding.

    JavaScript strings are modelled as [string] (one [ascii] per code unit
    of the text; the model covers the single-byte range, and its
    [toUpperCase] changes the letters a-z only: the other letters of that
    range, which JavaScript changes too, do not change the outcome of the
    one test that [append] makes on an upper-cased text).  JavaScript numbers are
    modelled by the integers [Z]; they are only stored, compared by position
    and printed, and the printed text is the decimal one, which is what
    JavaScript prints for an integer of magnitude up to 2^53
    ([printsInFull]).  Arrays are lists.  An object is a plain object (its
    prototype is [Object.prototype]), given by the list of its own
    enumerable properties in [for ... in] order, each name once.  A
    [SQLStatement] is a record of its two fields; every method that mutates
    [this] takes the old record and returns the new one together with how
    the call completed, so that the state left behind by a call that throws
    is visible. *)

From Stdlib Require Import List String Ascii ZArith Lia Bool PeanoNat.
From Stdlib Require Import DecimalString.
Import ListNotations.
Open Scope string_scope.
Open Scope list_scope.

Set Implicit Arguments.
#[local] Set Warnings "-register-all".

(* ------------------------------------------------------------------ *)
(** ** String primitives used by the source *)

Module JSString.

Definition chars (s : string) : list ascii := list_ascii_of_string s.
Definition of_chars (l : list ascii) : string := string_of_list_ascii l.

(** [s.slice(0, -k)] for a positive literal [k]: all but the last [k]
    characters, the empty string when [s] is shorter than [k]. *)
Definition slice_end (k : nat) (s : string) : string :=
  of_chars (firstn (List.length (chars s) - k) (chars s)).

(** [s.slice(k)] for a non-negative literal [k]. *)
Definition slice_from (k : nat) (s : string) : string :=
  of_chars (skipn k (chars s)).

(** [s.slice(-1)]: the last character as a string, or the empty string. *)
Definition slice_last (s : string) : string :=
  of_chars (skipn (List.length (chars s) - 1) (chars s)).

(** [s.startsWith(p)] *)
Definition startsWith (p s : string) : bool := String.prefix p s.

(** [s.endsWith(p)] *)
Definition endsWith (p s : string) : bool :=
  (String.length p <=? String.length s)%nat
  && (of_chars (skipn (List.length (chars s) - List.length (chars p)) (chars s)) =? p).

Definition upper_char (c : ascii) : ascii :=
  let n := nat_of_ascii c in
  if ((97 <=? n) && (n <=? 122))%nat then ascii_of_nat (n - 32) else c.

(** [s.toUpperCase()] *)
Fixpoint toUpperCase (s : string) : string :=
  match s with
  | EmptyString => EmptyString
  | String c s' => String (upper_char c) (toUpperCase s')
  end.

(** [hay.includes(x)] *)
Fixpoint includes (x hay : string) : bool :=
  String.prefix x hay
  || match hay with
     | EmptyString => false
     | String _ hay' => includes x hay'
     end.

(** [s.replace(/c/g, by)] for a one-character pattern [c]. *)
Fixpoint replace_all (c : ascii) (by_ : string) (s : string) : string :=
  match s with
  | EmptyString => EmptyString
  | String a s' =>
      ((if Ascii.eqb a c then by_ else String a EmptyString)
         ++ replace_all c by_ s')%string
  end.

(** Decimal text of a non-negative counter, as a template literal
    prints it. *)
Definition of_nat (n : nat) : string :=
  NilZero.string_of_uint (Nat.to_uint n).

(** Text of an integer-valued number. *)
Definition of_Z (z : Z) : string :=
  NilZero.string_of_int (Z.to_int z).

(** The double-quote character and the one-character string of it. *)
Definition dquote : ascii := Eval cbv in ascii_of_nat 34.
Definition dq : string := String dquote EmptyString.

End JSString.
Import JSString.

(* ------------------------------------------------------------------ *)
(** ** Values *)

(** [BasicSQLValue = string | number | null] *)
Inductive BasicSQLValue : Type :=
| BString (s : string)
| BNumber (n : Z)
| BNull.

(** [SQLValue]: what may be interpolated.  [VSQL] is a [SQLStatement]
    object, given by its two fields; it is an object other than the
    statement it is appended to (a statement owns its fragments and
    parameters).  [VObject] lists the properties in enumeration order. *)
Inductive SQLValue : Type :=
| VString (s : string)
| VNumber (n : Z)
| VNull
| VUndefined
| VSQL (vsql : list string) (vvalues : list BasicSQLValue)
| VArray (elems : list SQLValue)
| VObject (props : list (string * SQLValue)).

Definition of_basic (b : BasicSQLValue) : SQLValue :=
  match b with
  | BString s => VString s
  | BNumber n => VNumber n
  | BNull => VNull
  end.

(** Errors that can be thrown or carried by a rejected promise.  [Error]
    is [new Error(message)], possibly carrying a driver's [code] property;
    [TypeError] is the engine's error for a method call on [undefined]. *)
Inductive JSError : Type :=
| Error (message : string) (code : option string)
| TypeError.

Definition err_code (e : JSError) : option string :=
  match e with
  | Error _ c => c
  | TypeError => None
  end.

(** How a synchronous call completed. *)
Inductive Completion : Type :=
| Done
| Thrown (e : JSError).

(** [class SQLStatement { sql: string[]; values: BasicSQLValue[] }] *)
Record SQLStatement : Type := mkStmt {
  sql : list string;
  values : list BasicSQLValue;
}.

(** A call that returns a value or throws. *)
Inductive Try (A : Type) : Type :=
| Returns (a : A)
| Throws (e : JSError).
Arguments Returns {A} a.
Arguments Throws {A} e.

(** The own property [key] of a plain object: its value, or [None] when
    the object has no property of that name of its own (a read then goes
    to [Object.prototype], which defines [constructor] and none of [name],
    [sql] and [values]). *)
Fixpoint property (key : string) (props : list (string * SQLValue))
  : option SQLValue :=
  match props with
  | [] => None
  | (k, v) :: props' => if (k =? key)%string then Some v else property key props'
  end.

(** [value.constructor.name === 'SQLStatement'] on a plain object.  Without
    a property of its own named [constructor] the object inherits [Object],
    whose name is another one.  With one, the test reads the [name] of its
    value: reading a property of [null] or of [undefined] throws a
    [TypeError]; a string, a number, an array and a statement have no
    [name]; a plain object has the one it lists, if any. *)
Definition constructorIsSQLStatement (props : list (string * SQLValue))
  : Try bool :=
  match property "constructor" props with
  | None => Returns false
  | Some VNull => Throws TypeError
  | Some VUndefined => Throws TypeError
  | Some (VObject c) =>
      match property "name" c with
      | Some (VString n) => Returns (n =? "SQLStatement")%string
      | _ => Returns false
      end
  | Some _ => Returns false
  end.

(** [Array.isArray(obj[key])] *)
Definition isArrayProperty (key : string) (props : list (string * SQLValue))
  : bool :=
  match property key props with
  | Some (VArray _) => true
  | _ => false
  end.

(** [isSQL(value)].  A [VSQL] is an instance of the class.  Any other
    value goes through the test on the constructor's name: for a scalar and
    for an array the constructor is [String], [Number] or [Array]; [null]
    and [undefined] end the optional chain; a plain object passes when its
    constructor's name is [SQLStatement] and its [sql] and [values] are
    arrays, and it makes the test throw when its own [constructor] property
    is [null] or [undefined]. *)
Definition isSQL (v : SQLValue) : Try bool :=
  match v with
  | VSQL _ _ => Returns true
  | VObject props =>
      match constructorIsSQLStatement props with
      | Returns true =>
          Returns (isArrayProperty "sql" props && isArrayProperty "values" props)
      | r => r
      end
  | _ => Returns false
  end.

(** The elements of an array as fragments: all of them must be strings. *)
Fixpoint strings_of (l : list SQLValue) : option (list string) :=
  match l with
  | [] => Some []
  | VString s :: l' =>
      match strings_of l' with
      | Some ss => Some (s :: ss)
      | None => None
      end
  | _ :: _ => None
  end.

(** The elements of an array as parameters: all of them must be strings,
    numbers or [null]. *)
Fixpoint basics_of (l : list SQLValue) : option (list BasicSQLValue) :=
  match l with
  | [] => Some []
  | v :: l' =>
      match v, basics_of l' with
      | VString s, Some bs => Some (BString s :: bs)
      | VNumber n, Some bs => Some (BNumber n :: bs)
      | VNull, Some bs => Some (BNull :: bs)
      | _, _ => None
      end
  end.

(** [value.sql] and [value.values] of a plain object that [isSQL] takes
    for a statement, read as the fields of a statement.  [None] when one of
    them is no array or holds an element of another kind, which a
    [SQLStatement] ([sql: string[]], [values: BasicSQLValue[]]) cannot
    hold. *)
Definition statementFields (props : list (string * SQLValue))
  : option (list string * list BasicSQLValue) :=
  match property "sql" props, property "values" props with
  | Some (VArray fs), Some (VArray vs) =>
      match strings_of fs, basics_of vs with
      | Some fs', Some vs' => Some (fs', vs')
      | _, _ => None
      end
  | _, _ => None
  end.

(** [this.sql[this.sql.length - 1]], [None] when there is no fragment
    (the read gives [undefined]). *)
Definition lastFragment (this : SQLStatement) : option string :=
  match sql this with
  | [] => None
  | f :: fs => Some (last fs f)
  end.

(** [l[l.length - 1] = f(l[l.length - 1])] on a non-empty array. *)
Fixpoint modifyLast (f : string -> string) (l : list string) : list string :=
  match l with
  | [] => []
  | [x] => [f x]
  | x :: l' => x :: modifyLast f l'
  end.

Definition setLast (f : string -> string) (this : SQLStatement) : SQLStatement :=
  mkStmt (modifyLast f (sql this)) (values this).

(** [appendRaw(str)].  On a statement without fragments JavaScript would
    write a property named -1, which is no array element; the builder never
    produces such a statement and the model leaves it as it is. *)
Definition appendRaw (str : string) (this : SQLStatement) : SQLStatement :=
  setLast (fun f => (f ++ str)%string) this.

(** Sequencing of two steps on [this]: the second runs only when the first
    did not throw. *)
Definition andThen (r : SQLStatement * Completion)
    (k : SQLStatement -> SQLStatement * Completion) : SQLStatement * Completion :=
  match r with
  | (this, Done) => k this
  | (this, Thrown e) => (this, Thrown e)
  end.

Notation "r >>> k" := (andThen r k) (at level 60, right associativity).

Definition ret (this : SQLStatement) : SQLStatement * Completion := (this, Done).

(** The scalar case of [append]: [this.values.push(value); this.sql.push('')]. *)
Definition pushScalar (b : BasicSQLValue) (this : SQLStatement) : SQLStatement :=
  mkStmt (sql this ++ [EmptyString]) (values this ++ [b]).

Definition objectError (lastf : string) : JSError :=
  Error ("Objects can only appear in (obj) or after SET; unrecognized: "
           ++ lastf ++ "[obj]")%string None.

(** The loops of [append]; [app] stands for the recursive [this.append]. *)
Section Loops.
Variable app : SQLValue -> SQLStatement -> SQLStatement * Completion.

(** [for (const part of value) this.append(part)] *)
Fixpoint appendParts (l : list SQLValue) (this : SQLStatement) {struct l}
  : SQLStatement * Completion :=
  match l with
  | [] => ret this
  | part :: l' => app part this >>> appendParts l'
  end.

(** [for (const x of value) this.append(x).appendRaw(sep)] *)
Fixpoint appendEach (sep : string) (l : list SQLValue) (this : SQLStatement)
    {struct l} : SQLStatement * Completion :=
  match l with
  | [] => ret this
  | x :: l' => app x this >>> fun this => appendEach sep l' (appendRaw sep this)
  end.

(** [for (const col in value) this.append(value[col]).appendRaw(`, `)] *)
Fixpoint appendFields (l : list (string * SQLValue)) (this : SQLStatement)
    {struct l} : SQLStatement * Completion :=
  match l with
  | [] => ret this
  | (_, v) :: l' =>
      app v this >>> fun this => appendFields l' (appendRaw ", " this)
  end.

(** The loop of the SET branch: for each [col in value],
    [this.append(col).appendRaw(q =)] and then
    [this.append(value[col]).appendRaw(, q)], where [q] is a double quote;
    a key is a string, so [append(col)] is the scalar case. *)
Fixpoint appendAssignments (l : list (string * SQLValue)) (this : SQLStatement)
    {struct l} : SQLStatement * Completion :=
  match l with
  | [] => ret this
  | (col, v) :: l' =>
      let this := appendRaw (dq ++ " = ")%string (pushScalar (BString col) this) in
      app v this
      >>> fun this => appendAssignments l' (appendRaw (", " ++ dq)%string this)
  end.

End Loops.

(** The first loop of the parenthesis branch: for each [col in value],
    [this.append(col).appendRaw(q, q)], where [q] is a double quote; a key
    is a string, so [append(col)] is the scalar case. *)
Fixpoint appendKeys (l : list (string * SQLValue)) (this : SQLStatement)
    {struct l} : SQLStatement :=
  match l with
  | [] => this
  | (col, _) :: l' =>
      appendKeys l' (appendRaw (dq ++ ", " ++ dq)%string
                       (pushScalar (BString col) this))
  end.

(** The statement branch of [append], on the two fields of [value]:
    nothing when [value.sql] is empty; otherwise [appendRaw(value.sql[0])],
    then the other fragments and all the values are concatenated. *)
Definition appendStatement (vsql : list string) (vvalues : list BasicSQLValue)
    (this : SQLStatement) : SQLStatement * Completion :=
  match vsql with
  | [] => ret this
  | s0 :: rest =>
      let this1 := appendRaw s0 this in
      ret (mkStmt (sql this1 ++ rest) (values this1 ++ vvalues))
  end.

(** [append(value)].  The test [isSQL(value)] comes first; it is [true] on
    a [VSQL], [false] on a scalar, on [undefined] and on an array, and on a
    plain object it may also throw.  A plain object that passes the test is
    appended as a statement with its [sql] and [values]; when these hold
    anything but strings and basic values the code goes on with a fragment
    or a parameter that a [SQLStatement] cannot hold, and the model stops
    there with a [TypeError]; [wellFormed] excludes such objects. *)
Fixpoint append (value : SQLValue) (this : SQLStatement) {struct value}
  : SQLStatement * Completion :=
  match value with
  | VSQL vsql vvalues => appendStatement vsql vvalues this
  | VString s => ret (pushScalar (BString s) this)
  | VNumber n => ret (pushScalar (BNumber n) this)
  | VNull => ret (pushScalar BNull this)
  | VUndefined => ret this
  | VArray elems =>
      match (match elems with [] => Returns true | v0 :: _ => isSQL v0 end) with
      | Throws e => (this, Thrown e)
      | Returns true =>
          (* array of SQL statements *)
          appendParts append elems this
      | Returns false =>
          match lastFragment this with
          | None => (this, Thrown TypeError)
          | Some lastf =>
              if includes (slice_last lastf) (dq ++ "`")%string then
                (* the identifier list syntax: `a`, `b` *)
                let quoteChar := slice_last lastf in
                appendEach append (quoteChar ++ ", " ++ quoteChar)%string elems this
                >>> fun this => ret (setLast (slice_end 4) this)
              else
                (* the value list syntax: 1, 2 *)
                appendEach append ", " elems this
                >>> fun this => ret (setLast (slice_end 2) this)
          end
      end
  | VObject props =>
      match isSQL (VObject props) with
      | Throws e => (this, Thrown e)
      | Returns true =>
          match property "sql" props with
          | Some (VArray []) => ret this
          | _ =>
              match statementFields props with
              | Some (vsql, vvalues) => appendStatement vsql vvalues this
              | None => (this, Thrown TypeError)
              end
          end
      | Returns false =>
          match lastFragment this with
          | None => (this, Thrown TypeError)
          | Some lastf =>
              if endsWith "(" lastf then
                (* the syntax (`a`, `b`) VALUES (1, 2) *)
                let this := appendRaw dq this in
                let this := appendKeys props this in
                let this :=
                  setLast (fun f => (slice_end 4 f ++ dq ++ ") VALUES (")%string) this in
                appendFields append props this
                >>> fun this => ret (setLast (slice_end 2) this)
              else if endsWith " SET " (toUpperCase lastf) then
                (* the syntax `a` = 1, `b` = 2 *)
                let this := appendRaw dq this in
                appendAssignments append props this
                >>> fun this => ret (setLast (slice_end 3) this)
              else
                (this, Thrown (objectError lastf))
          end
      end
  end.

(** [new SQLStatement(strings, values)]: the loop body at index [i] is
    [this.append(values[i]).appendRaw(strings[i + 1])]; [rest] holds
    [strings[i + 1 ..]].  A missing [values[i]] reads as [undefined]. *)
Fixpoint construct_loop (rest : list string) (vals : list SQLValue) (i : nat)
    (this : SQLStatement) {struct rest} : SQLStatement * Completion :=
  match rest with
  | [] => ret this
  | s :: rest' =>
      append (nth i vals VUndefined) this
      >>> fun this => construct_loop rest' vals (S i) (appendRaw s this)
  end.

(** The constructor.  The result is the state of the new object when the
    constructor returns or throws.  [strings] is a template's literal
    segments, of which there is always at least one; for an empty array
    JavaScript stores [undefined] as the only fragment, which the model
    does not represent (it gives a statement without fragments). *)
Definition SQLStatement_new (strings : list string) (vals : list SQLValue)
  : SQLStatement * Completion :=
  match strings with
  | [] => ret (mkStmt [] [])
  | s0 :: rest => construct_loop rest vals 0 (mkStmt [s0] [])
  end.

(** [SQL(strings, ...values)] *)
Definition SQL (strings : list string) (vals : list SQLValue)
  : SQLStatement * Completion :=
  SQLStatement_new strings vals.

(* ------------------------------------------------------------------ *)
(** ** Dialects and resolution *)

(** The [type] tag of the two concrete database classes. *)
Inductive DatabaseType : Type := MySQL | PG.

Definition type_tag (t : DatabaseType) : string :=
  match t with
  | MySQL => "mysql"
  | PG => "pg"
  end.

(** The text a template literal gives for [${value}].  A number is
    printed in decimal with all its digits, as JavaScript prints the
    integers of magnitude up to 2^53 ([printsInFull]).  A larger number is
    printed from the shortest digits that identify it, followed by zeros
    or, from 10^21 on, in exponent form; that is not modelled. *)
Definition template_text (value : BasicSQLValue) : string :=
  match value with
  | BString s => s
  | BNumber n => of_Z n
  | BNull => "null"
  end.

Definition backtick : ascii := "`"%char.

Module mysql.
(** [mysql.escapeId(id)] *)
Definition escapeId (id : string) : string :=
  ("`" ++ replace_all backtick "``" id ++ "`")%string.
End mysql.

Module pg.
(** [pg.escapeIdentifier(id)] *)
Definition escapeIdentifier (id : string) : string :=
  (dq ++ replace_all dquote (dq ++ dq) id ++ dq)%string.
End pg.

(** [this.escapeId(id)] of the two classes. *)
Definition escapeId (t : DatabaseType) (id : string) : string :=
  match t with
  | MySQL => mysql.escapeId id
  | PG => pg.escapeIdentifier id
  end.

(** The local variables of [_resolveSQL]: the text so far, the parameters
    so far and, for Postgres, [paramCount] (MySQL's method has no counter;
    it stays 0 there). *)
Record ResolveState : Type := mkResolve {
  r_sql : string;
  r_values : list BasicSQLValue;
  r_paramCount : nat;
}.

(** Whether [query.sql[i + 1]] starts with a backtick or with a double
    quote. *)
Definition startsWithQuote (next : string) : bool :=
  startsWith "`" next || startsWith dq next.

(** The identifier branch of the loop body. *)
Definition spliceIdentifier (t : DatabaseType) (value : BasicSQLValue)
    (next : string) (st : ResolveState) : ResolveState :=
  mkResolve
    (slice_end 1 (r_sql st) ++ escapeId t (template_text value) ++ slice_from 1 next)%string
    (r_values st)
    (r_paramCount st).

(** The placeholder branch of the loop body. *)
Definition bindParameter (t : DatabaseType) (value : BasicSQLValue)
    (next : string) (st : ResolveState) : ResolveState :=
  match t with
  | MySQL =>
      mkResolve (r_sql st ++ "?" ++ next)%string
                (r_values st ++ [value])
                (r_paramCount st)
  | PG =>
      let paramCount := S (r_paramCount st) in
      mkResolve (r_sql st ++ "$" ++ of_nat paramCount ++ next)%string
                (r_values st ++ [value])
                paramCount
  end.

(** One iteration of the [for] loop of [_resolveSQL], at index [i].
    [None]: [query.sql[i + 1]] is [undefined] and the call throws. *)
Definition resolve_step (t : DatabaseType) (query : SQLStatement) (i : nat)
    (st : ResolveState) : option ResolveState :=
  match nth_error (values query) i, nth_error (sql query) (i + 1) with
  | Some value, Some next =>
      if startsWithQuote next
      then Some (spliceIdentifier t value next st)
      else Some (bindParameter t value next st)
  | _, _ => None
  end.

(** The locals after the first [n] iterations. *)
Fixpoint resolve_iter (t : DatabaseType) (query : SQLStatement) (n : nat)
  : option ResolveState :=
  match n with
  | O =>
      match sql query with
      | [] => None
      | s0 :: _ => Some (mkResolve s0 [] 0)
      end
  | S i =>
      match resolve_iter t query i with
      | Some st => resolve_step t query i st
      | None => None
      end
  end.

(** [MySQLDatabase._resolveSQL] for [t = MySQL], [PGDatabase._resolveSQL]
    for [t = PG].  A statement with fewer fragments than its values need
    makes the method throw a [TypeError]; one with neither fragments nor
    values would give the text [undefined], which the model reports the
    same way. *)
Definition _resolveSQL (t : DatabaseType) (query : SQLStatement)
  : Try (string * list BasicSQLValue) :=
  match resolve_iter t query (List.length (values query)) with
  | Some st => Returns (r_sql st, r_values st)
  | None => Throws TypeError
  end.

(* ------------------------------------------------------------------ *)
(** ** Pools, connections and the process-wide state *)

(** A cell of a result row: a value, or a [Buffer] as the MySQL driver may
    return. *)
Inductive Cell : Type :=
| CellValue (v : BasicSQLValue)
| CellBuffer (text : string).

Definition Row : Type := list (string * Cell).

(** What a query promise is fulfilled with. *)
Inductive QueryResult : Type :=
| Undefined
| Rows (rows : list Row)
| OneRow (row : Row)
| OkPacket (affectedRows : Z).

(** The error object a driver reports. *)
Record DriverError : Type := mkDriverError {
  message : string;
  code : option string;
}.

(** A settled promise. *)
Inductive Promise : Type :=
| Fulfilled (r : QueryResult)
| Rejected (e : JSError).

(** The state of the pooled resources is the collaborator's own; the
    development is parametric in it.  A pool's operations act on that
    state. *)
Section Pools.
Variable PoolState : Type.

(** [mysql.Pool]: both members are optional in the declared type. *)
Record mysql_Pool : Type := mkMysqlPool {
  mysql_query :
    option (string -> list BasicSQLValue -> PoolState
            -> PoolState * (DriverError + QueryResult));
  mysql_end : option (PoolState -> PoolState);
}.

(** [pg.Pool]; a fulfilled query gives [{rows, rowCount}]. *)
Record pg_Pool : Type := mkPgPool {
  pg_query :
    string -> list BasicSQLValue -> PoolState
    -> PoolState * (DriverError + (list Row * Z));
  pg_end : PoolState -> PoolState;
}.

(** [mysql.createPool(config)] of the in-file stub. *)
Definition mysql_createPool : mysql_Pool :=
  mkMysqlPool
    (Some (fun _sql _values s => (s, inr (Rows []))))
    (Some (fun s => s)).

(** [new pg.Pool(config)] of the in-file stub. *)
Definition pg_Pool_new : pg_Pool :=
  mkPgPool (fun _query _values s => (s, inr ([], 0%Z))) (fun s => s).

(** An object of one of the two concrete classes: its [connection] (for
    Postgres possibly [null]) and its [prefix]. *)
Inductive Database : Type :=
| MySQLDatabase (connection : mysql_Pool) (prefix : string)
| PGDatabase (connection : option pg_Pool) (prefix : string).

Definition db_type (db : Database) : DatabaseType :=
  match db with
  | MySQLDatabase _ _ => MySQL
  | PGDatabase _ _ => PG
  end.

Definition db_prefix (db : Database) : string :=
  match db with
  | MySQLDatabase _ p => p
  | PGDatabase _ p => p
  end.

(** The process-wide state: the exported array [connectedDatabases],
    the state of the pooled resources, and the statements handed to a
    pool's [query] so far, oldest first. *)
Record World : Type := mkWorld {
  connectedDatabases : list Database;
  resource : PoolState;
  sent : list (string * list BasicSQLValue);
}.

(** The base constructor: [connectedDatabases.push(this)]. *)
Definition Database_new (db : Database) (w : World) : Database * World :=
  (db, mkWorld (connectedDatabases w ++ [db]) (resource w) (sent w)).

(** [new MySQLDatabase(config)]; of [config] only [prefix] is read. *)
Definition MySQLDatabase_new (config_prefix : option string) (w : World)
  : Database * World :=
  let prefix :=
    match config_prefix with
    | Some p => p
    | None => EmptyString
    end in
  Database_new (MySQLDatabase mysql_createPool prefix) w.

(** [new PGDatabase(config)]; [config] is only tested for truthiness. *)
Definition PGDatabase_new (config : bool) (w : World) : Database * World :=
  Database_new
    (PGDatabase (if config then Some pg_Pool_new else None) EmptyString) w.

(** [Database.close()] *)
Definition close (db : Database) (w : World) : World :=
  match db with
  | MySQLDatabase p _ =>
      match mysql_end p with
      | Some end_ => mkWorld (connectedDatabases w) (end_ (resource w)) (sent w)
      | None => w
      end
  | PGDatabase (Some p) _ =>
      mkWorld (connectedDatabases w) (pg_end p (resource w)) (sent w)
  | PGDatabase None _ => w
  end.

(** [`${values}`] of an array: elements joined by commas, [null] as the
    empty text. *)
Fixpoint array_text (vals : list BasicSQLValue) : string :=
  match vals with
  | [] => EmptyString
  | [v] => match v with BNull => EmptyString | _ => template_text v end
  | v :: vals' =>
      ((match v with BNull => EmptyString | _ => template_text v end)
         ++ "," ++ array_text vals')%string
  end.

Definition code_text (c : option string) : string :=
  match c with
  | Some c => c
  | None => "undefined"
  end.

(** The error [MySQLDatabase._query] rejects with. *)
Definition mysql_wrap (e : DriverError) (query : string)
    (vals : list BasicSQLValue) : JSError :=
  Error (message e ++ " (" ++ query ++ ") (" ++ array_text vals
           ++ ") [" ++ code_text (code e) ++ "]")%string None.

Definition unbuffer (c : Cell) : Cell :=
  match c with
  | CellBuffer text => CellValue (BString text)
  | c => c
  end.

Definition unbuffer_result (r : QueryResult) : QueryResult :=
  match r with
  | Rows rows => Rows (map (map (fun kv => (fst kv, unbuffer (snd kv)))) rows)
  | r => r
  end.

(** [MySQLDatabase._query(query, values)] *)
Definition mysql__query (p : mysql_Pool) (query : string)
    (vals : list BasicSQLValue) (w : World) : World * Try Promise :=
  match mysql_query p with
  | None => (w, Returns (Fulfilled (Rows [])))
  | Some q =>
      let (s, reply) := q query vals (resource w) in
      let w := mkWorld (connectedDatabases w) s (sent w ++ [(query, vals)]) in
      match reply with
      | inl e => (w, Returns (Rejected (mysql_wrap e query vals)))
      | inr results => (w, Returns (Fulfilled (unbuffer_result results)))
      end
  end.

(** [this.connection.query(query, values)] of [PGDatabase], followed by
    [then] with the given projection; a [null] connection makes the
    member access throw. *)
Definition pg_call (p : option pg_Pool) (query : string)
    (vals : list BasicSQLValue) (project : list Row * Z -> QueryResult)
    (w : World) : World * Try Promise :=
  match p with
  | None => (w, Throws TypeError)
  | Some p =>
      let (s, reply) := pg_query p query vals (resource w) in
      let w := mkWorld (connectedDatabases w) s (sent w ++ [(query, vals)]) in
      match reply with
      | inl e => (w, Returns (Rejected (Error (message e) (code e))))
      | inr res => (w, Returns (Fulfilled (project res)))
      end
  end.

(** [_query] of the class of [db] *)
Definition _query (db : Database) (query : string)
    (vals : list BasicSQLValue) (w : World) : World * Try Promise :=
  match db with
  | MySQLDatabase p _ => mysql__query p query vals w
  | PGDatabase p _ => pg_call p query vals (fun res => Rows (fst res)) w
  end.

(** [_queryExec] of the class of [db] *)
Definition _queryExec (db : Database) (query : string)
    (vals : list BasicSQLValue) (w : World) : World * Try Promise :=
  match db with
  | MySQLDatabase p _ => mysql__query p query vals w
  | PGDatabase p _ => pg_call p query vals (fun res => OkPacket (snd res)) w
  end.

(** [Database.query(sql)] with a ready statement. *)
Definition query (db : Database) (stmt : SQLStatement) (w : World)
  : World * Try Promise :=
  match _resolveSQL (db_type db) stmt with
  | Throws e => (w, Throws e)
  | Returns (text, vals) => _query db text vals w
  end.

(** [res => Array.isArray(res) ? res[0] : res] *)
Definition first_row (res : QueryResult) : QueryResult :=
  match res with
  | Rows [] => Undefined
  | Rows (r :: _) => OneRow r
  | res => res
  end.

(** [Database.queryOne(sql)] *)
Definition queryOne (db : Database) (stmt : SQLStatement) (w : World)
  : World * Try Promise :=
  match query db stmt w with
  | (w, Returns (Fulfilled res)) => (w, Returns (Fulfilled (first_row res)))
  | r => r
  end.

(** [Database.queryExec(sql)] *)
Definition queryExec (db : Database) (stmt : SQLStatement) (w : World)
  : World * Try Promise :=
  match _resolveSQL (db_type db) stmt with
  | Throws e => (w, Throws e)
  | Returns (text, vals) => _queryExec db text vals w
  end.

(** The tagged-template forms [db.query()`...`], [db.queryOne()`...`]
    and [db.queryExec()`...`]: the statement is built first. *)
Definition tagged (run : Database -> SQLStatement -> World -> World * Try Promise)
    (db : Database) (strings : list string) (rest : list SQLValue) (w : World)
  : World * Try Promise :=
  match SQLStatement_new strings rest with
  | (_, Thrown e) => (w, Throws e)
  | (stmt, Done) => run db stmt w
  end.


(* ---------------------------------------------------------------- *)
(** ** The table helper *)

(** [class DatabaseTable]: [name] already carries the prefix. *)
Record DatabaseTable : Type := mkTable {
  db : Database;
  name : string;
  primaryKeyName : option string;
}.

(** [db.getTable(name, primaryKeyName)], that is
    [new DatabaseTable(db, name, primaryKeyName)]. *)
Definition getTable (d : Database) (nm : string) (pk : option string)
  : DatabaseTable :=
  mkTable d (db_prefix d ++ nm)%string pk.

(** A nested statement as an interpolated value. *)
Definition of_statement (s : SQLStatement) : SQLValue :=
  VSQL (sql s) (values s).

(** An optional [where?: SQLStatement] as an interpolated value. *)
Definition of_where (where_ : option SQLStatement) : SQLValue :=
  match where_ with
  | Some s => of_statement s
  | None => VUndefined
  end.

(** The [entries?] argument of the select methods. *)
Inductive Entries : Type :=
| NoEntries
| Columns (cols : list string)
| EntriesSQL (s : SQLStatement).

(** The first two lines of [selectAll] and [selectOne]: missing entries
    become [SQL`*`], an array of column names becomes the template that
    interpolates the array between two double quotes. *)
Definition entries_statement (entries : Entries) : SQLStatement * Completion :=
  match entries with
  | NoEntries => SQL ["*"] []
  | Columns cols => SQL [dq; dq] [VArray (map VString cols)]
  | EntriesSQL s => ret s
  end.

(** A method that returns a function of a template: the caller's
    template is built into a statement, then spliced into the method's
    own template. *)
Definition with_clause
    (run : Database -> SQLStatement -> World -> World * Try Promise)
    (t : DatabaseTable)
    (outer : SQLValue -> list string * list SQLValue)
    (strings : list string) (rest : list SQLValue) (w : World)
  : World * Try Promise :=
  match SQLStatement_new strings rest with
  | (_, Thrown e) => (w, Throws e)
  | (clause, Done) =>
      let (ostrings, ovalues) := outer (of_statement clause) in
      tagged run (db t) ostrings ovalues w
  end.

(** [selectOne(entries)`...`] *)
Definition selectOne (t : DatabaseTable) (entries : Entries)
    (strings : list string) (rest : list SQLValue) (w : World)
  : World * Try Promise :=
  match entries_statement entries with
  | (_, Thrown e) => (w, Throws e)
  | (ent, Done) =>
      with_clause queryOne t
        (fun clause =>
           (["SELECT "; " FROM " ++ dq; dq ++ " "; " LIMIT 1"]%string,
            [of_statement ent; VString (name t); clause]))
        strings rest w
  end.

(** [updateAll(partialRow)`...`] *)
Definition updateAll (t : DatabaseTable) (partialRow : SQLValue)
    (strings : list string) (rest : list SQLValue) (w : World)
  : World * Try Promise :=
  with_clause queryExec t
    (fun clause =>
       (["UPDATE " ++ dq; dq ++ " SET "; " "; EmptyString]%string,
        [VString (name t); partialRow; clause]))
    strings rest w.

(** [deleteAll()`...`] *)
Definition deleteAll (t : DatabaseTable)
    (strings : list string) (rest : list SQLValue) (w : World)
  : World * Try Promise :=
  with_clause queryExec t
    (fun clause =>
       (["DELETE FROM " ++ dq; dq ++ " "; EmptyString]%string,
        [VString (name t); clause]))
    strings rest w.

(** The template of [insert]: [INSERT INTO], the table name between double
    quotes, the row between parentheses, the optional clause. *)
Definition insert_strings : list string :=
  ["INSERT INTO " ++ dq; dq ++ " ("; ") "; EmptyString]%string.

Definition insert_values (t : DatabaseTable) (partialRow : SQLValue)
    (where_ : option SQLStatement) : list SQLValue :=
  [VString (name t); partialRow; of_where where_].

(** [insert(partialRow, where)] *)
Definition insert (t : DatabaseTable) (partialRow : SQLValue)
    (where_ : option SQLStatement) (w : World) : World * Try Promise :=
  tagged queryExec (db t) insert_strings (insert_values t partialRow where_) w.

(** [tryInsert(partialRow, where)]: an [async] method, so a throw inside
    it rejects the returned promise. *)
Definition tryInsert (t : DatabaseTable) (partialRow : SQLValue)
    (where_ : option SQLStatement) (w : World) : World * Promise :=
  let catch (err : JSError) : Promise :=
    match err_code err with
    | Some c => if (c =? "ER_DUP_ENTRY")%string then Fulfilled Undefined
                else Rejected err
    | None => Rejected err
    end in
  match insert t partialRow where_ w with
  | (w, Returns (Fulfilled r)) => (w, Fulfilled r)
  | (w, Returns (Rejected err)) => (w, catch err)
  | (w, Throws err) => (w, catch err)
  end.

Definition keyError (method : string) : JSError :=
  Error ("Cannot " ++ method ++ "() without a single-column primary key")%string
        None.

(** [!this.primaryKeyName]: [null] and the empty string are falsy. *)
Definition noPrimaryKey (t : DatabaseTable) : bool :=
  match primaryKeyName t with
  | None => true
  | Some k => (k =? EmptyString)%string
  end.

Definition keyName (t : DatabaseTable) : string :=
  match primaryKeyName t with
  | Some k => k
  | None => EmptyString
  end.

(** The template of the key clause: [WHERE], the key name between double
    quotes, [ = ${primaryKey}]. *)
Definition where_key_strings : list string :=
  ["WHERE " ++ dq; dq ++ " = "; EmptyString]%string.

Definition where_key_values (t : DatabaseTable) (primaryKey : BasicSQLValue)
  : list SQLValue :=
  [VString (keyName t); of_basic primaryKey].

(** [get(primaryKey, entries)] *)
Definition get (t : DatabaseTable) (primaryKey : BasicSQLValue)
    (entries : Entries) (w : World) : World * Try Promise :=
  if noPrimaryKey t then (w, Throws (keyError "get"))
  else selectOne t entries where_key_strings (where_key_values t primaryKey) w.

(** [delete(primaryKey)] *)
Definition delete (t : DatabaseTable) (primaryKey : BasicSQLValue) (w : World)
  : World * Try Promise :=
  if noPrimaryKey t then (w, Throws (keyError "delete"))
  else deleteAll t where_key_strings (where_key_values t primaryKey) w.

(** [update(primaryKey, data)] *)
Definition update (t : DatabaseTable) (primaryKey : BasicSQLValue)
    (data : SQLValue) (w : World) : World * Try Promise :=
  if noPrimaryKey t then (w, Throws (keyError "update"))
  else updateAll t data where_key_strings (where_key_values t primaryKey) w.

(** [selectAll(entries)`...`] *)
Definition selectAll (t : DatabaseTable) (entries : Entries)
    (strings : list string) (rest : list SQLValue) (w : World)
  : World * Try Promise :=
  match entries_statement entries with
  | (_, Thrown e) => (w, Throws e)
  | (ent, Done) =>
      with_clause query t
        (fun clause =>
           (["SELECT "; " FROM " ++ dq; dq ++ " "; EmptyString]%string,
            [of_statement ent; VString (name t); clause]))
        strings rest w
  end.

(** [updateOne(partialRow)`...`]; its template is the one of [updateAll]. *)
Definition updateOne (t : DatabaseTable) (partialRow : SQLValue)
    (strings : list string) (rest : list SQLValue) (w : World)
  : World * Try Promise :=
  with_clause queryExec t
    (fun clause =>
       (["UPDATE " ++ dq; dq ++ " SET "; " "; EmptyString]%string,
        [VString (name t); partialRow; clause]))
    strings rest w.

(** [deleteOne()`...`] *)
Definition deleteOne (t : DatabaseTable)
    (strings : list string) (rest : list SQLValue) (w : World)
  : World * Try Promise :=
  with_clause queryExec t
    (fun clause =>
       (["DELETE FROM " ++ dq; dq ++ " "; " LIMIT 1"]%string,
        [VString (name t); clause]))
    strings rest w.

(** [insertIgnore(partialRow, where)] *)
Definition insertIgnore (t : DatabaseTable) (partialRow : SQLValue)
    (where_ : option SQLStatement) (w : World) : World * Try Promise :=
  tagged queryExec (db t)
    ["INSERT IGNORE INTO " ++ dq; dq ++ " ("; ") "; EmptyString]%string
    (insert_values t partialRow where_) w.

(** [this.primaryKeyName] as an interpolated value. *)
Definition keyValue (t : DatabaseTable) : SQLValue :=
  match primaryKeyName t with
  | Some k => VString k
  | None => VNull
  end.

(** [upsert(partialRow, partialUpdate = partialRow, where)]; a missing
    [partialUpdate] is [None]. *)
Definition upsert (t : DatabaseTable) (partialRow : SQLValue)
    (partialUpdate : option SQLValue) (where_ : option SQLStatement)
    (w : World) : World * Try Promise :=
  let partialUpdate :=
    match partialUpdate with
    | Some u => u
    | None => partialRow
    end in
  match db_type (db t) with
  | PG =>
      tagged queryExec (db t)
        ["INSERT INTO " ++ dq; dq ++ " ("; ") ON CONFLICT (";
         ") DO UPDATE SET "; " "; EmptyString]%string
        [VString (name t); partialRow; keyValue t; partialUpdate;
         of_where where_] w
  | MySQL =>
      tagged queryExec (db t)
        ["INSERT INTO " ++ dq; dq ++ " ("; ") ON DUPLICATE KEY UPDATE ";
         " "; EmptyString]%string
        [VString (name t); partialRow; partialUpdate; of_where where_] w
  end.

(** [replace(partialRow, where)] *)
Definition replace (t : DatabaseTable) (partialRow : SQLValue)
    (where_ : option SQLStatement) (w : World) : World * Try Promise :=
  match db_type (db t) with
  | PG =>
      if noPrimaryKey t then (w, Throws (keyError "replace"))
      else
        tagged queryExec (db t)
          ["INSERT INTO " ++ dq; dq ++ " ("; ") ON CONFLICT (" ++ dq;
           dq ++ ") DO UPDATE SET "; " "; EmptyString]%string
          [VString (name t); partialRow; VString (keyName t); partialRow;
           of_where where_] w
  | MySQL =>
      tagged queryExec (db t)
        ["REPLACE INTO " ++ dq; dq ++ " ("; ") "; EmptyString]%string
        (insert_values t partialRow where_) w
  end.

End Pools.

(* ------------------------------------------------------------------ *)
(** ** Predicates of the statements *)

(** [len(fragments) == len(parameters) + 1] *)
Definition invariant (this : SQLStatement) : Prop :=
  List.length (sql this) = S (List.length (values this)).

Definition invariantb (fragments : list string) (params : list BasicSQLValue)
  : bool :=
  (List.length fragments =? S (List.length params))%nat.

(** Every statement nested anywhere in an interpolated value satisfies the
    invariant; a plain object that [isSQL] takes for a statement is one of
    them, with its [sql] and [values] as the two fields. *)
Fixpoint wellFormed (v : SQLValue) : bool :=
  match v with
  | VSQL vsql vvalues => invariantb vsql vvalues
  | VArray elems => forallb wellFormed elems
  | VObject props =>
      match isSQL (VObject props) with
      | Returns true =>
          match statementFields props with
          | Some (vsql, vvalues) => invariantb vsql vvalues
          | None => false
          end
      | _ => forallb (fun kv => match kv with (_, x) => wellFormed x end) props
      end
  | _ => true
  end.

(** The values a template literal prints as [template_text] has them:
    strings, [null], and the integers of magnitude up to 2^53, every one
    of which is a JavaScript number that is printed with all its digits. *)
Definition printsInFull (value : BasicSQLValue) : Prop :=
  match value with
  | BNumber n => (Z.abs n <= 2 ^ 53)%Z
  | _ => True
  end.

(** The parameters a resolver binds: those whose following fragment does
    not start with a quote glyph, in order. *)
Definition boundValues (query : SQLStatement) : list BasicSQLValue :=
  map fst
    (filter (fun vf => negb (startsWithQuote (snd vf)))
            (combine (values query) (tl (sql query)))).

(** The placeholder a dialect writes for its [k]-th bound parameter. *)
Definition marker (t : DatabaseType) (k : nat) : string :=
  match t with
  | MySQL => "?"
  | PG => ("$" ++ of_nat k)%string
  end.

(** The fragments after the first, each preceded by the next marker,
    numbered from [k]. *)
Fixpoint interleave (t : DatabaseType) (k : nat) (rest : list string) : string :=
  match rest with
  | [] => EmptyString
  | f :: rest' => (marker t k ++ f ++ interleave t (S k) rest')%string
  end.

(** Whether a fragment ends with a backtick or a double quote. *)
Definition endsWithQuote (f : string) : bool :=
  endsWith "`" f || endsWith dq f.

(** The errors the statement builder and the resolvers can throw. *)
Definition builderError (e : JSError) : Prop :=
  e = TypeError \/ exists lastf, e = objectError lastf.

(** The fragment one would expect if, when an empty object is appended
    behind an opening parenthesis, three characters were removed: [F] followed
    by a quote, without its last three characters, then the [VALUES]
    literal. *)
Definition claimed_paren_fragment (F : string) : string :=
  (slice_end 3 (F ++ dq) ++ dq ++ ") VALUES (")%string.

(** A way to run a statement that throws builder errors only. *)
Definition throwsBuilderErrors {PoolState : Type}
    (run : Database PoolState -> SQLStatement -> World PoolState
           -> World PoolState * Try Promise) : Prop :=
  forall d stmt w w' e, run d stmt w = (w', Throws e) -> builderError e.

(* ------------------------------------------------------------------ *)
(** ** Notions used to state further properties *)

(** [this'] extends [this]: the fragments before the last one and all the
    parameters of [this] are still there, in place. *)
Definition extends (this this' : SQLStatement) : Prop :=
  exists f more extra,
    sql this' = removelast (sql this) ++ f :: more
    /\ values this' = values this ++ extra.

(** A row whose fields are all scalars, as an interpolated object. *)
Definition rowOf (fields : list (string * BasicSQLValue)) : SQLValue :=
  VObject (map (fun kv => (fst kv, of_basic (snd kv))) fields).

(** The loop of a resolver run over the pairs of a value and the fragment
    that follows it, from given locals. *)
Definition resolve_pairs (t : DatabaseType)
    (pairs : list (BasicSQLValue * string)) (st : ResolveState) : ResolveState :=
  fold_left
    (fun st vf =>
       if startsWithQuote (snd vf)
       then spliceIdentifier t (fst vf) (snd vf) st
       else bindParameter t (fst vf) (snd vf) st)
    pairs st.

(** The markers of the parameters number [k + 1] to [k + n]. *)
Definition markers (t : DatabaseType) (k n : nat) : list string :=
  map (marker t) (seq (S k) n).

(** The assignments of a row, each column escaped and followed by the
    marker of its value, the values being parameters [k + 1], [k + 2], ... *)
Fixpoint assignments (t : DatabaseType) (k : nat)
    (fields : list (string * BasicSQLValue)) : list string :=
  match fields with
  | [] => []
  | kv :: fields' =>
      (escapeId t (fst kv) ++ " = " ++ marker t (S k))%string
        :: assignments t (S k) fields'
  end.

(** Whether a call of [_query] or [_queryExec] on the connection reaches a
    pool. *)
Definition reachesPool {PoolState : Type} (d : Database PoolState) : bool :=
  match d with
  | MySQLDatabase p _ =>
      match mysql_query p with Some _ => true | None => false end
  | PGDatabase (Some _) _ => true
  | PGDatabase None _ => false
  end.

(** What a call did to the process state: the tracking list is untouched,
    at most one statement went to a pool, and a call that threw left the
    state as it was. *)
Definition oneRoundTrip {PoolState A : Type} (w : World PoolState)
    (r : World PoolState * Try A) : Prop :=
  connectedDatabases (fst r) = connectedDatabases w
  /\ (sent (fst r) = sent w \/ exists stmt, sent (fst r) = sent w ++ [stmt])
  /\ (forall e, snd r = Throws e -> fst r = w).

(** No cell of the rows is a [Buffer]. *)
Definition noBuffers (rows : list Row) : Prop :=
  Forall (Forall (fun kv => exists v, snd kv = CellValue v)) rows.

(** The cell [out] is what [row[col]] holds after the loop of
    [MySQLDatabase._query], when it held [inp] before: a [Buffer] has
    become the string of its text, any other cell is what it was. *)
Definition converted (inp out : Cell) : Prop :=
  match inp with
  | CellBuffer text => out = CellValue (BString text)
  | CellValue v => out = CellValue v
  end.

(** The rows [outs] are the rows [inps] with the same columns in the same
    order and every cell converted. *)
Definition convertedRows (inps outs : list Row) : Prop :=
  Forall2 (Forall2 (fun inp out => fst out = fst inp
                                   /\ converted (snd inp) (snd out)))
          inps outs.

(* ------------------------------------------------------------------ *)
(** ** Concrete inputs for the examples *)

(** The row [{name: "x", age: 5}]. *)
Definition example_row : SQLValue :=
  VObject [("name", VString "x"); ("age", VNumber 5)].

(** The row [{constructor: null}]: one column, named [constructor], whose
    value is [null]. *)
Definition null_constructor_row : SQLValue :=
  VObject [("constructor", VNull)].

(** A plain object that [isSQL] takes for a statement: its constructor is
    an object named [SQLStatement], and its [sql] and [values] are the
    arrays given. *)
Definition statement_like (fs vs : list SQLValue) : SQLValue :=
  VObject [("constructor", VObject [("name", VString "SQLStatement")]);
           ("sql", VArray fs); ("values", VArray vs)].

(** A process in which nothing has happened yet; the pools are stateless. *)
Definition empty_world : World unit := mkWorld [] tt [].

(** The error a MySQL driver reports for a duplicate key. *)
Definition duplicate_entry : DriverError :=
  mkDriverError "Duplicate entry 'x' for key 'PRIMARY'" (Some "ER_DUP_ENTRY").

(** Pools whose [query] fails with the given driver error. *)
Definition failing_mysql_pool (e : DriverError) : mysql_Pool unit :=
  mkMysqlPool (Some (fun _ _ s => (s, inl e))) (Some (fun s => s)).

Definition failing_pg_pool (e : DriverError) : pg_Pool unit :=
  mkPgPool (fun _ _ s => (s, inl e)) (fun s => s).

(** [this.connection?.end] *)
Definition db_end {PoolState : Type} (d : Database PoolState)
  : option (PoolState -> PoolState) :=
  match d with
  | MySQLDatabase p _ => mysql_end p
  | PGDatabase (Some p) _ => Some (pg_end p)
  | PGDatabase None _ => None
  end.

(** Induction over a value together with the values nested in it. *)
Section ValueInduction.
Variable P : SQLValue -> Prop.
Hypothesis HString : forall s, P (VString s).
Hypothesis HNumber : forall n, P (VNumber n).
Hypothesis HNull : P VNull.
Hypothesis HUndefined : P VUndefined.
Hypothesis HSQL : forall vsql vvalues, P (VSQL vsql vvalues).
Hypothesis HArray : forall elems, Forall P elems -> P (VArray elems).
Hypothesis HObject :
  forall props, Forall (fun kv => P (snd kv)) props -> P (VObject props).

(** Induction over a value and the values nested in it. *)
Fixpoint SQLValue_nested_ind (v : SQLValue) : P v :=
  match v with
  | VString s => HString s
  | VNumber n => HNumber n
  | VNull => HNull
  | VUndefined => HUndefined
  | VSQL a b => HSQL a b
  | VArray elems =>
      HArray
        ((fix go (l : list SQLValue) : Forall P l :=
            match l with
            | [] => Forall_nil P
            | x :: l' => Forall_cons x (SQLValue_nested_ind x) (go l')
            end) elems)
  | VObject props =>
      HObject
        ((fix go (l : list (string * SQLValue))
            : Forall (fun kv => P (snd kv)) l :=
            match l with
            | [] => Forall_nil _
            | (k, x) :: l' =>
                Forall_cons (k, x) (SQLValue_nested_ind x) (go l')
            end) props)
  end.
End ValueInduction.

(* ------------------------------------------------------------------ *)
(** ** Strings and lists *)

Section StringFacts.

Lemma chars_app (a b : string) : chars (a ++ b) = chars a ++ chars b.
Proof.
  unfold chars. induction a as [|c a IH]; simpl; [reflexivity|].
  now rewrite IH.
Qed.

Lemma of_chars_app (l m : list ascii) :
  of_chars (l ++ m) = (of_chars l ++ of_chars m)%string.
Proof.
  unfold of_chars. induction l as [|c l IH]; simpl; [reflexivity|].
  now rewrite IH.
Qed.

Lemma of_chars_chars (s : string) : of_chars (chars s) = s.
Proof. apply string_of_list_ascii_of_string. Qed.

Lemma chars_of_chars (l : list ascii) : chars (of_chars l) = l.
Proof. apply list_ascii_of_string_of_list_ascii. Qed.

Lemma chars_length (s : string) : List.length (chars s) = String.length s.
Proof. unfold chars. induction s; simpl; congruence. Qed.

Lemma string_app_assoc (a b c : string) :
  ((a ++ b) ++ c)%string = (a ++ (b ++ c))%string.
Proof. induction a as [|x a IH]; simpl; [reflexivity|]. now rewrite IH. Qed.

Lemma string_app_nil_r (a : string) : (a ++ EmptyString)%string = a.
Proof. induction a as [|x a IH]; simpl; [reflexivity|]. now rewrite IH. Qed.

(** Cutting [k + |t|] characters off [s ++ t] cuts [k] off [s]. *)
Lemma slice_end_app_short (k : nat) (s t : string) :
  slice_end (k + String.length t) (s ++ t) = slice_end k s.
Proof.
  unfold slice_end. rewrite chars_app, length_app, !chars_length.
  replace (String.length s + String.length t - (k + String.length t))
    with (String.length s - k) by lia.
  rewrite firstn_app, chars_length.
  replace (String.length s - k - String.length s) with 0 by lia.
  simpl. now rewrite app_nil_r.
Qed.

(** Cutting at most [|t|] characters off [s ++ t] leaves [s] whole. *)
Lemma slice_end_app_long (k : nat) (s t : string) :
  k <= String.length t ->
  slice_end k (s ++ t) = (s ++ slice_end k t)%string.
Proof.
  intros Hk. unfold slice_end.
  rewrite chars_app, length_app, !chars_length.
  rewrite firstn_app, chars_length.
  rewrite firstn_all2 by (rewrite chars_length; lia).
  replace (String.length s + String.length t - k - String.length s)
    with (String.length t - k) by lia.
  now rewrite of_chars_app, of_chars_chars.
Qed.

Lemma toUpperCase_app (a b : string) :
  toUpperCase (a ++ b) = (toUpperCase a ++ toUpperCase b)%string.
Proof. induction a as [|c a IH]; simpl; [reflexivity|]. now rewrite IH. Qed.

Lemma toUpperCase_length (a : string) :
  String.length (toUpperCase a) = String.length a.
Proof. induction a; simpl; congruence. Qed.

Lemma string_app_length (a b : string) :
  String.length (a ++ b) = String.length a + String.length b.
Proof. induction a; simpl; congruence. Qed.

(** [endsWith] finds a suffix exactly when there is one. *)
Lemma endsWith_true (p s : string) :
  endsWith p s = true -> exists pre, s = (pre ++ p)%string.
Proof.
  unfold endsWith. intros H. apply andb_true_iff in H as [_ H].
  apply String.eqb_eq in H.
  exists (of_chars (firstn (List.length (chars s) - List.length (chars p)) (chars s))).
  rewrite <- H at 2. rewrite <- of_chars_app, firstn_skipn.
  now rewrite of_chars_chars.
Qed.

Lemma endsWith_app (pre p : string) : endsWith p (pre ++ p) = true.
Proof.
  unfold endsWith. apply andb_true_iff. split.
  - apply Nat.leb_le. rewrite string_app_length. lia.
  - apply String.eqb_eq.
    rewrite chars_app, length_app.
    replace (List.length (chars pre) + List.length (chars p) - List.length (chars p))
      with (List.length (chars pre) + 0) by lia.
    rewrite skipn_app, Nat.add_0_r, skipn_all.
    replace (List.length (chars pre) - List.length (chars pre)) with 0 by lia.
    simpl. apply of_chars_chars.
Qed.

(** The last character of a text, as the list model sees it. *)
Lemma chars_last_app (pre : string) (c : ascii) (d : ascii) :
  last (chars (pre ++ String c EmptyString)) d = c.
Proof. rewrite chars_app. apply last_last. Qed.

End StringFacts.

Section ListFacts.

Lemma modifyLast_length (f : string -> string) (l : list string) :
  List.length (modifyLast f l) = List.length l.
Proof.
  induction l as [|x [|y l] IH]; simpl in *; congruence.
Qed.

Lemma modifyLast_snoc (f : string -> string) (l : list string) (x : string) :
  modifyLast f (l ++ [x]) = l ++ [f x].
Proof.
  induction l as [|y l IH]; [reflexivity|].
  simpl. rewrite IH. destruct l; reflexivity.
Qed.

Lemma modifyLast_app (f : string -> string) (l m : list string) :
  m <> [] -> modifyLast f (l ++ m) = l ++ modifyLast f m.
Proof.
  intros Hm. induction l as [|y l IH]; [reflexivity|].
  simpl. rewrite IH.
  destruct (l ++ m) eqn:E; [|reflexivity].
  apply app_eq_nil in E. tauto.
Qed.

Lemma modifyLast_modifyLast (f g : string -> string) (l : list string) :
  modifyLast g (modifyLast f l) = modifyLast (fun x => g (f x)) l.
Proof.
  induction l as [|x [|y l] IH]; try reflexivity.
  change (modifyLast f (x :: y :: l)) with (x :: modifyLast f (y :: l)).
  change (modifyLast (fun x => g (f x)) (x :: y :: l))
    with (x :: modifyLast (fun x => g (f x)) (y :: l)).
  rewrite <- IH. simpl. destruct l; reflexivity.
Qed.

Lemma snoc_of_nonempty (A : Type) (l : list A) :
  l <> [] -> exists l' x, l = l' ++ [x].
Proof.
  intros H. destruct (exists_last H) as (l' & x & ->). eauto.
Qed.

Lemma lastFragment_snoc (l : list string) (x : string) (vs : list BasicSQLValue) :
  lastFragment (mkStmt (l ++ [x]) vs) = Some x.
Proof.
  unfold lastFragment. simpl. destruct l as [|y l]; simpl; [reflexivity|].
  f_equal. apply last_last.
Qed.

Lemma lastFragment_Some (this : SQLStatement) (f : string) :
  lastFragment this = Some f -> exists l, sql this = l ++ [f].
Proof.
  unfold lastFragment. destruct (sql this) as [|x l] eqn:E; [discriminate|].
  intros [= <-].
  destruct (@snoc_of_nonempty _ (x :: l)) as (l' & y & Hl); [discriminate|].
  exists l'. rewrite Hl.
  f_equal. f_equal.
  destruct l' as [|z l']; simpl in Hl.
  - injection Hl as -> ->. reflexivity.
  - injection Hl as -> ->. symmetry. apply last_last.
Qed.

End ListFacts.

Arguments includes : simpl never.
Arguments endsWith : simpl never.
Arguments startsWith : simpl never.
Arguments slice_end : simpl never.
Arguments slice_from : simpl never.
Arguments slice_last : simpl never.
Arguments toUpperCase : simpl never.
Arguments of_nat : simpl never.
Arguments of_Z : simpl never.

(* ------------------------------------------------------------------ *)
(** ** The statement builder *)


Section Invariant.

Lemma invariant_setLast f this : invariant this -> invariant (setLast f this).
Proof. unfold invariant, setLast. simpl. now rewrite modifyLast_length. Qed.

Lemma invariant_appendRaw str this :
  invariant this -> invariant (appendRaw str this).
Proof. apply invariant_setLast. Qed.

Lemma invariant_pushScalar b this :
  invariant this -> invariant (pushScalar b this).
Proof.
  unfold invariant, pushScalar. simpl. rewrite !length_app. simpl. lia.
Qed.

Lemma invariant_andThen r k :
  invariant (fst r) ->
  (forall this, invariant this -> invariant (fst (k this))) ->
  invariant (fst (r >>> k)).
Proof.
  destruct r as [this [|e]]; simpl; auto.
Qed.

Create HintDb stmt.
Ltac inv_auto := intros; simpl; auto with stmt.
#[local] Hint Resolve invariant_setLast invariant_appendRaw invariant_pushScalar
  invariant_andThen : stmt.

Lemma invariant_appendParts app l :
  Forall (fun x => forall this, invariant this -> invariant (fst (app x this))) l ->
  forall this, invariant this -> invariant (fst (appendParts app l this)).
Proof.
  induction 1 as [|x l Hx _ IH]; intros this Hinv; simpl; [assumption|].
  apply invariant_andThen; inv_auto.
Qed.

Lemma invariant_appendEach app sep l :
  Forall (fun x => forall this, invariant this -> invariant (fst (app x this))) l ->
  forall this, invariant this -> invariant (fst (appendEach app sep l this)).
Proof.
  induction 1 as [|x l Hx _ IH]; intros this Hinv; simpl; [assumption|].
  apply invariant_andThen; inv_auto.
Qed.

Lemma invariant_appendKeys l :
  forall this, invariant this -> invariant (appendKeys l this).
Proof.
  induction l as [|[col v] l IH]; intros this Hinv; simpl; [assumption|].
  apply IH. auto with stmt.
Qed.

Lemma invariant_appendFields app l :
  Forall (fun kv => forall this,
            invariant this -> invariant (fst (app (snd kv) this))) l ->
  forall this, invariant this -> invariant (fst (appendFields app l this)).
Proof.
  induction 1 as [|[col v] l Hx _ IH]; intros this Hinv; simpl; [assumption|].
  apply invariant_andThen; inv_auto.
Qed.

Lemma invariant_appendAssignments app l :
  Forall (fun kv => forall this,
            invariant this -> invariant (fst (app (snd kv) this))) l ->
  forall this, invariant this -> invariant (fst (appendAssignments app l this)).
Proof.
  induction 1 as [|[col v] l Hx _ IH]; intros this Hinv; simpl; [assumption|].
  apply invariant_andThen; inv_auto.
Qed.

Lemma invariant_appendStatement vsql vvalues :
  invariantb vsql vvalues = true ->
  forall this, invariant this ->
    invariant (fst (appendStatement vsql vvalues this)).
Proof.
  intros Hwf this Hinv. destruct vsql as [|s0 rest]; simpl; [assumption|].
  apply Nat.eqb_eq in Hwf.
  unfold invariant in *. simpl in *.
  rewrite !length_app, modifyLast_length. lia.
Qed.

(** [append] keeps the invariant, whether it returns or throws. *)
Lemma invariant_append value :
  wellFormed value = true ->
  forall this, invariant this -> invariant (fst (append value this)).
Proof.
  induction value as [s|n| | |vsql vvalues|elems IH|props IH]
    using SQLValue_nested_ind; intros Hwf this Hinv;
    try (simpl; auto with stmt; fail).
  - (* nested statement *)
    now apply invariant_appendStatement.
  - (* array *)
    simpl in Hwf. rewrite forallb_forall in Hwf.
    assert (Hall : Forall (fun x => forall this,
               invariant this -> invariant (fst (append x this))) elems).
    { rewrite Forall_forall in *. intros x Hx. apply IH; auto. }
    clear IH Hwf. cbn [append].
    destruct (match elems with [] => Returns true | v0 :: _ => isSQL v0 end)
      as [[|]|e]; [|  |assumption].
    + now apply invariant_appendParts.
    + destruct (lastFragment this) as [lastf|]; [|assumption].
      destruct (includes _ _); apply invariant_andThen; inv_auto;
        now apply invariant_appendEach.
  - (* object *)
    cbn [wellFormed append] in *.
    destruct (isSQL (VObject props)) as [[|]|e]; [| |assumption].
    + (* an object that passes for a statement *)
      destruct (statementFields props) as [[vsql vvalues]|]; [|discriminate].
      destruct (property "sql" props) as [[| | | | |[|f fs]|]|];
        try assumption; now apply invariant_appendStatement.
    + rewrite forallb_forall in Hwf.
      assert (Hall : Forall (fun kv => forall this,
                 invariant this -> invariant (fst (append (snd kv) this))) props).
      { rewrite Forall_forall in *. intros [k x] Hx. apply IH; auto.
        apply (Hwf (k, x) Hx). }
      clear IH Hwf.
      destruct (lastFragment this) as [lastf|]; [|assumption].
      destruct (endsWith "(" lastf).
      * apply invariant_andThen; inv_auto.
        apply invariant_appendFields; [assumption|].
        apply invariant_setLast, invariant_appendKeys. auto with stmt.
      * destruct (endsWith " SET " (toUpperCase lastf)); [|assumption].
        apply invariant_andThen; inv_auto.
        apply invariant_appendAssignments; auto with stmt.
Qed.

Lemma invariant_construct_loop rest vals :
  forallb wellFormed vals = true ->
  forall i this, invariant this ->
  invariant (fst (construct_loop rest vals i this)).
Proof.
  intros Hvals. induction rest as [|s rest IH]; intros i this Hinv; [assumption|].
  simpl. apply invariant_andThen.
  - apply invariant_append; [|assumption].
    destruct (Nat.lt_ge_cases i (List.length vals)) as [Hi|Hi].
    + rewrite forallb_forall in Hvals. apply Hvals. now apply nth_In.
    + now rewrite nth_overflow.
  - intros this' H'. apply IH. now apply invariant_appendRaw.
Qed.

(** A plain object that [isSQL] takes for a statement has to satisfy the
    invariant like any nested statement: one with three fragments and no
    value, appended to a statement that satisfies the invariant, breaks
    it. *)
Lemma statement_like_object_can_break_invariant :
  wellFormed (statement_like [VString "a"; VString "b"; VString "c"] []) = false
  /\ invariant (mkStmt ["x"] [])
  /\ ~ invariant
        (fst (append (statement_like [VString "a"; VString "b"; VString "c"] [])
                     (mkStmt ["x"] []))).
Proof.
  split; [reflexivity|]. split; [reflexivity|].
  unfold invariant. cbn. discriminate.
Qed.

End Invariant.

(** C1.  The fragment list is one longer than the parameter list after
    construction from literal segments and interpolations, after every
    [append] (of a scalar, an array, an object, [undefined] or a nested
    statement) and after [appendRaw]; the statements nested in the
    interpolated values are statements too, so they satisfy the invariant.
    It holds of the state a throwing [append] leaves behind as well. *)
Theorem statement_length_invariant :
  forall (this : SQLStatement) (value : SQLValue) (str : string)
         (strings : list string) (vals : list SQLValue),
    invariant this ->
    wellFormed value = true ->
    strings <> [] ->
    forallb wellFormed vals = true ->
    List.length (sql (fst (append value this)))
      = List.length (values (fst (append value this))) + 1
    /\ List.length (sql (appendRaw str this))
       = List.length (values (appendRaw str this)) + 1
    /\ List.length (sql (fst (SQLStatement_new strings vals)))
       = List.length (values (fst (SQLStatement_new strings vals))) + 1.
Proof.
  intros this value str strings vals Hinv Hwf Hne Hvals.
  rewrite !Nat.add_1_r. repeat split.
  - now apply invariant_append.
  - now apply invariant_appendRaw.
  - destruct strings as [|s0 rest]; [congruence|].
    apply invariant_construct_loop; [assumption|reflexivity].
Qed.

Lemma statement_length_invariant_witness :
  List.length
    (sql (fst (append (VObject [("a", VNumber 1); ("b", VSQL ["NOW()"] [])])
                      (mkStmt ["UPDATE t SET "] []))))
  = List.length
      (values (fst (append (VObject [("a", VNumber 1); ("b", VSQL ["NOW()"] [])])
                           (mkStmt ["UPDATE t SET "] [])))) + 1
  /\ List.length (sql (appendRaw " x" (mkStmt ["UPDATE t SET "] [])))
     = List.length (values (appendRaw " x" (mkStmt ["UPDATE t SET "] []))) + 1
  /\ List.length
       (sql (fst (SQLStatement_new ["a IN ("; ") "; "z"]
                    [VArray [VNumber 1; VNumber 2]; VUndefined])))
     = List.length
         (values (fst (SQLStatement_new ["a IN ("; ") "; "z"]
                         [VArray [VNumber 1; VNumber 2]; VUndefined]))) + 1.
Proof.
  apply statement_length_invariant;
    [reflexivity | reflexivity | discriminate | reflexivity].
Defined.

Section BuilderFacts.

Lemma setLast_on_last f this l F :
  sql this = l ++ [F] ->
  setLast f this = mkStmt (removelast (sql this) ++ [f F]) (values this).
Proof.
  intros E. unfold setLast. rewrite E, modifyLast_snoc, removelast_last.
  reflexivity.
Qed.

Lemma setLast_setLast f g this :
  setLast g (setLast f this) = setLast (fun x => g (f x)) this.
Proof. unfold setLast. simpl. now rewrite modifyLast_modifyLast. Qed.

(** A text that ends with [" SET "] in upper case does not end with an
    opening parenthesis. *)
Lemma set_context_not_paren F :
  endsWith " SET " (toUpperCase F) = true -> endsWith "(" F = false.
Proof.
  intros Hset. destruct (endsWith "(" F) eqn:Hpar; [exfalso|reflexivity].
  apply endsWith_true in Hset as [pre2 Hset].
  apply endsWith_true in Hpar as [pre Hpar].
  rewrite Hpar, toUpperCase_app in Hset.
  change (toUpperCase "(") with "(" in Hset.
  change " SET " with (" SET" ++ " ")%string in Hset.
  rewrite <- string_app_assoc in Hset.
  apply (f_equal (fun s => last (chars s) "x"%char)) in Hset.
  rewrite !chars_last_app in Hset. discriminate.
Qed.

End BuilderFacts.

(** What [isSQL] answers on a row of scalars: [false], unless the row has
    a property named [constructor] whose value is [null], on which the
    test throws. *)
Lemma isSQL_rowOf (fields : list (string * BasicSQLValue)) :
  isSQL (rowOf fields) = Returns false \/ isSQL (rowOf fields) = Throws TypeError.
Proof.
  assert (H : constructorIsSQLStatement
                (map (fun kv => (fst kv, of_basic (snd kv))) fields)
              = Returns false
              \/ constructorIsSQLStatement
                   (map (fun kv => (fst kv, of_basic (snd kv))) fields)
                 = Throws TypeError).
  { unfold constructorIsSQLStatement.
    induction fields as [|[k b] fields IH]; cbn [map property fst snd]; [now left|].
    destruct (k =? "constructor")%string; [|exact IH].
    destruct b; cbn [of_basic]; auto. }
  unfold rowOf, isSQL. destruct H as [-> | ->]; auto.
Qed.

Lemma isSQL_throws_TypeError (value : SQLValue) (e : JSError) :
  isSQL value = Throws e -> e = TypeError.
Proof.
  destruct value as [s|n| | |vsql vvalues|elems|props]; try discriminate.
  unfold isSQL, constructorIsSQLStatement.
  destruct (property "constructor" props) as [[s|n| | |a b|elems|c]|];
    try discriminate; try (now intros [= <-]).
  destruct (property "name" c) as [[n| | | | | |]|]; try discriminate.
  destruct (n =? "SQLStatement")%string; discriminate.
Qed.

(** An object outside the two contexts, when [isSQL] answers [false]. *)
Lemma append_object_outside_context this props lastf :
  lastFragment this = Some lastf ->
  endsWith "(" lastf = false ->
  endsWith " SET " (toUpperCase lastf) = false ->
  isSQL (VObject props) = Returns false ->
  append (VObject props) this = (this, Thrown (objectError lastf)).
Proof.
  intros Hlast Hpar Hset Hsql. cbn [append]. now rewrite Hsql, Hlast, Hpar, Hset.
Qed.

(** An object on which [isSQL] throws. *)
Lemma append_object_isSQL_throws this props e :
  isSQL (VObject props) = Throws e ->
  append (VObject props) this = (this, Thrown TypeError).
Proof.
  intros Hsql. cbn [append]. rewrite Hsql.
  now rewrite (isSQL_throws_TypeError _ Hsql).
Qed.

(** What [isSQL] answers on some objects. *)
Lemma isSQL_examples :
  isSQL example_row = Returns false
  /\ isSQL null_constructor_row = Throws TypeError
  /\ isSQL (VObject [("constructor", VUndefined)]) = Throws TypeError
  /\ isSQL (VObject [("constructor", VString "SQLStatement")]) = Returns false
  /\ isSQL (VObject [("constructor", VObject [("name", VString "SQLStatement")])])
     = Returns false
  /\ isSQL (statement_like [VString "a"] []) = Returns true.
Proof. repeat split; reflexivity. Qed.

Lemma append_statement_like_object props vsql vvalues this :
  isSQL (VObject props) = Returns true ->
  statementFields props = Some (vsql, vvalues) ->
  append (VObject props) this = append (VSQL vsql vvalues) this.
Proof.
  intros Hsql Hfields. cbn [append]. rewrite Hsql, Hfields.
  unfold statementFields in Hfields.
  destruct (property "sql" props) as [[| | | | |[|f fs]|]|]; try reflexivity.
  destruct (property "values" props) as [[| | | | |vs|]|]; try discriminate.
  cbn [strings_of] in Hfields.
  destruct (basics_of vs); [|discriminate].
  injection Hfields as <- _. reflexivity.
Qed.

(** C4 fails for a row that has a column named [constructor] whose value
    is [null].  Behind [WHERE x = ], where an object may not appear,
    [append] of the row [{a: null}] throws the composition error that
    carries the fragment; for the row [{constructor: null}] the test
    [isSQL], which comes first, reads the name of [null] and throws a
    [TypeError], so the composition error is never reached.  The statement
    is left as it was, and the tagged form of a query throws the
    [TypeError] before anything is resolved or sent. *)
Theorem null_constructor_object_throws_TypeError :
  append (VObject [("a", VNull)]) (mkStmt ["WHERE x = "] [])
  = (mkStmt ["WHERE x = "] [],
     Thrown (Error "Objects can only appear in (obj) or after SET; unrecognized: WHERE x = [obj]"
                   None))
  /\ isSQL null_constructor_row = Throws TypeError
  /\ append null_constructor_row (mkStmt ["WHERE x = "] [])
     = (mkStmt ["WHERE x = "] [], Thrown TypeError)
  /\ tagged (@queryExec unit) (fst (MySQLDatabase_new None empty_world))
            ["WHERE x = "; " LIMIT 1"] [null_constructor_row] empty_world
     = (empty_world, Throws TypeError).
Proof. repeat split; reflexivity. Qed.

(** X21.  Appending a key-value object that [isSQL] does not take for a
    statement, to a statement whose last fragment neither ends with an
    opening parenthesis nor, in upper case, with [" SET "], always throws
    and leaves the statement as it was.  When [isSQL] answers [false] the
    error is the composition error, whose message carries that fragment;
    when [isSQL] itself throws it is a [TypeError].  A template that
    interpolates the object there throws while it is built, so that the
    tagged-template form of a query throws before anything is resolved or
    handed to the pool. *)
Theorem object_outside_context_throws :
  forall (this : SQLStatement) (props : list (string * SQLValue)) (lastf : string),
    lastFragment this = Some lastf ->
    endsWith "(" lastf = false ->
    endsWith " SET " (toUpperCase lastf) = false ->
    isSQL (VObject props) <> Returns true ->
    let err :=
      match isSQL (VObject props) with
      | Throws _ => TypeError
      | Returns _ =>
          Error ("Objects can only appear in (obj) or after SET; unrecognized: "
                   ++ lastf ++ "[obj]")%string None
      end in
    append (VObject props) this = (this, Thrown err)
    /\ (sql this = [lastf] -> values this = [] ->
        forall (next : string) (PoolState : Type)
               (run : Database PoolState -> SQLStatement -> World PoolState
                      -> World PoolState * Try Promise)
               (d : Database PoolState) (w : World PoolState),
          SQLStatement_new [lastf; next] [VObject props] = (this, Thrown err)
          /\ tagged run d [lastf; next] [VObject props] w = (w, Throws err)).
Proof.
  intros this props lastf Hlast Hpar Hset Hnot err.
  assert (Happ : append (VObject props) this = (this, Thrown err)).
  { subst err. destruct (isSQL (VObject props)) as [[|]|e] eqn:Hsql.
    - congruence.
    - now apply append_object_outside_context.
    - eapply append_object_isSQL_throws; eauto. }
  split; [exact Happ|].
  intros Hsql Hvals next PoolState run d w.
  assert (Hnew : SQLStatement_new [lastf; next] [VObject props] = (this, Thrown err)).
  { unfold SQLStatement_new, construct_loop.
    replace (mkStmt [lastf] []) with this
      by (destruct this; simpl in *; congruence).
    change (nth 0 [VObject props] VUndefined) with (VObject props).
    now rewrite Happ. }
  split; [exact Hnew|].
  unfold tagged. now rewrite Hnew.
Qed.

Lemma object_outside_context_throws_witness :
  append (VObject [("a", VNumber 1)]) (mkStmt ["WHERE x = "] [])
  = (mkStmt ["WHERE x = "] [],
     Thrown (Error "Objects can only appear in (obj) or after SET; unrecognized: WHERE x = [obj]"
                   None))
  /\ tagged (@queryExec unit) (fst (MySQLDatabase_new None empty_world))
            ["WHERE x = "; " LIMIT 1"] [VObject [("a", VNumber 1)]] empty_world
     = (empty_world,
        Throws (Error "Objects can only appear in (obj) or after SET; unrecognized: WHERE x = [obj]"
                      None)).
Proof.
  split.
  - exact (proj1 (@object_outside_context_throws
                    (mkStmt ["WHERE x = "] []) [("a", VNumber 1)] "WHERE x = "
                    eq_refl eq_refl eq_refl ltac:(discriminate))).
  - exact (proj2 (proj2 (@object_outside_context_throws
                           (mkStmt ["WHERE x = "] []) [("a", VNumber 1)]
                           "WHERE x = " eq_refl eq_refl eq_refl ltac:(discriminate))
                        eq_refl eq_refl " LIMIT 1" unit (@queryExec unit)
                        (fst (MySQLDatabase_new None empty_world)) empty_world)).
Defined.

(** X22.  A plain object that passes for a statement is appended as one:
    when [isSQL] takes an object for a statement (its constructor is named
    [SQLStatement] and its [sql] and [values] are arrays) and these arrays
    hold strings and basic values, [append] does with it exactly what it
    does with the statement that has those fragments and parameters. *)
Theorem statement_like_object_is_appended_as_statement :
  forall (props : list (string * SQLValue)) (vsql : list string)
         (vvalues : list BasicSQLValue) (this : SQLStatement),
    isSQL (VObject props) = Returns true ->
    statementFields props = Some (vsql, vvalues) ->
    append (VObject props) this = append (VSQL vsql vvalues) this.
Proof. exact append_statement_like_object. Qed.

Lemma statement_like_object_is_appended_as_statement_witness :
  append (statement_like [VString "a = "; VString " AND b"] [VNumber 1])
         (mkStmt ["WHERE "] [])
  = (mkStmt ["WHERE a = "; " AND b"] [BNumber 1], Done).
Proof.
  exact (@statement_like_object_is_appended_as_statement
           [("constructor", VObject [("name", VString "SQLStatement")]);
            ("sql", VArray [VString "a = "; VString " AND b"]);
            ("values", VArray [VNumber 1])]
           ["a = "; " AND b"] [BNumber 1] (mkStmt ["WHERE "] [])
           eq_refl eq_refl).
Defined.

(** C8.  Appending [A] to [S] and then [B] gives the same fragments and
    parameters as appending to [S] the statement got by appending [B] to
    [A]; and appending a nested statement joins its first fragment to the
    current last fragment, then adds its other fragments and all its
    parameters in order. *)
Theorem compose_associative :
  forall S A B : SQLStatement,
    invariant S -> invariant A -> invariant B ->
    append (of_statement B) (fst (append (of_statement A) S))
    = append (of_statement (fst (append (of_statement B) A))) S
    /\ (forall s0 rest vs,
          append (VSQL (s0 :: rest) vs) S
          = (mkStmt (removelast (sql S)
                       ++ [(last (sql S) EmptyString ++ s0)%string] ++ rest)
                    (values S ++ vs), Done)).
Proof.
  intros [ss sv] [sa av] [sb bv] HS HA HB.
  unfold invariant in HS, HA, HB. simpl in HS, HA, HB.
  destruct (@snoc_of_nonempty _ ss) as (ss' & sl & ->);
    [intros ->; discriminate|].
  destruct sa as [|a0 ar]; [discriminate|].
  destruct sb as [|b0 br]; [discriminate|].
  assert (Hnested : forall l x vs s0 rest ws,
             append (VSQL (s0 :: rest) ws) (mkStmt (l ++ [x]) vs)
             = (mkStmt (l ++ [(x ++ s0)%string] ++ rest) (vs ++ ws), Done)).
  { intros. cbn [append appendStatement appendRaw setLast sql values ret].
    now rewrite modifyLast_snoc, <- app_assoc. }
  split.
  - unfold of_statement. cbn [sql values].
    rewrite Hnested. cbn [fst sql values].
    destruct ar as [|a1 ar].
    + rewrite app_nil_r.
      change ([a0]) with ([] ++ [a0]). rewrite !Hnested.
      cbn [fst sql values app]. rewrite Hnested. cbn [app].
      now rewrite string_app_assoc, app_assoc.
    + destruct (@snoc_of_nonempty _ (a1 :: ar)) as (ar' & al & E);
        [discriminate|].
      rewrite E.
      replace (ss' ++ [(sl ++ a0)%string] ++ ar' ++ [al])
        with ((ss' ++ [(sl ++ a0)%string] ++ ar') ++ [al])
        by (now rewrite <- !app_assoc).
      change (a0 :: ar' ++ [al]) with ((a0 :: ar') ++ [al]).
      rewrite !Hnested. cbn [fst sql values].
      change ((a0 :: ar') ++ [(al ++ b0)%string] ++ br)
        with (a0 :: ar' ++ [(al ++ b0)%string] ++ br).
      rewrite Hnested. f_equal. f_equal.
      * cbn [app]. now rewrite <- !app_assoc.
      * now rewrite app_assoc.
  - intros s0 rest vs. cbn [sql values]. rewrite Hnested.
    now rewrite removelast_last, last_last.
Qed.

Lemma compose_associative_witness :
  append (of_statement (mkStmt [" AND b = "; " "] [BNumber 2]))
         (fst (append (of_statement (mkStmt ["a = "; EmptyString] [BNumber 1]))
                      (mkStmt ["WHERE "] [])))
  = append (of_statement
              (fst (append (of_statement (mkStmt [" AND b = "; " "] [BNumber 2]))
                           (mkStmt ["a = "; EmptyString] [BNumber 1]))))
           (mkStmt ["WHERE "] []).
Proof.
  exact (proj1 (@compose_associative
                  (mkStmt ["WHERE "] [])
                  (mkStmt ["a = "; EmptyString] [BNumber 1])
                  (mkStmt [" AND b = "; " "] [BNumber 2])
                  eq_refl eq_refl eq_refl)).
Defined.

(** C10, as stated, fails behind an opening parenthesis: of
    ["INSERT INTO t ("] followed by a quote the code removes four
    characters, not three, so the result does not even start with the text
    the claim keeps, and it ends without the parenthesis after [VALUES]. *)
Lemma empty_object_paren_counterexample :
  append (VObject []) (mkStmt ["INSERT INTO t ("] [])
  = (mkStmt [("INSERT INTO " ++ dq ++ ") VALUES")%string] [], Done)
  /\ claimed_paren_fragment "INSERT INTO t ("
     = ("INSERT INTO t" ++ dq ++ ") VALUES (")%string
  /\ String.prefix (slice_end 3 ("INSERT INTO t (" ++ dq))
                   ("INSERT INTO " ++ dq ++ ") VALUES") = false.
Proof. repeat split; reflexivity. Qed.

(** C10, amended.  Appending the empty object leaves the parameters as
    they are.  When the last fragment [F] ends, in upper case, with
    [" SET "], it becomes [F] without its last two characters.  When [F]
    ends with an opening parenthesis, the code removes four characters of
    [F] followed by a quote, adds the [VALUES] literal and removes two
    characters again, so that the fragment becomes [F] without its last
    three characters followed by a quote and [") VALUES"]. *)
Theorem empty_object_truncates :
  forall (this : SQLStatement) (F : string),
    lastFragment this = Some F ->
    (endsWith " SET " (toUpperCase F) = true ->
     append (VObject []) this
     = (mkStmt (removelast (sql this) ++ [slice_end 2 F]) (values this), Done))
    /\ (endsWith "(" F = true ->
        append (VObject []) this
        = (mkStmt (removelast (sql this)
                     ++ [(slice_end 3 F ++ dq ++ ") VALUES")%string])
                  (values this), Done)).
Proof.
  intros this F Hlast.
  destruct (lastFragment_Some _ Hlast) as [l Hsql].
  split; intros Hctx.
  - pose proof (set_context_not_paren _ Hctx) as Hpar.
    cbn [append appendAssignments andThen ret]. rewrite Hlast, Hpar, Hctx.
    unfold appendRaw. rewrite setLast_setLast.
    rewrite setLast_on_last with (1 := Hsql).
    now rewrite (slice_end_app_short 2 F dq : slice_end 3 (F ++ dq) = _).
  - cbn [append appendKeys appendFields andThen ret]. rewrite Hlast, Hctx.
    unfold appendRaw. rewrite !setLast_setLast.
    rewrite setLast_on_last with (1 := Hsql).
    rewrite slice_end_app_long by (simpl; lia).
    rewrite (slice_end_app_short 3 F dq : slice_end 4 (F ++ dq) = _).
    reflexivity.
Qed.

Lemma empty_object_truncates_witness :
  append (VObject []) (mkStmt ["UPDATE t SET "] [])
  = (mkStmt ["UPDATE t SE"] [], Done)
  /\ append (VObject []) (mkStmt ["INSERT INTO t ("] [])
     = (mkStmt [("INSERT INTO " ++ dq ++ ") VALUES")%string] [], Done).
Proof.
  split.
  - exact (proj1 (@empty_object_truncates
                    (mkStmt ["UPDATE t SET "] []) "UPDATE t SET " eq_refl)
                 eq_refl).
  - exact (proj2 (@empty_object_truncates
                    (mkStmt ["INSERT INTO t ("] []) "INSERT INTO t (" eq_refl)
                 eq_refl).
Defined.

(* ------------------------------------------------------------------ *)
(** ** Dialect resolution *)

Section ResolverFacts.

Lemma firstn_succ_nth_error (A : Type) (l : list A) (n : nat) (x : A) :
  nth_error l n = Some x -> firstn (S n) l = firstn n l ++ [x].
Proof.
  revert n. induction l as [|y l IH]; intros [|n] H; simpl in *;
    try discriminate.
  - now injection H as ->.
  - f_equal. now apply IH.
Qed.

Lemma nth_error_combine (A B : Type) (l : list A) (m : list B) n x y :
  nth_error l n = Some x -> nth_error m n = Some y ->
  nth_error (combine l m) n = Some (x, y).
Proof.
  revert m n. induction l as [|a l IH]; intros [|b m] [|n] Hx Hy;
    simpl in *; try discriminate.
  - congruence.
  - now apply IH.
Qed.

Lemma nth_error_in_range (A : Type) (l : list A) (n : nat) :
  n < List.length l -> exists x, nth_error l n = Some x.
Proof.
  intros H. destruct (nth_error l n) eqn:E; [eauto|].
  apply nth_error_None in E. lia.
Qed.

Lemma interleave_snoc t k l f :
  interleave t k (l ++ [f])
  = (interleave t k l ++ marker t (k + List.length l) ++ f)%string.
Proof.
  revert k. induction l as [|x l IH]; intros k; simpl.
  - now rewrite Nat.add_0_r, string_app_nil_r.
  - rewrite IH, !string_app_assoc.
    now replace (S k + List.length l) with (k + S (List.length l)) by lia.
Qed.

(** A template whose interpolations are all scalars is stored as it is. *)
Lemma construct_loop_scalars rest :
  forall bs bs0 this,
    List.length rest = List.length bs ->
    construct_loop rest (map of_basic (bs0 ++ bs)) (List.length bs0) this
    = (mkStmt (sql this ++ rest) (values this ++ bs), Done).
Proof.
  induction rest as [|s rest IH]; intros [|b bs] bs0 [fs vs] Hlen;
    simpl in Hlen; try discriminate.
  - simpl. now rewrite !app_nil_r.
  - cbn [construct_loop].
    assert (Hnth : nth (List.length bs0) (map of_basic (bs0 ++ b :: bs)) VUndefined
                   = of_basic b).
    { rewrite map_app, app_nth2; rewrite length_map; [|lia].
      now rewrite Nat.sub_diag. }
    rewrite Hnth.
    assert (Happ : append (of_basic b) (mkStmt fs vs)
                   = ret (pushScalar b (mkStmt fs vs)))
      by (destruct b; reflexivity).
    rewrite Happ. cbn [andThen ret].
    replace (bs0 ++ b :: bs) with ((bs0 ++ [b]) ++ bs)
      by (now rewrite <- app_assoc).
    replace (S (List.length bs0)) with (List.length (bs0 ++ [b]))
      by (rewrite length_app; simpl; lia).
    rewrite IH by lia.
    unfold appendRaw, setLast, pushScalar. cbn [sql values].
    rewrite modifyLast_snoc. cbn [String.append].
    now rewrite <- !app_assoc.
Qed.

(** The locals of the resolver after [n] rounds, when no fragment after
    the first starts with a quote glyph. *)
Lemma resolve_iter_plain t s0 rest bs :
  List.length rest = List.length bs ->
  forallb (fun f => negb (startsWithQuote f)) rest = true ->
  forall n, n <= List.length bs ->
    resolve_iter t (mkStmt (s0 :: rest) bs) n
    = Some (mkResolve (s0 ++ interleave t 1 (firstn n rest))%string
                      (firstn n bs)
                      (match t with MySQL => 0 | PG => n end)).
Proof.
  intros Hlen Hplain. induction n as [|n IH]; intros Hn.
  - simpl. rewrite string_app_nil_r. now destruct t.
  - cbn [resolve_iter]. rewrite IH by lia. unfold resolve_step. cbn [sql values].
    destruct (@nth_error_in_range _ bs n) as [v Hv]; [lia|].
    destruct (@nth_error_in_range _ rest n) as [f Hf]; [lia|].
    rewrite Hv, Nat.add_1_r. cbn [nth_error]. rewrite Hf.
    assert (Hq : startsWithQuote f = false).
    { rewrite forallb_forall in Hplain.
      apply negb_true_iff, Hplain. eapply nth_error_In; eauto. }
    rewrite Hq.
    rewrite (firstn_succ_nth_error _ _ Hv), (firstn_succ_nth_error _ _ Hf).
    rewrite interleave_snoc, length_firstn, Nat.min_l by lia.
    destruct t; cbn [bindParameter r_sql r_values r_paramCount marker];
      now rewrite !string_app_assoc.
Qed.

(** On a statement that satisfies the invariant the resolver runs through,
    and after [n] rounds it has bound the values among the first [n] whose
    following fragment does not start with a quote glyph. *)
Lemma resolve_iter_bound t query :
  invariant query ->
  forall n, n <= List.length (values query) ->
    exists st,
      resolve_iter t query n = Some st
      /\ r_values st
         = map fst
             (filter (fun vf => negb (startsWithQuote (snd vf)))
                     (firstn n (combine (values query) (tl (sql query))))).
Proof.
  destruct query as [fs vs]. unfold invariant. cbn [sql values].
  intros Hinv. induction n as [|n IH]; intros Hn.
  - destruct fs as [|s0 fs]; [discriminate|]. simpl. eauto.
  - destruct IH as (st & Hst & Hvals); [lia|].
    cbn [resolve_iter]. rewrite Hst. unfold resolve_step. cbn [sql values].
    destruct (@nth_error_in_range _ vs n) as [v Hv]; [lia|].
    destruct (@nth_error_in_range _ fs (S n)) as [f Hf]; [lia|].
    rewrite Hv, Nat.add_1_r, Hf.
    assert (Hf' : nth_error (tl fs) n = Some f) by (destruct fs; [discriminate|exact Hf]).
    rewrite (firstn_succ_nth_error _ _ (nth_error_combine _ _ _ Hv Hf')).
    rewrite filter_app, map_app. cbn [filter snd].
    destruct (startsWithQuote f); cbn [negb map fst app]; eexists; split;
      try reflexivity; cbn [spliceIdentifier bindParameter r_values].
    + now rewrite app_nil_r.
    + destruct t; cbn [bindParameter r_values]; now rewrite Hvals.
Qed.

End ResolverFacts.

(** C2, as stated, fails: a scalar interpolated between quote glyphs is
    an identifier.  The statement of the template that selects from the
    quoted table name [${'t'}] where [id = ${1}] holds two parameters; both
    dialects splice the first into the text and return only the second. *)
Lemma scalar_between_quotes_counterexample :
  SQLStatement_new
    [("SELECT * FROM " ++ dq)%string; (dq ++ " WHERE id = ")%string; EmptyString]
    [VString "t"; VNumber 1]
  = (mkStmt [("SELECT * FROM " ++ dq)%string; (dq ++ " WHERE id = ")%string;
             EmptyString]
            [BString "t"; BNumber 1], Done)
  /\ _resolveSQL MySQL
       (mkStmt [("SELECT * FROM " ++ dq)%string; (dq ++ " WHERE id = ")%string;
                EmptyString]
               [BString "t"; BNumber 1])
     = Returns ("SELECT * FROM `t` WHERE id = ?", [BNumber 1])
  /\ _resolveSQL PG
       (mkStmt [("SELECT * FROM " ++ dq)%string; (dq ++ " WHERE id = ")%string;
                EmptyString]
               [BString "t"; BNumber 1])
     = Returns (("SELECT * FROM " ++ dq ++ "t" ++ dq ++ " WHERE id = $1")%string,
                [BNumber 1]).
Proof. repeat split; reflexivity. Qed.

(** C2, amended.  A statement built from a template whose interpolations
    are all scalars, and in which no literal segment after an
    interpolation starts with a backtick or a double quote, holds the
    segments and the scalars as they are; both dialects resolve it to the
    first segment followed, for each parameter in order, by the dialect's
    marker ([?], or [$1], [$2], ... counted from one) and the next
    segment; the returned parameters are the statement's values in order,
    and no identifier is spliced in. *)
Theorem scalar_statement_resolution :
  forall (t : DatabaseType) (s0 : string) (rest : list string)
         (bs : list BasicSQLValue),
    List.length rest = List.length bs ->
    forallb (fun f => negb (startsWithQuote f)) rest = true ->
    SQLStatement_new (s0 :: rest) (map of_basic bs)
    = (mkStmt (s0 :: rest) bs, Done)
    /\ _resolveSQL t (mkStmt (s0 :: rest) bs)
       = Returns ((s0 ++ interleave t 1 rest)%string, bs).
Proof.
  intros t s0 rest bs Hlen Hplain. split.
  - unfold SQLStatement_new.
    exact (@construct_loop_scalars rest bs [] (mkStmt [s0] []) Hlen).
  - unfold _resolveSQL. cbn [values].
    rewrite (@resolve_iter_plain t s0 rest bs Hlen Hplain) by lia.
    cbn [r_sql r_values].
    rewrite firstn_all. rewrite <- Hlen, firstn_all. reflexivity.
Qed.

Lemma scalar_statement_resolution_witness :
  _resolveSQL PG (mkStmt ["a = "; " AND b = "; " LIMIT 1"] [BNumber 1; BNull])
  = Returns ("a = $1 AND b = $2 LIMIT 1", [BNumber 1; BNull]).
Proof.
  exact (proj2 (@scalar_statement_resolution PG "a = " [" AND b = "; " LIMIT 1"]
                  [BNumber 1; BNull] eq_refl eq_refl)).
Defined.

(** C3, as stated, fails: the resolvers look at the fragment that follows
    the value, not at the one before it.  In a template with the two
    segments [SELECT ] followed by a double quote and [ FROM t], the value
    comes right after a double quote, and both dialects bind it as a
    parameter. *)
Lemma quote_before_value_counterexample :
  endsWithQuote ("SELECT " ++ dq) = true
  /\ _resolveSQL MySQL (mkStmt [("SELECT " ++ dq)%string; " FROM t"] [BString "a"])
     = Returns (("SELECT " ++ dq ++ "? FROM t")%string, [BString "a"])
  /\ _resolveSQL PG (mkStmt [("SELECT " ++ dq)%string; " FROM t"] [BString "a"])
     = Returns (("SELECT " ++ dq ++ "$1 FROM t")%string, [BString "a"]).
Proof. repeat split; reflexivity. Qed.

(** C3, amended.  In a statement that satisfies the invariant, a value
    whose following fragment starts with a backtick or a double quote is
    never bound: in its round the resolver of either dialect drops the last
    character of the text so far, adds a dialect-escaped identifier and
    the following fragment without its first character, and leaves the
    parameters and the counter as they are; the identifier that is escaped
    is the text of the value, for every value that a template literal
    prints in full (a string, [null], an integer of magnitude up to 2^53).
    The parameters returned in the end are exactly the values whose
    following fragment does not start with a quote glyph, in order. *)
Theorem identifier_is_spliced :
  forall (t : DatabaseType) (query : SQLStatement),
    invariant query ->
    (exists text, _resolveSQL t query = Returns (text, boundValues query))
    /\ (forall i value next,
          nth_error (values query) i = Some value ->
          nth_error (sql query) (S i) = Some next ->
          startsWithQuote next = true ->
          exists st id,
            resolve_iter t query i = Some st
            /\ resolve_iter t query (S i)
               = Some (mkResolve
                         (slice_end 1 (r_sql st)
                            ++ escapeId t id
                            ++ slice_from 1 next)%string
                         (r_values st) (r_paramCount st))
            /\ (printsInFull value -> id = template_text value)).
Proof.
  intros t query Hinv. split.
  - destruct (@resolve_iter_bound t query Hinv _ (le_n _)) as (st & Hst & Hvals).
    exists (r_sql st). unfold _resolveSQL, boundValues. rewrite Hst, Hvals.
    rewrite firstn_all2; [reflexivity|].
    rewrite length_combine. lia.
  - intros i value next Hv Hf Hq.
    assert (Hi : i < List.length (values query))
      by (apply nth_error_Some; congruence).
    destruct (@resolve_iter_bound t query Hinv _ (Nat.lt_le_incl _ _ Hi))
      as (st & Hst & _).
    exists st, (template_text value). split; [exact Hst|]. split; [|reflexivity].
    cbn [resolve_iter]. rewrite Hst. unfold resolve_step.
    now rewrite Hv, Nat.add_1_r, Hf, Hq.
Qed.

Lemma identifier_is_spliced_witness :
  (exists text,
     _resolveSQL MySQL
       (mkStmt [("SELECT * FROM " ++ dq)%string; (dq ++ " WHERE id = ")%string;
                EmptyString]
               [BString "t"; BNumber 1])
     = Returns (text, [BNumber 1]))
  /\ (exists st id,
        resolve_iter PG
          (mkStmt [("SELECT * FROM " ++ dq)%string; (dq ++ " WHERE id = ")%string;
                   EmptyString]
                  [BString "t"; BNumber 1]) 0
        = Some st
        /\ resolve_iter PG
             (mkStmt [("SELECT * FROM " ++ dq)%string;
                      (dq ++ " WHERE id = ")%string; EmptyString]
                     [BString "t"; BNumber 1]) 1
           = Some (mkResolve
                     (slice_end 1 (r_sql st)
                        ++ escapeId PG id
                        ++ slice_from 1 (dq ++ " WHERE id = "))%string
                     (r_values st) (r_paramCount st))
        /\ (printsInFull (BString "t") -> id = template_text (BString "t"))).
Proof.
  split.
  - exact (proj1 (@identifier_is_spliced MySQL
                    (mkStmt [("SELECT * FROM " ++ dq)%string;
                             (dq ++ " WHERE id = ")%string; EmptyString]
                            [BString "t"; BNumber 1])
                    eq_refl)).
  - exact (proj2 (@identifier_is_spliced PG
                    (mkStmt [("SELECT * FROM " ++ dq)%string;
                             (dq ++ " WHERE id = ")%string; EmptyString]
                            [BString "t"; BNumber 1])
                    eq_refl)
                 0 (BString "t") (dq ++ " WHERE id = ")%string
                 eq_refl eq_refl eq_refl).
Defined.

(* ------------------------------------------------------------------ *)
(** ** What the builder and the queries can throw *)

Section Thrown.

Lemma thrown_andThen r k e :
  snd (r >>> k) = Thrown e ->
  snd r = Thrown e \/ exists this, snd (k this) = Thrown e.
Proof.
  destruct r as [this [|e']]; simpl; eauto.
Qed.

Ltac thrown_step :=
  match goal with
  | H : snd (_ >>> _) = Thrown _ |- _ =>
      apply thrown_andThen in H; destruct H as [H|[? H]]
  | H : snd (ret _) = Thrown _ |- _ => discriminate H
  | H : snd (_, Thrown _) = Thrown _ |- _ => simpl in H; injection H as <-
  end.

Lemma thrown_appendParts app l :
  Forall (fun x => forall this e, snd (app x this) = Thrown e -> builderError e) l ->
  forall this e, snd (appendParts app l this) = Thrown e -> builderError e.
Proof.
  induction 1 as [|x l Hx _ IH]; intros this e H; simpl in H;
    try discriminate; repeat thrown_step; eauto.
Qed.

Lemma thrown_appendEach app sep l :
  Forall (fun x => forall this e, snd (app x this) = Thrown e -> builderError e) l ->
  forall this e, snd (appendEach app sep l this) = Thrown e -> builderError e.
Proof.
  induction 1 as [|x l Hx _ IH]; intros this e H; simpl in H;
    try discriminate; repeat thrown_step; eauto.
Qed.

Lemma thrown_appendFields app l :
  Forall (fun kv => forall this e,
            snd (app (snd kv) this) = Thrown e -> builderError e) l ->
  forall this e, snd (appendFields app l this) = Thrown e -> builderError e.
Proof.
  induction 1 as [|[col v] l Hx _ IH]; intros this e H; simpl in H;
    try discriminate; repeat thrown_step; eauto.
Qed.

Lemma thrown_appendAssignments app l :
  Forall (fun kv => forall this e,
            snd (app (snd kv) this) = Thrown e -> builderError e) l ->
  forall this e, snd (appendAssignments app l this) = Thrown e -> builderError e.
Proof.
  induction 1 as [|[col v] l Hx _ IH]; intros this e H; simpl in H;
    try discriminate; repeat thrown_step; eauto.
Qed.

(** [append] throws nothing but the composition error and a [TypeError]
    (on a statement without fragments, or from [isSQL]). *)
Lemma thrown_append value :
  forall this e, snd (append value this) = Thrown e -> builderError e.
Proof.
  induction value as [s|n| | |vsql vvalues|elems IH|props IH]
    using SQLValue_nested_ind; intros this e H;
    try (simpl in H; discriminate H).
  - destruct vsql; simpl in H; discriminate H.
  - cbn [append] in H.
    destruct (match elems with [] => Returns true | v0 :: _ => isSQL v0 end)
      as [[|]|e'] eqn:Hsql.
    + eapply thrown_appendParts; eauto.
    + destruct (lastFragment this) as [lastf|].
      * destruct (includes _ _); repeat thrown_step;
          eapply thrown_appendEach; eauto.
      * thrown_step. now left.
    + thrown_step. left. destruct elems as [|v0 l]; [discriminate|].
      eapply isSQL_throws_TypeError; eauto.
  - cbn [append] in H.
    destruct (isSQL (VObject props)) as [[|]|e'] eqn:Hsql.
    + assert (Hfields :
                forall r,
                  r = match statementFields props with
                      | Some (vsql, vvalues) => appendStatement vsql vvalues this
                      | None => (this, Thrown TypeError)
                      end ->
                  snd r = Thrown e -> builderError e).
      { intros r ->. destruct (statementFields props) as [[[|s0 rest] vvalues]|];
          simpl; try discriminate. intros [= <-]. now left. }
      destruct (property "sql" props) as [[| | | | |[|f fs]|]|];
        try (eapply Hfields; [reflexivity|exact H]).
      discriminate H.
    + destruct (lastFragment this) as [lastf|].
      * destruct (endsWith "(" lastf).
        -- repeat thrown_step. eapply thrown_appendFields; eauto.
        -- destruct (endsWith " SET " (toUpperCase lastf)).
           ++ repeat thrown_step. eapply thrown_appendAssignments; eauto.
           ++ thrown_step. right. eauto.
      * thrown_step. now left.
    + thrown_step. left. eapply isSQL_throws_TypeError; eauto.
Qed.

Lemma thrown_construct_loop rest vals :
  forall i this e,
    snd (construct_loop rest vals i this) = Thrown e -> builderError e.
Proof.
  induction rest as [|s rest IH]; intros i this e H; simpl in H.
  - discriminate.
  - thrown_step; [eapply thrown_append|eapply IH]; eauto.
Qed.

Lemma thrown_new strings vals e :
  snd (SQLStatement_new strings vals) = Thrown e -> builderError e.
Proof.
  destruct strings as [|s0 rest]; simpl; [discriminate|].
  apply thrown_construct_loop.
Qed.

Lemma thrown_resolve t query e :
  _resolveSQL t query = Throws e -> builderError e.
Proof.
  unfold _resolveSQL. destruct (resolve_iter _ _ _); [discriminate|].
  intros [= <-]. now left.
Qed.

Variable PoolState : Type.
Lemma thrown_mysql__query (p : mysql_Pool PoolState) text vals w w' e :
  mysql__query p text vals w = (w', Throws e) -> builderError e.
Proof.
  unfold mysql__query. destruct (mysql_query p) as [q|]; [|discriminate].
  destruct (q text vals (resource w)) as [s [err|res]]; discriminate.
Qed.

Lemma thrown_pg_call (p : option (pg_Pool PoolState)) text vals project w w' e :
  pg_call p text vals project w = (w', Throws e) -> builderError e.
Proof.
  unfold pg_call. destruct p as [p|].
  - destruct (pg_query p text vals (resource w)) as [s [err|res]]; discriminate.
  - intros [= _ <-]. now left.
Qed.

Lemma thrown_queryExec : throwsBuilderErrors (@queryExec PoolState).
Proof.
  intros d stmt w w' e. unfold queryExec.
  destruct (_resolveSQL (db_type d) stmt) as [[text vals]|e'] eqn:E.
  - destruct d; simpl; eauto using thrown_mysql__query, thrown_pg_call.
  - intros [= _ <-]. eapply thrown_resolve; eauto.
Qed.

Lemma thrown_query : throwsBuilderErrors (@query PoolState).
Proof.
  intros d stmt w w' e. unfold query.
  destruct (_resolveSQL (db_type d) stmt) as [[text vals]|e'] eqn:E.
  - destruct d; simpl; eauto using thrown_mysql__query, thrown_pg_call.
  - intros [= _ <-]. eapply thrown_resolve; eauto.
Qed.

Lemma thrown_queryOne : throwsBuilderErrors (@queryOne PoolState).
Proof.
  intros d stmt w w' e. unfold queryOne.
  destruct (query d stmt w) as [w1 [[r|e1]|e1]] eqn:E; try discriminate.
  intros [= _ <-]. eapply thrown_query; eauto.
Qed.

Lemma thrown_tagged run (d : Database PoolState) strings rest w w' e :
  throwsBuilderErrors run ->
  tagged run d strings rest w = (w', Throws e) -> builderError e.
Proof.
  intros Hrun. unfold tagged.
  destruct (SQLStatement_new strings rest) as [stmt [|e1]] eqn:E.
  - apply Hrun.
  - intros [= _ <-]. apply (@thrown_new strings rest). now rewrite E.
Qed.

Lemma thrown_with_clause run (t : DatabaseTable PoolState) outer strings rest w w' e :
  throwsBuilderErrors run ->
  with_clause run t outer strings rest w = (w', Throws e) -> builderError e.
Proof.
  intros Hrun. unfold with_clause.
  destruct (SQLStatement_new strings rest) as [stmt [|e1]] eqn:E.
  - destruct (outer (of_statement stmt)) as [ostrings ovalues].
    now apply thrown_tagged.
  - intros [= _ <-]. apply (@thrown_new strings rest). now rewrite E.
Qed.

Lemma thrown_selectOne (t : DatabaseTable PoolState) entries strings rest w w' e :
  selectOne t entries strings rest w = (w', Throws e) -> builderError e.
Proof.
  unfold selectOne.
  destruct (entries_statement entries) as [ent [|e1]] eqn:E.
  - apply thrown_with_clause, thrown_queryOne.
  - intros [= _ <-]. destruct entries; unfold entries_statement, SQL in E.
    + apply (@thrown_new ["*"] []). now rewrite E.
    + apply (@thrown_new [dq; dq] [VArray (map VString cols)]). now rewrite E.
    + discriminate.
Qed.

(** The configuration error is none of the builder's errors. *)
Lemma keyError_not_builderError method : ~ builderError (keyError method).
Proof.
  intros [H|[lastf H]]; [discriminate|].
  unfold keyError, objectError in H. simpl in H. discriminate.
Qed.

End Thrown.

(* ------------------------------------------------------------------ *)
(** ** The table helper and the connections *)

(** C7.  On a table [users] of a connection without prefix,
    [insert({name: "x", age: 5})] builds the statement whose fragments and
    values are listed below; MySQL resolves it to the [INSERT] text with
    the table and the two columns in backticks and two [?] markers,
    Postgres to the same text with double quotes and [$1], [$2]; both
    return the parameters ["x"] and [5] in that order, and that text and
    those parameters are what [insert] hands to the pool. *)
Theorem insert_users_example :
  forall (PoolState : Type) (w : World PoolState),
    let my := fst (MySQLDatabase_new None w) in
    let pgdb := fst (PGDatabase_new true w) in
    let stmt :=
      mkStmt [("INSERT INTO " ++ dq)%string; (dq ++ " (" ++ dq)%string;
              (dq ++ ", " ++ dq)%string; (dq ++ ") VALUES (")%string;
              ", "; ") "]
             [BString "users"; BString "name"; BString "age";
              BString "x"; BNumber 5] in
    let mytext := "INSERT INTO `users` (`name`, `age`) VALUES (?, ?) " in
    let pgtext :=
      ("INSERT INTO " ++ dq ++ "users" ++ dq ++ " (" ++ dq ++ "name" ++ dq
         ++ ", " ++ dq ++ "age" ++ dq ++ ") VALUES ($1, $2) ")%string in
    SQLStatement_new insert_strings
      (insert_values (getTable my "users" None) example_row None)
    = (stmt, Done)
    /\ _resolveSQL MySQL stmt = Returns (mytext, [BString "x"; BNumber 5])
    /\ _resolveSQL PG stmt = Returns (pgtext, [BString "x"; BNumber 5])
    /\ sent (fst (insert (getTable my "users" None) example_row None w))
       = sent w ++ [(mytext, [BString "x"; BNumber 5])]
    /\ sent (fst (insert (getTable pgdb "users" None) example_row None w))
       = sent w ++ [(pgtext, [BString "x"; BNumber 5])].
Proof.
  intros PoolState w. repeat split; reflexivity.
Qed.

(** C6, as stated, fails for a key name that is set to the empty string:
    the guard is a truthiness test, so [get] throws the configuration
    error there as well. *)
Lemma empty_key_name_counterexample :
  get (getTable (fst (MySQLDatabase_new None empty_world)) "users"
                (Some EmptyString))
      (BNumber 1) NoEntries empty_world
  = (empty_world,
     Throws (Error "Cannot get() without a single-column primary key" None)).
Proof. reflexivity. Qed.

(** C6, amended.  On a table whose [primaryKeyName] is [null] or the
    empty string, [get], [delete] and [update] throw the configuration
    error at once: the process state is untouched, so nothing was resolved
    or handed to a pool.  When [primaryKeyName] is a non-empty string they
    delegate to [selectOne], [deleteAll] and [updateAll] with the key
    clause, and whatever these throw is not a configuration error. *)
Theorem keyed_methods_require_key :
  forall (PoolState : Type) (t : DatabaseTable PoolState)
         (primaryKey : BasicSQLValue) (entries : Entries) (data : SQLValue)
         (w : World PoolState),
    (primaryKeyName t = None \/ primaryKeyName t = Some EmptyString ->
     get t primaryKey entries w
     = (w, Throws (Error "Cannot get() without a single-column primary key" None))
     /\ delete t primaryKey w
        = (w, Throws (Error "Cannot delete() without a single-column primary key" None))
     /\ update t primaryKey data w
        = (w, Throws (Error "Cannot update() without a single-column primary key" None)))
    /\ (forall k, primaryKeyName t = Some k -> k <> EmptyString ->
        get t primaryKey entries w
        = selectOne t entries where_key_strings [VString k; of_basic primaryKey] w
        /\ delete t primaryKey w
           = deleteAll t where_key_strings [VString k; of_basic primaryKey] w
        /\ update t primaryKey data w
           = updateAll t data where_key_strings [VString k; of_basic primaryKey] w
        /\ forall w' e method,
             get t primaryKey entries w = (w', Throws e)
             \/ delete t primaryKey w = (w', Throws e)
             \/ update t primaryKey data w = (w', Throws e) ->
             e <> Error ("Cannot " ++ method
                           ++ "() without a single-column primary key")%string None).
Proof.
  intros PoolState t primaryKey entries data w. split.
  - intros Hnull. unfold get, delete, update, noPrimaryKey.
    destruct Hnull as [-> | ->]; repeat split.
  - intros k Hk Hne.
    assert (Hset : noPrimaryKey t = false).
    { unfold noPrimaryKey. rewrite Hk. now apply String.eqb_neq. }
    assert (Hvals : where_key_values t primaryKey = [VString k; of_basic primaryKey]).
    { unfold where_key_values, keyName. now rewrite Hk. }
    unfold get, delete, update. rewrite Hset, Hvals.
    repeat split.
    intros w' e method H Habs.
    apply (@keyError_not_builderError method). unfold keyError.
    rewrite <- Habs.
    destruct H as [H|[H|H]].
    + eapply thrown_selectOne; eauto.
    + unfold deleteAll in H.
      eapply thrown_with_clause; [apply thrown_queryExec|eauto].
    + unfold updateAll in H.
      eapply thrown_with_clause; [apply thrown_queryExec|eauto].
Qed.

Lemma keyed_methods_require_key_witness :
  get (getTable (fst (MySQLDatabase_new None empty_world)) "users" None)
      (BNumber 42) NoEntries empty_world
  = (empty_world,
     Throws (Error "Cannot get() without a single-column primary key" None))
  /\ update (getTable (fst (MySQLDatabase_new None empty_world)) "users"
                      (Some EmptyString))
            (BNumber 42) example_row empty_world
     = (empty_world,
        Throws (Error "Cannot update() without a single-column primary key" None))
  /\ sent (fst (get (getTable (fst (MySQLDatabase_new None empty_world))
                              "users" (Some "id"))
                    (BNumber 42) NoEntries empty_world))
     = [("SELECT * FROM `users` WHERE `id` = ? LIMIT 1", [BNumber 42])].
Proof.
  split; [|split].
  - exact (proj1 (proj1 (@keyed_methods_require_key unit
                    (getTable (fst (MySQLDatabase_new None empty_world)) "users" None)
                    (BNumber 42) NoEntries VUndefined empty_world)
                  (or_introl eq_refl))).
  - exact (proj2 (proj2 (proj1 (@keyed_methods_require_key unit
                    (getTable (fst (MySQLDatabase_new None empty_world)) "users"
                              (Some EmptyString))
                    (BNumber 42) NoEntries example_row empty_world)
                  (or_intror eq_refl)))).
  - rewrite (proj1 (proj2 (@keyed_methods_require_key unit
                    (getTable (fst (MySQLDatabase_new None empty_world))
                              "users" (Some "id"))
                    (BNumber 42) NoEntries VUndefined empty_world)
                  "id" eq_refl ltac:(discriminate))).
    reflexivity.
Defined.

Section TryInsert.
Variable PoolState : Type.

(** Whatever [MySQLDatabase._query] rejects with is a fresh [Error]: it
    has the driver's code in its message, and no [code] property. *)
Lemma mysql__query_rejects_without_code
    (p : mysql_Pool PoolState) text vals (w w' : World PoolState) e :
  mysql__query p text vals w = (w', Returns (Rejected e)) -> err_code e = None.
Proof.
  unfold mysql__query. destruct (mysql_query p) as [q|]; [|discriminate].
  destruct (q text vals (resource w)) as [s [err|res]]; [|discriminate].
  now intros [= _ <-].
Qed.

(** Hence [tryInsert] on a MySQL connection never turns a failure of the
    pool into an absent result: when [insert] is rejected, so is
    [tryInsert], with the same error. *)
Lemma tryInsert_mysql_keeps_rejection
    (p : mysql_Pool PoolState) prefix nm pk partialRow where_
    (w w' : World PoolState) e :
  insert (getTable (MySQLDatabase p prefix) nm pk) partialRow where_ w
  = (w', Returns (Rejected e)) ->
  tryInsert (getTable (MySQLDatabase p prefix) nm pk) partialRow where_ w
  = (w', Rejected e).
Proof.
  intros H. unfold tryInsert. rewrite H.
  assert (Hcode : err_code e = None).
  { unfold insert, tagged in H.
    destruct (SQLStatement_new _ _) as [stmt [|e1]]; [|discriminate].
    unfold queryExec in H. cbn [db getTable db_type] in H.
    destruct (_resolveSQL MySQL stmt) as [[text vals]|e1]; [|discriminate].
    eapply mysql__query_rejects_without_code; eauto. }
  now rewrite Hcode.
Qed.

(** On a Postgres connection the driver's error reaches [tryInsert] as it
    is, and the test on its code decides. *)
Lemma tryInsert_pg_by_code
    (p : pg_Pool PoolState) prefix nm pk partialRow where_
    (w w' : World PoolState) msg c :
  insert (getTable (PGDatabase (Some p) prefix) nm pk) partialRow where_ w
  = (w', Returns (Rejected (Error msg c))) ->
  tryInsert (getTable (PGDatabase (Some p) prefix) nm pk) partialRow where_ w
  = (w', match c with
         | Some "ER_DUP_ENTRY" => Fulfilled Undefined
         | _ => Rejected (Error msg c)
         end).
Proof.
  intros H. unfold tryInsert. rewrite H. cbn [err_code].
  destruct c as [c|]; [|reflexivity].
  destruct (c =? "ER_DUP_ENTRY")%string eqn:E.
  - apply String.eqb_eq in E. now subst.
  - apply String.eqb_neq in E.
    repeat (match goal with
            | |- context [match ?s with EmptyString => _ | String _ _ => _ end] =>
                destruct s; try reflexivity
            | |- context [match ?a with Ascii _ _ _ _ _ _ _ _ => _ end] =>
                destruct a
            | |- context [if ?b then _ else _] => destruct b; try reflexivity
            end).
    congruence.
Qed.

End TryInsert.

(** C5 fails on the MySQL path.  With a pool that reports a duplicate key
    (code [ER_DUP_ENTRY]), [MySQLDatabase._query] rejects with a new
    [Error] that has no [code], so [tryInsert] rejects with that error
    instead of being fulfilled with [undefined]; the same driver error on
    the Postgres path, which passes the error on as it is, is downgraded. *)
Theorem tryInsert_mysql_duplicate_is_rejected :
  tryInsert (getTable (MySQLDatabase (failing_mysql_pool duplicate_entry)
                                     EmptyString) "users" None)
            example_row None empty_world
  = (mkWorld [] tt
       [("INSERT INTO `users` (`name`, `age`) VALUES (?, ?) ",
         [BString "x"; BNumber 5])],
     Rejected
       (Error
          "Duplicate entry 'x' for key 'PRIMARY' (INSERT INTO `users` (`name`, `age`) VALUES (?, ?) ) (x,5) [ER_DUP_ENTRY]"
          None))
  /\ snd (tryInsert (getTable (PGDatabase (Some (failing_pg_pool duplicate_entry))
                                          EmptyString) "users" None)
                    example_row None empty_world)
     = Fulfilled Undefined.
Proof. split; reflexivity. Qed.

(** C9, as stated, fails: after [close()] the connection is still in
    [connectedDatabases]. *)
Lemma close_keeps_tracking_counterexample :
  connectedDatabases
    (close (fst (MySQLDatabase_new None empty_world))
           (snd (MySQLDatabase_new None empty_world)))
  = [fst (MySQLDatabase_new None empty_world)].
Proof. reflexivity. Qed.

(** C9, amended.  Each constructor appends the new connection to
    [connectedDatabases].  [close()] never changes that list, nor the
    statements sent: it only applies the pool's [end] to the pooled resource
    when the connection has one.  A connection built by one of the two
    constructors has a stub pool, whose [end] does nothing, so [close()]
    leaves the process state as it is; in general [close()] is idempotent
    whenever the pool's [end] is. *)
Theorem connection_tracking :
  forall (PoolState : Type) (d : Database PoolState)
         (config_prefix : option string) (config : bool)
         (w w' : World PoolState),
    connectedDatabases (snd (Database_new d w)) = connectedDatabases w ++ [d]
    /\ connectedDatabases (snd (MySQLDatabase_new config_prefix w))
       = connectedDatabases w ++ [fst (MySQLDatabase_new config_prefix w)]
    /\ connectedDatabases (snd (PGDatabase_new config w))
       = connectedDatabases w ++ [fst (PGDatabase_new config w)]
    /\ connectedDatabases (close d w) = connectedDatabases w
    /\ sent (close d w) = sent w
    /\ resource (close d w)
       = match db_end d with
         | Some end_ => end_ (resource w)
         | None => resource w
         end
    /\ close (fst (MySQLDatabase_new config_prefix w)) w' = w'
    /\ close (fst (PGDatabase_new config w)) w' = w'
    /\ ((forall end_ s, db_end d = Some end_ -> end_ (end_ s) = end_ s) ->
        close d (close d w) = close d w).
Proof.
  intros PoolState d config_prefix config w w'.
  repeat split; try (destruct d as [p pre|[p|] pre]; simpl;
                     try destruct (mysql_end p); reflexivity).
  - destruct w'. reflexivity.
  - destruct w', config; reflexivity.
  - intros Hidem. destruct d as [p pre|[p|] pre]; simpl in *.
    + destruct (mysql_end p) as [e|] eqn:E; simpl; rewrite ?E; [|reflexivity].
      simpl. now rewrite Hidem.
    + simpl. now rewrite Hidem.
    + reflexivity.
Qed.

Lemma connection_tracking_witness :
  close (fst (MySQLDatabase_new (Some "ps_") empty_world))
        (close (fst (MySQLDatabase_new (Some "ps_") empty_world))
               (snd (MySQLDatabase_new (Some "ps_") empty_world)))
  = close (fst (MySQLDatabase_new (Some "ps_") empty_world))
          (snd (MySQLDatabase_new (Some "ps_") empty_world)).
Proof.
  apply (@connection_tracking unit
           (fst (MySQLDatabase_new (Some "ps_") empty_world))
           None true
           (snd (MySQLDatabase_new (Some "ps_") empty_world)) empty_world).
  intros end_ s H. injection H as <-. reflexivity.
Defined.

(* ------------------------------------------------------------------ *)
(** ** Further properties of the statement builder *)

Section Extends.

Lemma removelast_app_cons (A : Type) (l : list A) (x : A) (m : list A) :
  removelast (l ++ x :: m) = l ++ removelast (x :: m).
Proof. apply removelast_app. discriminate. Qed.

Lemma modifyLast_cons_shape f x m :
  exists y m', modifyLast f (x :: m) = y :: m'.
Proof. destruct m; simpl; eauto. Qed.

Lemma extends_refl this : sql this <> [] -> extends this this.
Proof.
  intros H. destruct (snoc_of_nonempty H) as (l & x & E).
  exists x, [], []. rewrite E, removelast_last, app_nil_r. auto.
Qed.

Lemma extends_setLast f base this :
  extends base this -> extends base (setLast f this).
Proof.
  intros (x & more & extra & Hs & Hv). unfold extends, setLast. simpl.
  rewrite Hs, modifyLast_app by discriminate.
  destruct (modifyLast_cons_shape f x more) as (y & m' & ->). eauto.
Qed.

Lemma extends_pushScalar b base this :
  extends base this -> extends base (pushScalar b this).
Proof.
  intros (x & more & extra & Hs & Hv). unfold extends, pushScalar. simpl.
  rewrite Hs, Hv, <- !app_assoc. simpl. eauto.
Qed.

Lemma extends_andThen base r k :
  extends base (fst r) ->
  (forall this, extends base this -> extends base (fst (k this))) ->
  extends base (fst (r >>> k)).
Proof. destruct r as [this [|e]]; simpl; auto. Qed.

Create HintDb ext.
#[local] Hint Resolve extends_setLast extends_pushScalar extends_andThen : ext.

Ltac ext_auto := intros; simpl; unfold appendRaw; auto with ext.

Lemma extends_appendParts app base l :
  Forall (fun x => forall this, extends base this -> extends base (fst (app x this))) l ->
  forall this, extends base this -> extends base (fst (appendParts app l this)).
Proof.
  induction 1 as [|x l Hx _ IH]; intros this H; simpl; [assumption|].
  apply extends_andThen; ext_auto.
Qed.

Lemma extends_appendEach app base sep l :
  Forall (fun x => forall this, extends base this -> extends base (fst (app x this))) l ->
  forall this, extends base this -> extends base (fst (appendEach app sep l this)).
Proof.
  induction 1 as [|x l Hx _ IH]; intros this H; simpl; [assumption|].
  apply extends_andThen; ext_auto.
Qed.

Lemma extends_appendKeys base l :
  forall this, extends base this -> extends base (appendKeys l this).
Proof.
  induction l as [|[col v] l IH]; intros this H; simpl; [assumption|].
  apply IH. ext_auto.
Qed.

Lemma extends_appendFields app base l :
  Forall (fun kv => forall this,
            extends base this -> extends base (fst (app (snd kv) this))) l ->
  forall this, extends base this -> extends base (fst (appendFields app l this)).
Proof.
  induction 1 as [|[col v] l Hx _ IH]; intros this H; simpl; [assumption|].
  apply extends_andThen; ext_auto.
Qed.

Lemma extends_appendAssignments app base l :
  Forall (fun kv => forall this,
            extends base this -> extends base (fst (app (snd kv) this))) l ->
  forall this, extends base this -> extends base (fst (appendAssignments app l this)).
Proof.
  induction 1 as [|[col v] l Hx _ IH]; intros this H; simpl; [assumption|].
  apply extends_andThen; ext_auto.
Qed.

Lemma extends_appendStatement vsql vvalues base this :
  extends base this -> extends base (fst (appendStatement vsql vvalues this)).
Proof.
  intros H. destruct vsql as [|s0 rest]; [assumption|].
  assert (H1 : extends base (appendRaw s0 this)) by ext_auto.
  destruct H1 as (x & more & extra & Hs & Hv).
  cbn [appendStatement fst ret]. unfold extends. cbn [sql values].
  rewrite Hs, Hv, <- !app_assoc. simpl. eauto.
Qed.

Lemma extends_append value :
  forall base this, extends base this -> extends base (fst (append value this)).
Proof.
  induction value as [s|n| | |vsql vvalues|elems IH|props IH]
    using SQLValue_nested_ind; intros base this H;
    try (simpl; auto with ext; fail).
  - now apply extends_appendStatement.
  - assert (Hall : Forall (fun x => forall this,
               extends base this -> extends base (fst (append x this))) elems).
    { rewrite Forall_forall in *. intros x Hx. now apply IH. }
    clear IH. cbn [append].
    destruct (match elems with [] => Returns true | v0 :: _ => isSQL v0 end)
      as [[|]|e]; [| |assumption].
    + now apply extends_appendParts.
    + destruct (lastFragment this) as [lastf|]; [|assumption].
      destruct (includes _ _); apply extends_andThen; ext_auto;
        now apply extends_appendEach.
  - assert (Hall : Forall (fun kv => forall this,
               extends base this -> extends base (fst (append (snd kv) this))) props).
    { rewrite Forall_forall in *. intros kv Hx. now apply IH. }
    clear IH. cbn [append].
    destruct (isSQL (VObject props)) as [[|]|e]; [| |assumption].
    + assert (Hfields :
                extends base
                  (fst match statementFields props with
                       | Some (vsql, vvalues) => appendStatement vsql vvalues this
                       | None => (this, Thrown TypeError)
                       end)).
      { destruct (statementFields props) as [[vsql vvalues]|]; [|assumption].
        now apply extends_appendStatement. }
      destruct (property "sql" props) as [[| | | | |[|f fs]|]|];
        try exact Hfields.
      assumption.
    + destruct (lastFragment this) as [lastf|]; [|assumption].
      destruct (endsWith "(" lastf).
      * apply extends_andThen; ext_auto.
        apply extends_appendFields; [assumption|].
        apply extends_setLast, extends_appendKeys. ext_auto.
      * destruct (endsWith " SET " (toUpperCase lastf)); [|assumption].
        apply extends_andThen; ext_auto.
        apply extends_appendAssignments; ext_auto.
Qed.

End Extends.

(** X1.  [append] only ever extends a statement: whatever is appended,
    and whether the call returns or throws part-way, the fragments before
    the last one and all the parameters present before the call are still
    there, in place; only the last fragment may have been rewritten. *)
Theorem append_only_extends :
  forall (value : SQLValue) (this : SQLStatement),
    sql this <> [] ->
    exists f more extra,
      sql (fst (append value this)) = removelast (sql this) ++ f :: more
      /\ values (fst (append value this)) = values this ++ extra.
Proof.
  intros value this H. apply extends_append, extends_refl, H.
Qed.

Lemma append_only_extends_witness :
  exists f more extra,
    sql (fst (append (VArray [VNumber 1; VObject []])
                     (mkStmt ["a = "; " AND b IN ("] [BNull])))
    = removelast ["a = "; " AND b IN ("] ++ f :: more
    /\ values (fst (append (VArray [VNumber 1; VObject []])
                           (mkStmt ["a = "; " AND b IN ("] [BNull])))
       = [BNull] ++ extra.
Proof.
  apply (@append_only_extends (VArray [VNumber 1; VObject []])
           (mkStmt ["a = "; " AND b IN ("] [BNull])).
  discriminate.
Defined.

Section Shapes.

Lemma slice_end_short (k : nat) (s : string) :
  String.length s <= k -> slice_end k s = EmptyString.
Proof.
  intros H. unfold slice_end. rewrite chars_length.
  replace (String.length s - k) with 0 by lia. reflexivity.
Qed.

Lemma slice_last_length (s : string) : String.length (slice_last s) <= 1.
Proof.
  unfold slice_last. rewrite <- chars_length, chars_of_chars, length_skipn.
  lia.
Qed.

Lemma appendRaw_pushScalar sep b this :
  appendRaw sep (pushScalar b this)
  = mkStmt (sql this ++ [sep]) (values this ++ [b]).
Proof.
  unfold appendRaw, setLast, pushScalar. cbn [sql values].
  now rewrite modifyLast_snoc.
Qed.

Lemma append_of_basic b this :
  append (of_basic b) this = ret (pushScalar b this).
Proof. destruct b; reflexivity. Qed.

Lemma setLast_repeat f l sep n vs :
  setLast f (mkStmt (l ++ repeat sep (S n)) vs)
  = mkStmt (l ++ repeat sep n ++ [f sep]) vs.
Proof.
  unfold setLast. cbn [sql values repeat].
  now rewrite repeat_cons, app_assoc, modifyLast_snoc, <- app_assoc.
Qed.

Lemma appendEach_scalars sep bs :
  forall this,
    appendEach append sep (map of_basic bs) this
    = ret (mkStmt (sql this ++ repeat sep (List.length bs)) (values this ++ bs)).
Proof.
  induction bs as [|b bs IH]; intros [fs vs]; cbn [map appendEach].
  - cbn [List.length repeat sql values]. now rewrite !app_nil_r.
  - rewrite append_of_basic. cbn [andThen ret].
    rewrite appendRaw_pushScalar, IH. cbn [sql values List.length repeat].
    now rewrite <- !app_assoc.
Qed.

Lemma appendKeys_shape (props : list (string * SQLValue)) :
  forall this,
    appendKeys props this
    = mkStmt (sql this ++ repeat (dq ++ ", " ++ dq)%string (List.length props))
             (values this ++ map (fun kv => BString (fst kv)) props).
Proof.
  induction props as [|[col v] props IH]; intros [fs vs]; cbn [appendKeys].
  - cbn [List.length repeat map sql values]. now rewrite !app_nil_r.
  - rewrite appendRaw_pushScalar, IH. cbn [sql values List.length repeat map fst].
    now rewrite <- !app_assoc.
Qed.

Lemma appendFields_scalars (fields : list (string * BasicSQLValue)) :
  forall this,
    appendFields append (map (fun kv => (fst kv, of_basic (snd kv))) fields) this
    = ret (mkStmt (sql this ++ repeat ", " (List.length fields))
                  (values this ++ map snd fields)).
Proof.
  induction fields as [|[col b] fields IH]; intros [fs vs];
    cbn [map appendFields fst snd].
  - cbn [List.length repeat sql values]. now rewrite !app_nil_r.
  - rewrite append_of_basic. cbn [andThen ret].
    rewrite appendRaw_pushScalar, IH. cbn [sql values List.length repeat map snd].
    now rewrite <- !app_assoc.
Qed.

Lemma appendAssignments_scalars (fields : list (string * BasicSQLValue)) :
  forall this,
    appendAssignments append
      (map (fun kv => (fst kv, of_basic (snd kv))) fields) this
    = ret (mkStmt
             (sql this
                ++ List.concat (repeat [(dq ++ " = ")%string; (", " ++ dq)%string]
                                  (List.length fields)))
             (values this
                ++ flat_map (fun kv => [BString (fst kv); snd kv]) fields)).
Proof.
  induction fields as [|[col b] fields IH]; intros [fs vs];
    cbn [map appendAssignments fst snd].
  - cbn [List.length repeat List.concat flat_map sql values]. now rewrite !app_nil_r.
  - rewrite appendRaw_pushScalar, append_of_basic. cbn [andThen ret].
    rewrite appendRaw_pushScalar, IH.
    cbn [sql values List.length repeat List.concat flat_map fst snd app].
    now rewrite <- !app_assoc.
Qed.

Lemma construct_loop_undefined rest :
  forall vals i x vs,
    (forall v, In v vals -> v = VUndefined) ->
    construct_loop rest vals i (mkStmt [x] vs)
    = (mkStmt [(x ++ fold_right String.append EmptyString rest)%string] vs, Done).
Proof.
  induction rest as [|s rest IH]; intros vals i x vs Hvals; cbn [construct_loop].
  - cbn [fold_right]. now rewrite string_app_nil_r.
  - assert (Hnth : nth i vals VUndefined = VUndefined).
    { destruct (Nat.lt_ge_cases i (List.length vals)) as [Hi|Hi].
      - apply Hvals. now apply nth_In.
      - now apply nth_overflow. }
    rewrite Hnth. cbn [append andThen ret].
    change (appendRaw s (mkStmt [x] vs)) with (mkStmt [(x ++ s)%string] vs).
    rewrite IH by assumption. cbn [fold_right].
    now rewrite string_app_assoc.
Qed.

End Shapes.

(** X2.  Appending a non-empty array of scalars adds each scalar as a
    parameter, in order, with one new fragment per scalar: the separator
    between neighbours and the empty text after the last.  The separator
    is quote-comma-space-quote when the last fragment [F] ends with a
    backtick or a double quote (the identifier list), and comma-space
    otherwise; an empty [F] takes the identifier branch of the code with an
    empty quote, which gives comma-space as well. *)
Theorem scalar_array_append :
  forall (this : SQLStatement) (F : string) (bs : list BasicSQLValue),
    lastFragment this = Some F ->
    bs <> [] ->
    append (VArray (map of_basic bs)) this
    = (mkStmt (sql this
                 ++ repeat (if includes (slice_last F) (dq ++ "`")
                            then slice_last F ++ ", " ++ slice_last F
                            else ", ")%string
                           (List.length bs - 1)
                 ++ [EmptyString])
              (values this ++ bs), Done).
Proof.
  intros this F [|b bs] Hlast Hne; [congruence|].
  cbn [append map]. rewrite Hlast.
  replace (isSQL (of_basic b)) with (@Returns bool false) by (now destruct b).
  change (of_basic b :: map of_basic bs) with (map of_basic (b :: bs)).
  destruct (includes (slice_last F) (dq ++ "`")%string);
    rewrite appendEach_scalars; cbn [andThen ret List.length];
    rewrite setLast_repeat; cbn [Nat.sub]; rewrite Nat.sub_0_r.
  - rewrite slice_end_short; [reflexivity|].
    rewrite !string_app_length.
    pose proof (slice_last_length F). simpl. lia.
  - reflexivity.
Qed.

Lemma scalar_array_append_witness :
  append (VArray [VNumber 1; VNull; VString "c"]) (mkStmt ["id IN ("] [])
  = (mkStmt ["id IN ("; ", "; ", "; EmptyString]
            [BNumber 1; BNull; BString "c"], Done)
  /\ append (VArray [VString "a"; VString "b"]) (mkStmt ["SELECT `"] [])
     = (mkStmt ["SELECT `"; "`, `"; EmptyString] [BString "a"; BString "b"], Done).
Proof.
  split.
  - exact (@scalar_array_append (mkStmt ["id IN ("] []) "id IN ("
             [BNumber 1; BNull; BString "c"] eq_refl ltac:(discriminate)).
  - exact (@scalar_array_append (mkStmt ["SELECT `"] []) "SELECT `"
             [BString "a"; BString "b"] eq_refl ltac:(discriminate)).
Defined.

Lemma append_row_isSQL_throws (fields : list (string * BasicSQLValue)) this :
  isSQL (rowOf fields) <> Returns false ->
  append (rowOf fields) this = (this, Thrown TypeError).
Proof.
  intros H. destruct (isSQL_rowOf fields) as [E|E]; [congruence|].
  unfold rowOf in *. eapply append_object_isSQL_throws; eauto.
Qed.

Lemma append_row_in_parentheses :
  forall (this : SQLStatement) (F : string)
         (fields : list (string * BasicSQLValue)),
    lastFragment this = Some F ->
    endsWith "(" F = true ->
    fields <> [] ->
    isSQL (rowOf fields) = Returns false ->
    append (rowOf fields) this
    = (mkStmt (removelast (sql this)
                 ++ [(F ++ dq)%string]
                 ++ repeat (dq ++ ", " ++ dq)%string (List.length fields - 1)
                 ++ [(dq ++ ") VALUES (")%string]
                 ++ repeat ", " (List.length fields - 1)
                 ++ [EmptyString])
              (values this
                 ++ map (fun kv => BString (fst kv)) fields
                 ++ map snd fields), Done).
Proof.
  intros this F fields Hlast Hpar Hne Hrow.
  destruct (lastFragment_Some _ Hlast) as [l Hsql].
  destruct fields as [|f0 fields]; [congruence|].
  unfold rowOf in *. cbn [append]. rewrite Hrow, Hlast, Hpar.
  rewrite appendKeys_shape. unfold appendRaw at 1.
  rewrite setLast_on_last with (1 := Hsql). cbn [sql values].
  rewrite length_map. cbn [List.length].
  rewrite setLast_repeat.
  rewrite appendFields_scalars. cbn [andThen ret sql values List.length].
  rewrite setLast_repeat. cbn [Nat.sub]. rewrite Nat.sub_0_r.
  rewrite map_map. cbn [fst].
  rewrite <- !app_assoc. reflexivity.
Qed.

(** X3.  Behind an opening parenthesis, appending a row of [n >= 1] scalar
    fields adds the column names and then the values as parameters
    ([2n] in all), and the fragments of the column list and of the value
    list: a quote is added to the last fragment, the names are separated by
    quote-comma-space-quote, the [VALUES] literal follows the last name,
    the values are separated by comma-space, and the last fragment is
    empty.  That is so whenever [isSQL] answers [false] on the row; on the
    other rows, those with a column named [constructor] whose value is
    [null], [isSQL] throws and [append] throws its [TypeError], leaving the
    statement as it was. *)
Theorem object_in_parentheses :
  forall (this : SQLStatement) (F : string)
         (fields : list (string * BasicSQLValue)),
    lastFragment this = Some F ->
    endsWith "(" F = true ->
    fields <> [] ->
    (isSQL (rowOf fields) = Returns false ->
     append (rowOf fields) this
     = (mkStmt (removelast (sql this)
                  ++ [(F ++ dq)%string]
                  ++ repeat (dq ++ ", " ++ dq)%string (List.length fields - 1)
                  ++ [(dq ++ ") VALUES (")%string]
                  ++ repeat ", " (List.length fields - 1)
                  ++ [EmptyString])
               (values this
                  ++ map (fun kv => BString (fst kv)) fields
                  ++ map snd fields), Done))
    /\ (isSQL (rowOf fields) <> Returns false ->
        append (rowOf fields) this = (this, Thrown TypeError)).
Proof.
  intros this F fields Hlast Hpar Hne. split.
  - now apply append_row_in_parentheses.
  - apply append_row_isSQL_throws.
Qed.

Lemma object_in_parentheses_witness :
  append (rowOf [("name", BString "x"); ("age", BNumber 5)])
         (mkStmt ["INSERT INTO t ("] [])
  = (mkStmt [("INSERT INTO t (" ++ dq)%string; (dq ++ ", " ++ dq)%string;
             (dq ++ ") VALUES (")%string; ", "; EmptyString]
            [BString "name"; BString "age"; BString "x"; BNumber 5], Done)
  /\ append (rowOf [("constructor", BNull)]) (mkStmt ["INSERT INTO t ("] [])
     = (mkStmt ["INSERT INTO t ("] [], Thrown TypeError).
Proof.
  split.
  - exact (proj1 (@object_in_parentheses (mkStmt ["INSERT INTO t ("] [])
                    "INSERT INTO t ("
                    [("name", BString "x"); ("age", BNumber 5)]
                    eq_refl eq_refl ltac:(discriminate))
                 eq_refl).
  - exact (proj2 (@object_in_parentheses (mkStmt ["INSERT INTO t ("] [])
                    "INSERT INTO t (" [("constructor", BNull)]
                    eq_refl eq_refl ltac:(discriminate))
                 ltac:(discriminate)).
Defined.

Lemma append_row_after_set :
  forall (this : SQLStatement) (F : string)
         (fields : list (string * BasicSQLValue)),
    lastFragment this = Some F ->
    endsWith " SET " (toUpperCase F) = true ->
    fields <> [] ->
    isSQL (rowOf fields) = Returns false ->
    append (rowOf fields) this
    = (mkStmt (removelast (sql this)
                 ++ [(F ++ dq)%string]
                 ++ List.concat (repeat [(dq ++ " = ")%string; (", " ++ dq)%string]
                                   (List.length fields - 1))
                 ++ [(dq ++ " = ")%string; EmptyString])
              (values this
                 ++ flat_map (fun kv => [BString (fst kv); snd kv]) fields),
       Done).
Proof.
  intros this F fields Hlast Hset Hne Hrow.
  pose proof (set_context_not_paren _ Hset) as Hpar.
  destruct (lastFragment_Some _ Hlast) as [l Hsql].
  destruct fields as [|f0 fields']; [congruence|].
  unfold rowOf in *. cbn [append]. rewrite Hrow, Hlast, Hpar, Hset.
  rewrite appendAssignments_scalars. unfold appendRaw.
  rewrite setLast_on_last with (1 := Hsql).
  cbn [andThen ret sql values List.length].
  assert (E : List.concat (repeat [(dq ++ " = ")%string; (", " ++ dq)%string]
                                  (S (List.length fields')))
              = (List.concat (repeat [(dq ++ " = ")%string; (", " ++ dq)%string]
                                     (List.length fields'))
                   ++ [(dq ++ " = ")%string]) ++ [(", " ++ dq)%string]).
  { cbn [repeat]. rewrite repeat_cons, concat_app. cbn [List.concat app].
    now rewrite <- app_assoc. }
  rewrite E. unfold setLast. cbn [sql values].
  rewrite !app_assoc, modifyLast_snoc. cbn [Nat.sub].
  rewrite Nat.sub_0_r, <- !app_assoc. reflexivity.
Qed.

(** X4.  Behind [SET] (in any letter case), appending a row of [n >= 1]
    scalar fields adds, for each field in order, its name and its value as
    two parameters, and the fragments of the assignment list: a quote is
    added to the last fragment, quote-space-equals-space stands between a
    name and its value, comma-space-quote between a value and the next
    name, and the last fragment is empty.  That is so whenever [isSQL]
    answers [false] on the row; on the other rows, those with a column
    named [constructor] whose value is [null], [isSQL] throws and [append]
    throws its [TypeError], leaving the statement as it was. *)
Theorem object_after_set :
  forall (this : SQLStatement) (F : string)
         (fields : list (string * BasicSQLValue)),
    lastFragment this = Some F ->
    endsWith " SET " (toUpperCase F) = true ->
    fields <> [] ->
    (isSQL (rowOf fields) = Returns false ->
     append (rowOf fields) this
     = (mkStmt (removelast (sql this)
                  ++ [(F ++ dq)%string]
                  ++ List.concat (repeat [(dq ++ " = ")%string; (", " ++ dq)%string]
                                    (List.length fields - 1))
                  ++ [(dq ++ " = ")%string; EmptyString])
               (values this
                  ++ flat_map (fun kv => [BString (fst kv); snd kv]) fields),
        Done))
    /\ (isSQL (rowOf fields) <> Returns false ->
        append (rowOf fields) this = (this, Thrown TypeError)).
Proof.
  intros this F fields Hlast Hset Hne. split.
  - now apply append_row_after_set.
  - apply append_row_isSQL_throws.
Qed.

Lemma object_after_set_witness :
  append (rowOf [("a", BNumber 1); ("b", BNull)]) (mkStmt ["UPDATE t set "] [])
  = (mkStmt [("UPDATE t set " ++ dq)%string; (dq ++ " = ")%string;
             (", " ++ dq)%string; (dq ++ " = ")%string; EmptyString]
            [BString "a"; BNumber 1; BString "b"; BNull], Done)
  /\ append (rowOf [("a", BNumber 1); ("constructor", BNull)])
            (mkStmt ["UPDATE t set "] [])
     = (mkStmt ["UPDATE t set "] [], Thrown TypeError).
Proof.
  split.
  - exact (proj1 (@object_after_set (mkStmt ["UPDATE t set "] []) "UPDATE t set "
                    [("a", BNumber 1); ("b", BNull)]
                    eq_refl eq_refl ltac:(discriminate))
                 eq_refl).
  - exact (proj2 (@object_after_set (mkStmt ["UPDATE t set "] []) "UPDATE t set "
                    [("a", BNumber 1); ("constructor", BNull)]
                    eq_refl eq_refl ltac:(discriminate))
                 ltac:(discriminate)).
Defined.

(** X5.  Interpolations that are [undefined] or missing vanish: a template
    all of whose values are [undefined] (or that has fewer values than
    slots, or none) builds a statement with a single fragment, the
    concatenation of its literal segments, and no parameter. *)
Theorem undefined_values_vanish :
  forall (s0 : string) (rest : list string) (vals : list SQLValue),
    (forall v, In v vals -> v = VUndefined) ->
    SQLStatement_new (s0 :: rest) vals
    = (mkStmt [(s0 ++ fold_right String.append EmptyString rest)%string] [], Done).
Proof.
  intros s0 rest vals H. unfold SQLStatement_new.
  now apply construct_loop_undefined.
Qed.

Lemma undefined_values_vanish_witness :
  SQLStatement_new ["DELETE FROM t "; " "; "LIMIT 1"] [VUndefined]
  = (mkStmt ["DELETE FROM t  LIMIT 1"] [], Done).
Proof.
  apply (@undefined_values_vanish "DELETE FROM t " [" "; "LIMIT 1"] [VUndefined]).
  intros v [<-|[]]. reflexivity.
Defined.

(* ------------------------------------------------------------------ *)
(** ** Further properties of the resolvers *)

Section Escaping.

Lemma string_app_inv_tail (a b c : string) :
  (a ++ c)%string = (b ++ c)%string -> a = b.
Proof.
  intros H. apply (f_equal chars) in H. rewrite !chars_app in H.
  apply app_inv_tail in H.
  rewrite <- (of_chars_chars a), <- (of_chars_chars b). now rewrite H.
Qed.

Lemma replace_all_doubling_inj (c : ascii) (s1 s2 : string) :
  replace_all c (String c (String c EmptyString)) s1
  = replace_all c (String c (String c EmptyString)) s2 ->
  s1 = s2.
Proof.
  revert s2. induction s1 as [|a s1 IH]; intros [|b s2]; cbn [replace_all].
  - reflexivity.
  - destruct (Ascii.eqb b c); discriminate.
  - destruct (Ascii.eqb a c); discriminate.
  - destruct (Ascii.eqb a c) eqn:Ea; destruct (Ascii.eqb b c) eqn:Eb;
      cbn [String.append]; intros H.
    + apply Ascii.eqb_eq in Ea, Eb. injection H as H. subst.
      f_equal. now apply IH.
    + apply Ascii.eqb_neq in Eb. injection H as H _. congruence.
    + apply Ascii.eqb_neq in Ea. injection H as H _. congruence.
    + injection H as -> H. f_equal. now apply IH.
Qed.

Lemma replace_all_absent (c : ascii) (by_ s : string) :
  ~ In c (chars s) -> replace_all c by_ s = s.
Proof.
  induction s as [|a s IH]; cbn [replace_all chars list_ascii_of_string];
    intros H; [reflexivity|].
  destruct (Ascii.eqb a c) eqn:E.
  - apply Ascii.eqb_eq in E. subst. exfalso. apply H. now left.
  - cbn [String.append]. f_equal. apply IH. intros Hin. apply H. now right.
Qed.

End Escaping.

(** X6.  Identifier escaping loses nothing: in either dialect two
    different identifiers have different escaped texts; and an identifier
    that does not contain the dialect's quote glyph is only wrapped in a
    pair of them. *)
Theorem escapeId_injective :
  forall (t : DatabaseType) (id1 id2 : string),
    (escapeId t id1 = escapeId t id2 -> id1 = id2)
    /\ (~ In (match t with MySQL => backtick | PG => dquote end) (chars id1) ->
        escapeId t id1
        = (match t with MySQL => "`" | PG => dq end
             ++ id1 ++ match t with MySQL => "`" | PG => dq end)%string).
Proof.
  intros t id1 id2. split.
  - destruct t; unfold escapeId, mysql.escapeId, pg.escapeIdentifier;
      cbn [String.append dq]; intros H; injection H as H;
      apply string_app_inv_tail in H; now apply replace_all_doubling_inj in H.
  - intros H.
    destruct t; unfold escapeId, mysql.escapeId, pg.escapeIdentifier;
      now rewrite replace_all_absent.
Qed.

Lemma escapeId_injective_witness :
  escapeId MySQL "user_id" = "`user_id`"
  /\ (escapeId PG "a" = escapeId PG "a" -> "a" = "a").
Proof.
  split.
  - apply (proj2 (@escapeId_injective MySQL "user_id" "user_id")).
    cbv. intuition discriminate.
  - exact (proj1 (@escapeId_injective PG "a" "a")).
Defined.

Section ResolverLoop.

Lemma resolve_iter_count t query :
  forall n st,
    resolve_iter t query n = Some st ->
    r_paramCount st
    = match t with MySQL => 0 | PG => List.length (r_values st) end.
Proof.
  induction n as [|n IH]; intros st H; cbn [resolve_iter] in H.
  - destruct (sql query); [discriminate|]. injection H as <-. now destruct t.
  - destruct (resolve_iter t query n) as [st0|]; [|discriminate].
    specialize (IH st0 eq_refl). unfold resolve_step in H.
    destruct (nth_error (values query) n); [|discriminate].
    destruct (nth_error (sql query) (n + 1)); [|discriminate].
    destruct (startsWithQuote s); injection H as <-.
    + exact IH.
    + destruct t; cbn [bindParameter r_paramCount r_values]; [exact IH|].
      rewrite length_app, IH. simpl. lia.
Qed.

Lemma resolve_iter_None_mono t query n :
  resolve_iter t query n = None ->
  forall m, n <= m -> resolve_iter t query m = None.
Proof.
  intros H m Hm. induction Hm as [|m Hm IH]; [assumption|].
  cbn [resolve_iter]. now rewrite IH.
Qed.

Lemma resolve_iter_Some t query :
  forall n,
    n <= List.length (values query) -> n < List.length (sql query) ->
    exists st, resolve_iter t query n = Some st.
Proof.
  induction n as [|n IH]; intros Hv Hs; cbn [resolve_iter].
  - destruct (sql query); [simpl in Hs; lia|eauto].
  - destruct IH as [st Hst]; [lia|lia|]. rewrite Hst. unfold resolve_step.
    destruct (@nth_error_in_range _ (values query) n) as [v ->]; [lia|].
    destruct (@nth_error_in_range _ (sql query) (n + 1)) as [f ->]; [lia|].
    destruct (startsWithQuote f); eauto.
Qed.

(** The loop as a fold over the pairs of a value and its following
    fragment. *)
Lemma resolve_iter_pairs t s0 fs vs :
  List.length fs = List.length vs ->
  forall n, n <= List.length vs ->
    resolve_iter t (mkStmt (s0 :: fs) vs) n
    = Some (resolve_pairs t (firstn n (combine vs fs)) (mkResolve s0 [] 0)).
Proof.
  intros Hlen. induction n as [|n IH]; intros Hn; [reflexivity|].
  cbn [resolve_iter]. rewrite IH by lia. unfold resolve_step. cbn [sql values].
  destruct (@nth_error_in_range _ vs n) as [v Hv]; [lia|].
  destruct (@nth_error_in_range _ fs n) as [f Hf]; [lia|].
  rewrite Hv, Nat.add_1_r. cbn [nth_error]. rewrite Hf.
  rewrite (firstn_succ_nth_error _ _ (nth_error_combine _ _ _ Hv Hf)).
  unfold resolve_pairs. rewrite fold_left_app. cbn [fold_left fst snd].
  now destruct (startsWithQuote f).
Qed.

Lemma resolve_by_pairs t s0 fs vs :
  List.length fs = List.length vs ->
  _resolveSQL t (mkStmt (s0 :: fs) vs)
  = Returns (r_sql (resolve_pairs t (combine vs fs) (mkResolve s0 [] 0)),
             r_values (resolve_pairs t (combine vs fs) (mkResolve s0 [] 0))).
Proof.
  intros Hlen. unfold _resolveSQL. cbn [values].
  rewrite (@resolve_iter_pairs t s0 fs vs Hlen) by lia.
  rewrite firstn_all2; [reflexivity|]. rewrite length_combine. lia.
Qed.

Lemma combine_snoc (A B : Type) (l : list A) (m : list B) (x : A) (y : B) :
  List.length l = List.length m ->
  combine (l ++ [x]) (m ++ [y]) = combine l m ++ [(x, y)].
Proof.
  revert m. induction l as [|a l IH]; intros [|b m] H; simpl in H;
    try discriminate; [reflexivity|].
  simpl. f_equal. apply IH. lia.
Qed.

Lemma resolve_pairs_app t l m st :
  resolve_pairs t (l ++ m) st = resolve_pairs t m (resolve_pairs t l st).
Proof. unfold resolve_pairs. apply fold_left_app. Qed.

Lemma slice_from_1_cons (c : ascii) (x : string) :
  slice_from 1 (String c x) = x.
Proof. unfold slice_from. cbn [chars list_ascii_of_string skipn]. apply of_chars_chars. Qed.

Lemma startsWithQuote_app (f s : string) :
  startsWithQuote s = false ->
  startsWithQuote (f ++ s) = startsWithQuote f.
Proof.
  intros Hs. destruct f as [|c f]; cbn [String.append].
  - rewrite Hs. reflexivity.
  - unfold startsWithQuote, startsWith, dq. cbn [String.prefix].
    assert (Hnil : forall x, String.prefix EmptyString x = true)
      by (now intros [|]).
    destruct (ascii_dec "`" c), (ascii_dec dquote c); now rewrite ?Hnil.
Qed.

End ResolverLoop.

(** X7.  The Postgres resolver numbers its markers by the position of the
    parameter in the returned list: its counter always equals the number
    of parameters bound so far, so the round that binds a value writes
    the marker with the 1-based index at which that value is returned. *)
Theorem pg_marker_is_parameter_position :
  forall (query : SQLStatement) (i : nat) (st : ResolveState)
         (value : BasicSQLValue) (next : string),
    resolve_iter PG query i = Some st ->
    nth_error (values query) i = Some value ->
    nth_error (sql query) (S i) = Some next ->
    startsWithQuote next = false ->
    r_paramCount st = List.length (r_values st)
    /\ resolve_iter PG query (S i)
       = Some (mkResolve
                 (r_sql st ++ "$" ++ of_nat (S (List.length (r_values st))) ++ next)%string
                 (r_values st ++ [value])
                 (S (List.length (r_values st)))).
Proof.
  intros query i st value next Hst Hv Hf Hq.
  pose proof (resolve_iter_count PG query i Hst) as Hc. cbn in Hc.
  split; [exact Hc|].
  cbn [resolve_iter]. rewrite Hst. unfold resolve_step.
  rewrite Hv, Nat.add_1_r, Hf, Hq. cbn [bindParameter]. now rewrite Hc.
Qed.

Lemma pg_marker_is_parameter_position_witness :
  resolve_iter PG
    (mkStmt [("SELECT " ++ dq)%string; (dq ++ " FROM t WHERE a = ")%string;
             " AND b = "; EmptyString]
            [BString "c"; BNumber 1; BNumber 2]) 3
  = Some (mkResolve
            ("SELECT " ++ dq ++ "c" ++ dq ++ " FROM t WHERE a = $1 AND b = $2")%string
            [BNumber 1; BNumber 2] 2).
Proof.
  exact (proj2 (@pg_marker_is_parameter_position
                  (mkStmt [("SELECT " ++ dq)%string;
                           (dq ++ " FROM t WHERE a = ")%string;
                           " AND b = "; EmptyString]
                          [BString "c"; BNumber 1; BNumber 2])
                  2 _ (BNumber 2) EmptyString eq_refl eq_refl eq_refl eq_refl)).
Defined.

(** X8.  A resolver throws exactly when the statement has too few
    fragments: for a statement with at least one fragment, resolution
    throws (a [TypeError], and nothing else) if and only if there are no
    more fragments than values; fragments beyond the one after the last
    value never make it fail. *)
Theorem resolve_throws_iff_too_few_fragments :
  forall (t : DatabaseType) (query : SQLStatement),
    sql query <> [] ->
    (_resolveSQL t query = Throws TypeError
     <-> List.length (sql query) <= List.length (values query))
    /\ (forall e, _resolveSQL t query = Throws e -> e = TypeError).
Proof.
  intros t query Hne. split; [split|].
  - intros H.
    destruct (Nat.le_gt_cases (List.length (sql query)) (List.length (values query)))
      as [Hle|Hgt]; [assumption|exfalso].
    destruct (@resolve_iter_Some t query (List.length (values query)) (le_n _) Hgt)
      as [st Hst].
    unfold _resolveSQL in H. rewrite Hst in H. discriminate.
  - intros Hle. unfold _resolveSQL.
    assert (Hpos : 0 < List.length (sql query))
      by (destruct (sql query); [congruence|simpl; lia]).
    assert (Hnone : resolve_iter t query (List.length (sql query)) = None).
    { replace (List.length (sql query)) with (S (List.length (sql query) - 1)) at 1
        by lia.
      cbn [resolve_iter].
      destruct (resolve_iter t query (List.length (sql query) - 1)); [|reflexivity].
      unfold resolve_step.
      destruct (nth_error (values query) (List.length (sql query) - 1));
        [|reflexivity].
      replace (List.length (sql query) - 1 + 1) with (List.length (sql query))
        by lia.
      now rewrite (proj2 (nth_error_None _ _) (le_n _)). }
    now rewrite (@resolve_iter_None_mono t query _ Hnone _ Hle).
  - intros e. unfold _resolveSQL.
    destruct (resolve_iter _ _ _); [discriminate|]. now intros [= <-].
Qed.

Lemma resolve_throws_iff_too_few_fragments_witness :
  _resolveSQL MySQL (mkStmt ["a = "] [BNumber 1]) = Throws TypeError.
Proof.
  apply (proj1 (@resolve_throws_iff_too_few_fragments MySQL
                  (mkStmt ["a = "] [BNumber 1]) ltac:(discriminate))).
  simpl. lia.
Defined.

Lemma resolve_appendRaw :
  forall (t : DatabaseType) (this : SQLStatement) (s : string),
    invariant this ->
    startsWithQuote s = false ->
    exists text ps,
      _resolveSQL t this = Returns (text, ps)
      /\ _resolveSQL t (appendRaw s this) = Returns ((text ++ s)%string, ps).
Proof.
  intros t [[|f0 fs] vs] s Hinv Hs; unfold invariant in Hinv;
    cbn [sql values List.length] in Hinv; [discriminate|].
  injection Hinv as Hlen.
  destruct (list_eq_dec string_dec fs []) as [->|Hfs].
  - destruct vs; [|discriminate]. do 2 eexists. split; reflexivity.
  - destruct (snoc_of_nonempty Hfs) as (fs' & fl & ->).
    assert (Hvs : vs <> []) by (intros ->; rewrite length_app in Hlen; simpl in Hlen; lia).
    destruct (snoc_of_nonempty Hvs) as (vs' & vl & ->).
    rewrite !length_app in Hlen. cbn [List.length] in Hlen.
    assert (Hlen' : List.length vs' = List.length fs') by lia.
    assert (Hraw : appendRaw s (mkStmt (f0 :: fs' ++ [fl]) (vs' ++ [vl]))
                   = mkStmt (f0 :: fs' ++ [(fl ++ s)%string]) (vs' ++ [vl])).
    { unfold appendRaw, setLast. cbn [sql values].
      change (f0 :: fs' ++ [fl]) with ((f0 :: fs') ++ [fl]).
      now rewrite modifyLast_snoc. }
    rewrite Hraw.
    rewrite !resolve_by_pairs by (rewrite !length_app; simpl; lia).
    rewrite !combine_snoc by assumption.
    rewrite !resolve_pairs_app.
    generalize (resolve_pairs t (combine vs' fs') (mkResolve f0 [] 0)).
    intros st. unfold resolve_pairs. cbn [fold_left fst snd].
    rewrite (@startsWithQuote_app fl s Hs).
    destruct (startsWithQuote fl) eqn:Hq.
    + destruct fl as [|c fl]; [discriminate|].
      cbn [String.append spliceIdentifier r_sql r_values].
      rewrite !slice_from_1_cons. do 2 eexists. split; [reflexivity|].
      now rewrite !string_app_assoc.
    + destruct t; cbn [bindParameter r_sql r_values]; do 2 eexists;
        (split; [reflexivity|]); now rewrite !string_app_assoc.
Qed.

(** X9.  Raw text appended to a statement is appended to its resolved
    text: for a statement that satisfies the invariant and a text that
    does not start with a backtick or a double quote, resolving after
    [appendRaw] gives the text resolved before followed by the raw text,
    with the same parameters, in both dialects. *)
Theorem appendRaw_resolves_to_suffix :
  forall (t : DatabaseType) (this : SQLStatement) (s : string),
    invariant this ->
    startsWithQuote s = false ->
    exists text ps,
      _resolveSQL t this = Returns (text, ps)
      /\ _resolveSQL t (appendRaw s this) = Returns ((text ++ s)%string, ps).
Proof. exact resolve_appendRaw. Qed.

Lemma appendRaw_resolves_to_suffix_witness :
  exists text ps,
    _resolveSQL PG (mkStmt ["a = "; EmptyString] [BNumber 1]) = Returns (text, ps)
    /\ _resolveSQL PG (appendRaw " LIMIT 1" (mkStmt ["a = "; EmptyString] [BNumber 1]))
       = Returns ((text ++ " LIMIT 1")%string, ps).
Proof.
  exact (@appendRaw_resolves_to_suffix PG
           (mkStmt ["a = "; EmptyString] [BNumber 1]) " LIMIT 1"
           eq_refl eq_refl).
Defined.

(* ------------------------------------------------------------------ *)
(** ** Further properties of the connections and of the table helper *)

Section RoundTrips.
Variable PoolState : Type.

Ltac one_round_trip :=
  unfold oneRoundTrip; cbn [fst snd connectedDatabases sent];
  repeat split; eauto; intros; discriminate.

Lemma oneRoundTrip_mysql__query (p : mysql_Pool PoolState) text vals w :
  oneRoundTrip w (mysql__query p text vals w).
Proof.
  unfold mysql__query. destruct (mysql_query p) as [q|]; [|one_round_trip].
  destruct (q text vals (resource w)) as [s [err|res]]; one_round_trip.
Qed.

Lemma oneRoundTrip_pg_call (p : option (pg_Pool PoolState)) text vals project w :
  oneRoundTrip w (pg_call p text vals project w).
Proof.
  unfold pg_call. destruct p as [p|].
  - destruct (pg_query p text vals (resource w)) as [s [err|res]]; one_round_trip.
  - unfold oneRoundTrip; cbn [fst snd]; auto.
Qed.

Lemma oneRoundTrip_queryExec (d : Database PoolState) stmt w :
  oneRoundTrip w (queryExec d stmt w).
Proof.
  unfold queryExec. destruct (_resolveSQL (db_type d) stmt) as [[text vals]|e].
  - destruct d; apply oneRoundTrip_mysql__query || apply oneRoundTrip_pg_call.
  - unfold oneRoundTrip; cbn [fst snd]; auto.
Qed.

Lemma oneRoundTrip_query (d : Database PoolState) stmt w :
  oneRoundTrip w (query d stmt w).
Proof.
  unfold query. destruct (_resolveSQL (db_type d) stmt) as [[text vals]|e].
  - destruct d; apply oneRoundTrip_mysql__query || apply oneRoundTrip_pg_call.
  - unfold oneRoundTrip; cbn [fst snd]; auto.
Qed.

Lemma oneRoundTrip_queryOne (d : Database PoolState) stmt w :
  oneRoundTrip w (queryOne d stmt w).
Proof.
  pose proof (oneRoundTrip_query d stmt w) as H. unfold queryOne.
  destruct (query d stmt w) as [w1 [[r|e]|e]]; try exact H.
  destruct H as (H1 & H2 & H3). unfold oneRoundTrip. cbn [fst snd] in *.
  repeat split; auto. intros; discriminate.
Qed.

Lemma oneRoundTrip_tagged run (d : Database PoolState) strings rest w :
  (forall d stmt w, oneRoundTrip w (run d stmt w)) ->
  oneRoundTrip w (tagged run d strings rest w).
Proof.
  intros Hrun. unfold tagged.
  destruct (SQLStatement_new strings rest) as [stmt [|e]]; [apply Hrun|].
  unfold oneRoundTrip; cbn [fst snd]; auto.
Qed.

Lemma oneRoundTrip_with_clause run (t : DatabaseTable PoolState) outer
    strings rest w :
  (forall d stmt w, oneRoundTrip w (run d stmt w)) ->
  oneRoundTrip w (with_clause run t outer strings rest w).
Proof.
  intros Hrun. unfold with_clause.
  destruct (SQLStatement_new strings rest) as [stmt [|e]].
  - destruct (outer (of_statement stmt)). now apply oneRoundTrip_tagged.
  - unfold oneRoundTrip; cbn [fst snd]; auto.
Qed.

Lemma oneRoundTrip_thrown (w : World PoolState) (e : JSError) :
  oneRoundTrip w (w, @Throws Promise e).
Proof. unfold oneRoundTrip; cbn [fst snd]; auto. Qed.

End RoundTrips.

(** X10.  No method of the table helper does more than one round trip:
    whatever the arguments, the tracking list is untouched, at most one
    statement is handed to a pool, and when the call throws (a composition
    error, a configuration error, a [TypeError]) the process state is
    exactly as before, so nothing was sent. *)
Theorem table_methods_one_round_trip :
  forall (PoolState : Type) (t : DatabaseTable PoolState)
         (row update_ : SQLValue) (upd : option SQLValue)
         (where_ : option SQLStatement) (entries : Entries)
         (primaryKey : BasicSQLValue)
         (strings : list string) (rest : list SQLValue) (w : World PoolState),
    oneRoundTrip w (selectAll t entries strings rest w)
    /\ oneRoundTrip w (selectOne t entries strings rest w)
    /\ oneRoundTrip w (updateAll t row strings rest w)
    /\ oneRoundTrip w (updateOne t row strings rest w)
    /\ oneRoundTrip w (deleteAll t strings rest w)
    /\ oneRoundTrip w (deleteOne t strings rest w)
    /\ oneRoundTrip w (insert t row where_ w)
    /\ oneRoundTrip w (insertIgnore t row where_ w)
    /\ oneRoundTrip w (upsert t row upd where_ w)
    /\ oneRoundTrip w (replace t row where_ w)
    /\ oneRoundTrip w (get t primaryKey entries w)
    /\ oneRoundTrip w (delete t primaryKey w)
    /\ oneRoundTrip w (update t primaryKey update_ w).
Proof.
  intros.
  pose proof (@oneRoundTrip_query PoolState) as Hq.
  pose proof (@oneRoundTrip_queryOne PoolState) as Hq1.
  pose proof (@oneRoundTrip_queryExec PoolState) as Hqe.
  pose proof (@oneRoundTrip_thrown PoolState w) as Hth.
  assert (HselectOne : forall strings rest,
             oneRoundTrip w (selectOne t entries strings rest w)).
  { intros. unfold selectOne. destruct (entries_statement entries) as [ent [|e]];
      [now apply oneRoundTrip_with_clause|apply Hth]. }
  repeat match goal with |- _ /\ _ => split end.
  all: try (unfold selectAll; destruct (entries_statement entries) as [ent [|e]];
            [now apply oneRoundTrip_with_clause|apply Hth]).
  all: try apply HselectOne.
  all: try (unfold updateAll, updateOne, deleteAll, deleteOne;
            now apply oneRoundTrip_with_clause).
  all: try (unfold insert, insertIgnore; now apply oneRoundTrip_tagged).
  all: try (unfold upsert, replace; destruct (db_type (db t));
            try destruct (noPrimaryKey t);
            solve [now apply oneRoundTrip_tagged | apply Hth]).
  all: unfold get, delete, update; destruct (noPrimaryKey t); try apply Hth.
  - apply HselectOne.
  - unfold deleteAll. now apply oneRoundTrip_with_clause.
  - unfold updateAll. now apply oneRoundTrip_with_clause.
Qed.

Section Buffers.
Variable PoolState : Type.

Lemma noBuffers_unbuffer (rows : list Row) :
  noBuffers (map (map (fun kv => (fst kv, unbuffer (snd kv)))) rows).
Proof.
  unfold noBuffers. rewrite Forall_map. apply Forall_forall. intros row _.
  rewrite Forall_map. apply Forall_forall. intros [k c] _. cbn [fst snd].
  destruct c; simpl; eauto.
Qed.

Lemma convertedRows_unbuffer (rows : list Row) :
  convertedRows rows (map (map (fun kv => (fst kv, unbuffer (snd kv)))) rows).
Proof.
  unfold convertedRows.
  induction rows as [|row rows IH]; cbn [map]; constructor; [|exact IH].
  clear IH. induction row as [|[k c] row IH]; cbn [map]; constructor; [|exact IH].
  cbn [fst snd]. split; [reflexivity|]. now destruct c.
Qed.

(** What [MySQLDatabase._query] resolves with when it resolves with rows:
    no rows when the pool has no [query], and otherwise the rows of the
    pool's reply, converted. *)
Lemma mysql__query_rows (p : mysql_Pool PoolState) text vals
    (w w' : World PoolState) rows :
  mysql__query p text vals w = (w', Returns (Fulfilled (Rows rows))) ->
  noBuffers rows
  /\ match mysql_query p with
     | None => rows = []
     | Some q =>
         exists raw,
           snd (q text vals (resource w)) = inr (Rows raw)
           /\ convertedRows raw rows
     end.
Proof.
  unfold mysql__query. destruct (mysql_query p) as [q|].
  - destruct (q text vals (resource w)) as [s [err|res]]; [discriminate|].
    destruct res as [|raw| |]; cbn [unbuffer_result]; try discriminate.
    intros [= _ <-]. split; [apply noBuffers_unbuffer|].
    exists raw. split; [reflexivity|apply convertedRows_unbuffer].
  - intros [= _ <-]. split; [constructor|reflexivity].
Qed.

End Buffers.

(** X11.  A MySQL connection never hands back a [Buffer] in an array of
    rows: whenever [query] or [queryExec] is fulfilled with rows, every
    cell of every row is a value, and the rows are those of the pool's
    reply to the resolved text and parameters, with the same columns in
    the same order, every [Buffer] turned into the string of its text and
    every other cell as the pool gave it (no rows when the pool has no
    [query]). *)
Theorem mysql_results_have_no_buffers :
  forall (PoolState : Type) (p : mysql_Pool PoolState) (prefix : string)
         (stmt : SQLStatement) (w w' : World PoolState) (rows : list Row),
    query (MySQLDatabase p prefix) stmt w = (w', Returns (Fulfilled (Rows rows)))
    \/ queryExec (MySQLDatabase p prefix) stmt w
       = (w', Returns (Fulfilled (Rows rows))) ->
    Forall (Forall (fun kv => exists v, snd kv = CellValue v)) rows
    /\ exists text vals,
         _resolveSQL MySQL stmt = Returns (text, vals)
         /\ match mysql_query p with
            | None => rows = []
            | Some q =>
                exists raw,
                  snd (q text vals (resource w)) = inr (Rows raw)
                  /\ Forall2
                       (Forall2
                          (fun inp out =>
                             fst out = fst inp
                             /\ match snd inp with
                                | CellBuffer buffer_text =>
                                    snd out = CellValue (BString buffer_text)
                                | CellValue v => snd out = CellValue v
                                end))
                       raw rows
            end.
Proof.
  intros PoolState p prefix stmt w w' rows.
  unfold query, queryExec. cbn [db_type].
  destruct (_resolveSQL MySQL stmt) as [[text vals]|e].
  - cbn [_query _queryExec].
    intros [H|H]; apply mysql__query_rows in H as [Hno Hrows];
      (split; [exact Hno|exists text, vals; split; [reflexivity|exact Hrows]]).
  - intros [H|H]; discriminate.
Qed.

Lemma mysql_results_have_no_buffers_witness :
  Forall (Forall (fun kv : string * Cell => exists v, snd kv = CellValue v))
         [[("name", CellValue (BString "x")); ("n", CellValue (BNumber 1))]]
  /\ exists text vals,
       _resolveSQL MySQL (mkStmt ["SELECT name, n FROM t"] []) = Returns (text, vals)
       /\ exists raw,
            inr (Rows [[("name", CellBuffer "x"); ("n", CellValue (BNumber 1))]])
            = inr (A := DriverError) (Rows raw)
            /\ Forall2
                 (Forall2
                    (fun inp out : string * Cell =>
                       fst out = fst inp
                       /\ match snd inp with
                          | CellBuffer buffer_text =>
                              snd out = CellValue (BString buffer_text)
                          | CellValue v => snd out = CellValue v
                          end))
                 raw
                 [[("name", CellValue (BString "x")); ("n", CellValue (BNumber 1))]].
Proof.
  apply (@mysql_results_have_no_buffers unit
           (mkMysqlPool
              (Some (fun _ _ s =>
                       (s, inr (Rows [[("name", CellBuffer "x");
                                       ("n", CellValue (BNumber 1))]]))))
              None)
           EmptyString (mkStmt ["SELECT name, n FROM t"] [])
           empty_world
           (mkWorld [] tt [("SELECT name, n FROM t", [])])).
  left. reflexivity.
Defined.

Section Outcomes.
Variable PoolState : Type.

Lemma builderError_has_no_code e : builderError e -> err_code e = None.
Proof. intros [->|[lastf ->]]; reflexivity. Qed.

Lemma thrown_insert (t : DatabaseTable PoolState) row where_ w w' e :
  insert t row where_ w = (w', Throws e) -> builderError e /\ w' = w.
Proof.
  intros H. split.
  - unfold insert in H. eapply thrown_tagged; [apply thrown_queryExec|eauto].
  - pose proof (oneRoundTrip_tagged (@queryExec PoolState) (db t) insert_strings
                  (insert_values t row where_) w
                  (@oneRoundTrip_queryExec PoolState)) as (_ & _ & H3).
    fold (insert t row where_ w) in H3. rewrite H in H3. now apply (H3 e).
Qed.

Lemma resolve_throws_TypeError t query e :
  _resolveSQL t query = Throws e -> e = TypeError.
Proof.
  unfold _resolveSQL. destruct (resolve_iter _ _ _); [discriminate|].
  now intros [= <-].
Qed.

Lemma endsWith_app_long (p x s : string) :
  String.length p <= String.length s ->
  endsWith p (x ++ s) = endsWith p s.
Proof.
  intros H. unfold endsWith.
  rewrite string_app_length, chars_app, length_app, !chars_length.
  replace (String.length p <=? String.length x + String.length s)%nat with true
    by (symmetry; apply Nat.leb_le; lia).
  replace (String.length p <=? String.length s)%nat with true
    by (symmetry; now apply Nat.leb_le).
  rewrite skipn_app, chars_length.
  rewrite skipn_all2 by (rewrite chars_length; lia).
  replace (String.length x + String.length s - String.length p - String.length x)
    with (String.length s - String.length p) by lia.
  reflexivity.
Qed.

Lemma lastFragment_appendRaw s this F :
  lastFragment this = Some F ->
  lastFragment (appendRaw s this) = Some (F ++ s)%string.
Proof.
  intros H. destruct (lastFragment_Some _ H) as [l E].
  unfold appendRaw, setLast. destruct this as [fs vs]. cbn [sql values] in *.
  subst fs. rewrite modifyLast_snoc. apply lastFragment_snoc.
Qed.

Lemma lastFragment_after_append value this :
  sql this <> [] -> exists F, lastFragment (fst (append value this)) = Some F.
Proof.
  intros H. destruct (@extends_append value this this (@extends_refl this H))
    as (f & more & extra & Hs & _).
  unfold lastFragment. rewrite Hs.
  destruct (removelast (sql this) ++ f :: more) eqn:E; [|eauto].
  apply app_eq_nil in E as [_ E]. discriminate.
Qed.

End Outcomes.

(** X12.  [tryInsert] passes on what [insert] does, except for the code
    test: a fulfilled [insert] gives the same fulfilled result; an [insert]
    that throws while the statement is built or resolved leaves the
    process state as it was and makes [tryInsert] reject with that very
    error instead of throwing; and on a MySQL connection a rejected
    [insert] is always a rejected [tryInsert] with the same error. *)
Theorem tryInsert_outcomes :
  forall (PoolState : Type) (t : DatabaseTable PoolState) (row : SQLValue)
         (where_ : option SQLStatement) (w w' : World PoolState),
    (forall r, insert t row where_ w = (w', Returns (Fulfilled r)) ->
               tryInsert t row where_ w = (w', Fulfilled r))
    /\ (forall e, insert t row where_ w = (w', Throws e) ->
                  w' = w /\ tryInsert t row where_ w = (w, Rejected e))
    /\ (forall e, db_type (db t) = MySQL ->
                  insert t row where_ w = (w', Returns (Rejected e)) ->
                  tryInsert t row where_ w = (w', Rejected e)).
Proof.
  intros PoolState t row where_ w w'. repeat split.
  - intros r H. unfold tryInsert. now rewrite H.
  - now apply thrown_insert in H.
  - destruct (thrown_insert _ _ _ _ H) as [Hb ->].
    unfold tryInsert. rewrite H. now rewrite (builderError_has_no_code Hb).
  - intros e Hty H. unfold tryInsert. rewrite H.
    assert (Hcode : err_code e = None).
    { unfold insert, tagged in H.
      destruct (SQLStatement_new _ _) as [stmt [|e1]]; [|discriminate].
      unfold queryExec in H. rewrite Hty in H.
      destruct (_resolveSQL MySQL stmt) as [[text vals]|e1]; [|discriminate].
      destruct (db t) as [p pre|p pre]; [|discriminate].
      eapply mysql__query_rejects_without_code; eauto. }
    now rewrite Hcode.
Qed.

Lemma tryInsert_outcomes_witness :
  tryInsert (getTable (fst (MySQLDatabase_new None empty_world)) "users" None)
            (VObject [("a", VArray [VNumber 1; VObject []])]) None empty_world
  = (empty_world,
     Rejected (Error "Objects can only appear in (obj) or after SET; unrecognized: , [obj]"
                     None)).
Proof.
  apply (proj1 (proj2 (@tryInsert_outcomes unit
           (getTable (fst (MySQLDatabase_new None empty_world)) "users" None)
           (VObject [("a", VArray [VNumber 1; VObject []])]) None empty_world empty_world))).
  reflexivity.
Defined.

(** X13.  A Postgres connection constructed without a configuration has
    no pool: every [query], [queryOne] and [queryExec] on it throws a
    [TypeError], whatever the statement, and leaves the process state as it
    was; [close] does nothing. *)
Theorem pg_without_pool_throws :
  forall (PoolState : Type) (w0 w : World PoolState) (stmt : SQLStatement),
    query (fst (PGDatabase_new false w0)) stmt w = (w, Throws TypeError)
    /\ queryOne (fst (PGDatabase_new false w0)) stmt w = (w, Throws TypeError)
    /\ queryExec (fst (PGDatabase_new false w0)) stmt w = (w, Throws TypeError)
    /\ close (fst (PGDatabase_new false w0)) w = w.
Proof.
  intros PoolState w0 w stmt.
  assert (Hq : query (fst (PGDatabase_new false w0)) stmt w = (w, Throws TypeError)).
  { unfold query. cbn [PGDatabase_new Database_new fst db_type _query pg_call].
    destruct (_resolveSQL PG stmt) as [[text vals]|e] eqn:E; [reflexivity|].
    now rewrite (resolve_throws_TypeError _ _ E). }
  repeat split.
  - exact Hq.
  - unfold queryOne. now rewrite Hq.
  - unfold queryExec. cbn [PGDatabase_new Database_new fst db_type _queryExec pg_call].
    destruct (_resolveSQL PG stmt) as [[text vals]|e] eqn:E; [reflexivity|].
    now rewrite (resolve_throws_TypeError _ _ E).
Qed.

(** X14.  On the connections the two constructors build, every query of a
    statement that satisfies the invariant succeeds with an empty result:
    exactly the resolved text and parameters are handed to the stub pool,
    nothing else of the process state changes, [query] is fulfilled with
    no rows, [queryOne] with [undefined], and [queryExec] with no rows
    (MySQL) or with zero affected rows (Postgres). *)
Theorem stub_pools_give_empty_results :
  forall (PoolState : Type) (config_prefix : option string)
         (w0 w : World PoolState) (stmt : SQLStatement),
    invariant stmt ->
    (exists text ps,
        _resolveSQL MySQL stmt = Returns (text, ps)
        /\ query (fst (MySQLDatabase_new config_prefix w0)) stmt w
           = (mkWorld (connectedDatabases w) (resource w) (sent w ++ [(text, ps)]),
              Returns (Fulfilled (Rows [])))
        /\ queryOne (fst (MySQLDatabase_new config_prefix w0)) stmt w
           = (mkWorld (connectedDatabases w) (resource w) (sent w ++ [(text, ps)]),
              Returns (Fulfilled Undefined))
        /\ queryExec (fst (MySQLDatabase_new config_prefix w0)) stmt w
           = (mkWorld (connectedDatabases w) (resource w) (sent w ++ [(text, ps)]),
              Returns (Fulfilled (Rows []))))
    /\ (exists text ps,
          _resolveSQL PG stmt = Returns (text, ps)
          /\ query (fst (PGDatabase_new true w0)) stmt w
             = (mkWorld (connectedDatabases w) (resource w) (sent w ++ [(text, ps)]),
                Returns (Fulfilled (Rows [])))
          /\ queryOne (fst (PGDatabase_new true w0)) stmt w
             = (mkWorld (connectedDatabases w) (resource w) (sent w ++ [(text, ps)]),
                Returns (Fulfilled Undefined))
          /\ queryExec (fst (PGDatabase_new true w0)) stmt w
             = (mkWorld (connectedDatabases w) (resource w) (sent w ++ [(text, ps)]),
                Returns (Fulfilled (OkPacket 0)))).
Proof.
  intros PoolState config_prefix w0 w stmt Hinv.
  assert (Hres : forall t, exists text ps, _resolveSQL t stmt = Returns (text, ps)).
  { intros t. unfold invariant in Hinv.
    destruct (@resolve_iter_Some t stmt (List.length (values stmt)) (le_n _))
      as [st Hst]; [lia|].
    unfold _resolveSQL. rewrite Hst. eauto. }
  split.
  - destruct (Hres MySQL) as (text & ps & E). exists text, ps.
    unfold queryOne, query, queryExec.
    cbn [MySQLDatabase_new Database_new fst db_type]. rewrite E.
    repeat split.
  - destruct (Hres PG) as (text & ps & E). exists text, ps.
    unfold queryOne, query, queryExec.
    cbn [PGDatabase_new Database_new fst db_type]. rewrite E.
    repeat split.
Qed.

Lemma stub_pools_give_empty_results_witness :
  exists text ps,
    _resolveSQL PG (mkStmt ["SELECT 1"] []) = Returns (text, ps)
    /\ query (fst (PGDatabase_new true empty_world)) (mkStmt ["SELECT 1"] [])
             empty_world
       = (mkWorld [] tt ([] ++ [(text, ps)]), Returns (Fulfilled (Rows [])))
    /\ queryOne (fst (PGDatabase_new true empty_world)) (mkStmt ["SELECT 1"] [])
                empty_world
       = (mkWorld [] tt ([] ++ [(text, ps)]), Returns (Fulfilled Undefined))
    /\ queryExec (fst (PGDatabase_new true empty_world)) (mkStmt ["SELECT 1"] [])
                 empty_world
       = (mkWorld [] tt ([] ++ [(text, ps)]), Returns (Fulfilled (OkPacket 0))).
Proof.
  exact (proj2 (@stub_pools_give_empty_results unit None empty_world empty_world
                  (mkStmt ["SELECT 1"] []) eq_refl)).
Defined.

(** X15.  [replace] needs the primary key on Postgres only: there, a
    table whose [primaryKeyName] is [null] or empty makes it throw the
    configuration error at once, with the process state untouched; on a
    MySQL connection [replace] never throws that error, key or no key. *)
Theorem replace_requires_key_on_pg :
  forall (PoolState : Type) (t : DatabaseTable PoolState) (row : SQLValue)
         (where_ : option SQLStatement) (w : World PoolState),
    (db_type (db t) = PG ->
     primaryKeyName t = None \/ primaryKeyName t = Some EmptyString ->
     replace t row where_ w
     = (w, Throws (Error "Cannot replace() without a single-column primary key"
                         None)))
    /\ (db_type (db t) = MySQL ->
        forall w' e,
          replace t row where_ w = (w', Throws e) ->
          e <> Error "Cannot replace() without a single-column primary key" None).
Proof.
  intros PoolState t row where_ w. split.
  - intros Hty Hkey. unfold replace, noPrimaryKey. rewrite Hty.
    destruct Hkey as [-> | ->]; reflexivity.
  - intros Hty w' e H Habs. unfold replace in H. rewrite Hty in H.
    apply (@keyError_not_builderError "replace"). unfold keyError.
    cbn [String.append]. rewrite <- Habs.
    eapply thrown_tagged; [apply thrown_queryExec|eauto].
Qed.

Lemma replace_requires_key_on_pg_witness :
  replace (getTable (fst (PGDatabase_new true empty_world)) "users" None)
          example_row None empty_world
  = (empty_world,
     Throws (Error "Cannot replace() without a single-column primary key" None))
  /\ sent (fst (replace (getTable (fst (MySQLDatabase_new None empty_world))
                                  "users" None)
                        example_row None empty_world))
     = [("REPLACE INTO `users` (`name`, `age`) VALUES (?, ?) ",
         [BString "x"; BNumber 5])].
Proof.
  split.
  - exact (proj1 (@replace_requires_key_on_pg unit
                    (getTable (fst (PGDatabase_new true empty_world)) "users" None)
                    example_row None empty_world)
                 eq_refl (or_introl eq_refl)).
  - reflexivity.
Defined.

(** X16.  On a MySQL connection [upsert] cannot get past statement
    building when the update is an object (as it is by default, being the
    row) that [isSQL] does not take for a statement: the text before it
    ends with [ON DUPLICATE KEY UPDATE ], which is neither of the two
    contexts in which an object may appear, so the call throws a builder
    error (the composition error, or the [TypeError] of [isSQL]) and
    nothing is sent. *)
Theorem upsert_mysql_object_throws :
  forall (PoolState : Type) (t : DatabaseTable PoolState)
         (row : SQLValue) (upd : option SQLValue)
         (where_ : option SQLStatement) (w : World PoolState),
    db_type (db t) = MySQL ->
    (exists props,
        match upd with Some u => u | None => row end = VObject props
        /\ isSQL (VObject props) <> Returns true) ->
    exists e, upsert t row upd where_ w = (w, Throws e) /\ builderError e.
Proof.
  intros PoolState t row upd where_ w Hty (props & Hobj & Hnot).
  unfold upsert. rewrite Hty, Hobj. unfold tagged, SQLStatement_new.
  cbn [construct_loop nth].
  change (append (VString (name t)) (mkStmt [("INSERT INTO " ++ dq)%string] []))
    with (ret (pushScalar (BString (name t)) (mkStmt [("INSERT INTO " ++ dq)%string] []))).
  cbn [andThen ret].
  rewrite appendRaw_pushScalar. cbn [sql values app].
  set (this1 := mkStmt [("INSERT INTO " ++ dq)%string; (dq ++ " (")%string]
                       [BString (name t)]).
  destruct (append row this1) as [this2 [|e]] eqn:E; cbn [andThen].
  - destruct (@lastFragment_after_append row this1 ltac:(discriminate)) as [F HF].
    rewrite E in HF. cbn [fst] in HF.
    pose proof (lastFragment_appendRaw ") ON DUPLICATE KEY UPDATE " _ HF) as HF'.
    destruct (isSQL (VObject props)) as [[|]|e] eqn:Hsql; [congruence| |].
    + rewrite (@append_object_outside_context _ props _ HF'); cbn [andThen].
      * eexists. split; [reflexivity|]. right. eauto.
      * now rewrite endsWith_app_long by (simpl; lia).
      * now rewrite toUpperCase_app, endsWith_app_long
          by (rewrite toUpperCase_length; simpl; lia).
      * exact Hsql.
    + rewrite (@append_object_isSQL_throws _ props e Hsql). cbn [andThen].
      eexists. split; [reflexivity|]. now left.
  - eexists. split; [reflexivity|].
    apply (@thrown_append row this1). now rewrite E.
Qed.

Lemma upsert_mysql_object_throws_witness :
  exists e,
    upsert (getTable (fst (MySQLDatabase_new None empty_world)) "users" (Some "id"))
           example_row None None empty_world
    = (empty_world, Throws e)
    /\ builderError e.
Proof.
  apply (@upsert_mysql_object_throws unit
           (getTable (fst (MySQLDatabase_new None empty_world)) "users" (Some "id"))
           example_row None None empty_world eq_refl).
  eexists. split; [reflexivity|discriminate].
Defined.

(** An update that [isSQL] takes for a statement gets through: its
    fragments are appended behind [ON DUPLICATE KEY UPDATE ]. *)
Lemma upsert_mysql_statement_like_update_is_sent :
  sent (fst (upsert (getTable (fst (MySQLDatabase_new None empty_world)) "users"
                              (Some "id"))
                    example_row (Some (statement_like [VString "age = age + 1"] []))
                    None empty_world))
  = [("INSERT INTO `users` (`name`, `age`) VALUES (?, ?) ON DUPLICATE KEY UPDATE age = age + 1 ",
      [BString "x"; BNumber 5])].
Proof. reflexivity. Qed.

(* ------------------------------------------------------------------ *)
(** ** The texts the table helper sends *)

Section Texts.

Lemma slice_end_0 (s : string) : slice_end 0 s = s.
Proof.
  unfold slice_end. rewrite Nat.sub_0_r, firstn_all. apply of_chars_chars.
Qed.

Lemma slice_end_1_dq (T : string) : slice_end 1 (T ++ dq) = T.
Proof.
  rewrite (slice_end_app_short 0 T dq : slice_end 1 (T ++ dq) = _).
  apply slice_end_0.
Qed.

Lemma slice_from_1_dq (x : string) : slice_from 1 (dq ++ x) = x.
Proof. apply slice_from_1_cons. Qed.

Lemma startsWithQuote_dq (x : string) : startsWithQuote (dq ++ x) = true.
Proof.
  unfold startsWithQuote, startsWith, dq. cbn [String.append String.prefix].
  destruct (ascii_dec "`" dquote); [discriminate|].
  destruct (ascii_dec dquote dquote); [|congruence].
  now destruct x.
Qed.

Lemma resolve_pairs_splice t v f l st :
  startsWithQuote f = true ->
  resolve_pairs t ((v, f) :: l) st
  = resolve_pairs t l (spliceIdentifier t v f st).
Proof. intros H. unfold resolve_pairs. cbn [fold_left fst snd]. now rewrite H. Qed.

Lemma resolve_pairs_bind t v f l st :
  startsWithQuote f = false ->
  resolve_pairs t ((v, f) :: l) st
  = resolve_pairs t l (bindParameter t v f st).
Proof. intros H. unfold resolve_pairs. cbn [fold_left fst snd]. now rewrite H. Qed.

Lemma combine_app_eq (A B : Type) (l l' : list A) (m m' : list B) :
  List.length l = List.length m ->
  combine (l ++ l') (m ++ m') = combine l m ++ combine l' m'.
Proof.
  revert m. induction l as [|a l IH]; intros [|b m] H; simpl in H;
    try discriminate; [reflexivity|].
  simpl. f_equal. apply IH. lia.
Qed.

(** An identifier list: names between quotes, separated by
    quote-comma-space-quote, resolve to the escaped names separated by
    comma-space. *)
Lemma resolve_pairs_identifiers t (tail : string) :
  forall (cols : list string) (T : string) P k,
    cols <> [] ->
    resolve_pairs t
      (combine (map BString cols)
               (repeat (dq ++ ", " ++ dq)%string (List.length cols - 1)
                  ++ [(dq ++ tail)%string]))
      (mkResolve (T ++ dq) P k)
    = mkResolve (T ++ String.concat ", " (map (escapeId t) cols) ++ tail)%string P k.
Proof.
  induction cols as [|c cols IH]; intros T P k Hne; [congruence|].
  destruct cols as [|c' cols].
  - cbn [List.length Nat.sub repeat app map combine].
    rewrite resolve_pairs_splice by apply startsWithQuote_dq.
    unfold resolve_pairs, spliceIdentifier.
    cbn [fold_left r_sql r_values r_paramCount template_text String.concat].
    rewrite slice_end_1_dq, slice_from_1_dq. reflexivity.
  - cbn [List.length Nat.sub repeat app map combine].
    rewrite resolve_pairs_splice by apply (startsWithQuote_dq (", " ++ dq)).
    unfold spliceIdentifier. cbn [r_sql r_values r_paramCount template_text].
    rewrite slice_end_1_dq.
    rewrite (slice_from_1_dq (", " ++ dq) : slice_from 1 (dq ++ ", " ++ dq) = _).
    replace (T ++ escapeId t c ++ ", " ++ dq)%string
      with ((T ++ escapeId t c ++ ", ") ++ dq)%string
      by (now rewrite !string_app_assoc).
    specialize (IH (T ++ escapeId t c ++ ", ")%string P k ltac:(discriminate)).
    cbn [List.length Nat.sub map] in IH. rewrite Nat.sub_0_r in IH.
    etransitivity; [exact IH|]. cbn [String.concat map].
    now rewrite !string_app_assoc.
Qed.

(** A value list: scalars separated by comma-space resolve to the
    markers of the next parameters separated by comma-space. *)
Lemma resolve_pairs_values t (last_ : string) :
  startsWithQuote last_ = false ->
  forall (vals : list BasicSQLValue) (T : string) P k,
    vals <> [] ->
    k = match t with MySQL => 0 | PG => List.length P end ->
    resolve_pairs t
      (combine vals (repeat ", " (List.length vals - 1) ++ [last_]))
      (mkResolve T P k)
    = mkResolve
        (T ++ String.concat ", " (markers t (List.length P) (List.length vals))
           ++ last_)%string
        (P ++ vals)
        (match t with MySQL => 0 | PG => List.length P + List.length vals end).
Proof.
  intros Hlast. induction vals as [|v vals IH]; intros T P k Hne Hk; [congruence|].
  destruct vals as [|v' vals].
  - cbn [List.length Nat.sub repeat app combine].
    rewrite resolve_pairs_bind by assumption. unfold resolve_pairs, markers.
    cbn [fold_left seq map String.concat]. subst k.
    destruct t; cbn [bindParameter r_sql r_values r_paramCount marker];
      rewrite ?Nat.add_1_r; reflexivity.
  - cbn [List.length Nat.sub repeat app combine].
    rewrite resolve_pairs_bind by reflexivity.
    specialize (IH (T ++ marker t (S (List.length P)) ++ ", ")%string (P ++ [v])
                  (match t with MySQL => 0 | PG => S (List.length P) end)
                  ltac:(discriminate)).
    cbn [List.length Nat.sub] in IH. rewrite Nat.sub_0_r in IH.
    replace (bindParameter t v ", " (mkResolve T P k))
      with (mkResolve (T ++ marker t (S (List.length P)) ++ ", ")%string (P ++ [v])
                      (match t with MySQL => 0 | PG => S (List.length P) end))
      by (subst k; destruct t; reflexivity).
    etransitivity;
      [apply IH; destruct t; [reflexivity|rewrite length_app; simpl; lia]|].
    rewrite length_app. cbn [List.length]. rewrite Nat.add_1_r.
    change (markers t (List.length P) (S (S (List.length vals))))
      with (marker t (S (List.length P))
              :: marker t (S (S (List.length P)))
              :: map (marker t) (seq (S (S (S (List.length P)))) (List.length vals))).
    change (markers t (S (List.length P)) (S (List.length vals)))
      with (marker t (S (S (List.length P)))
              :: map (marker t) (seq (S (S (S (List.length P)))) (List.length vals))).
    cbn [String.concat]. f_equal.
    + now rewrite !string_app_assoc.
    + now rewrite <- app_assoc.
    + destruct t; [reflexivity|lia].
Qed.

End Texts.

Section InsertText.
Variable PoolState : Type.

Lemma sent_queryExec (d : Database PoolState) stmt text ps w :
  _resolveSQL (db_type d) stmt = Returns (text, ps) ->
  reachesPool d = true ->
  sent (fst (queryExec d stmt w)) = sent w ++ [(text, ps)].
Proof.
  intros Hres Hpool. unfold queryExec. rewrite Hres.
  destruct d as [p pre|[p|] pre]; cbn [_queryExec reachesPool] in *;
    try discriminate.
  - unfold mysql__query. destruct (mysql_query p) as [q|]; [|discriminate].
    destruct (q text ps (resource w)) as [s [err|res]]; reflexivity.
  - unfold pg_call.
    destruct (pg_query p text ps (resource w)) as [s [err|res]]; reflexivity.
Qed.

Lemma sent_query (d : Database PoolState) stmt text ps w :
  _resolveSQL (db_type d) stmt = Returns (text, ps) ->
  reachesPool d = true ->
  sent (fst (query d stmt w)) = sent w ++ [(text, ps)].
Proof.
  intros Hres Hpool. unfold query. rewrite Hres.
  destruct d as [p pre|[p|] pre]; cbn [_query reachesPool] in *;
    try discriminate.
  - unfold mysql__query. destruct (mysql_query p) as [q|]; [|discriminate].
    destruct (q text ps (resource w)) as [s [err|res]]; reflexivity.
  - unfold pg_call.
    destruct (pg_query p text ps (resource w)) as [s [err|res]]; reflexivity.
Qed.

Lemma sent_queryOne (d : Database PoolState) stmt text ps w :
  _resolveSQL (db_type d) stmt = Returns (text, ps) ->
  reachesPool d = true ->
  sent (fst (queryOne d stmt w)) = sent w ++ [(text, ps)].
Proof.
  intros Hres Hpool. unfold queryOne.
  pose proof (sent_query d stmt w Hres Hpool) as H.
  destruct (query d stmt w) as [w1 [[r|e]|e]]; exact H.
Qed.

Lemma sent_tagged run (d : Database PoolState) strings vals stmt text ps w :
  (forall w, sent (fst (run d stmt w)) = sent w ++ [(text, ps)]) ->
  SQLStatement_new strings vals = (stmt, Done) ->
  sent (fst (tagged run d strings vals w)) = sent w ++ [(text, ps)].
Proof. intros Hrun Hnew. unfold tagged. rewrite Hnew. apply Hrun. Qed.

Lemma thrown_by_tagged run (d : Database PoolState) strings vals stmt e w :
  SQLStatement_new strings vals = (stmt, Thrown e) ->
  tagged run d strings vals w = (w, Throws e).
Proof. intros Hnew. unfold tagged. now rewrite Hnew. Qed.

(** A template [head "name" (row) ] whose row makes [isSQL] throw. *)
Lemma insert_like_throws (head nm : string)
    (fields : list (string * BasicSQLValue)) :
  isSQL (rowOf fields) <> Returns false ->
  SQLStatement_new [(head ++ dq)%string; (dq ++ " (")%string; ") "; EmptyString]
                   [VString nm; rowOf fields; VUndefined]
  = (mkStmt [(head ++ dq)%string; (dq ++ " (")%string] [BString nm],
     Thrown TypeError).
Proof.
  intros Hrow. unfold SQLStatement_new.
  cbn [construct_loop nth append andThen ret].
  rewrite appendRaw_pushScalar. cbn [sql values app].
  now rewrite (@append_row_isSQL_throws fields _ Hrow).
Qed.

(** The statement of a template [head "name" (row) ]. *)
Lemma insert_like_statement (head nm : string)
    (fields : list (string * BasicSQLValue)) :
  fields <> [] ->
  isSQL (rowOf fields) = Returns false ->
  SQLStatement_new [(head ++ dq)%string; (dq ++ " (")%string; ") "; EmptyString]
                   [VString nm; rowOf fields; VUndefined]
  = (mkStmt ((head ++ dq)%string
               :: (dq ++ " (" ++ dq)%string
               :: (repeat (dq ++ ", " ++ dq)%string (List.length fields - 1)
                     ++ [(dq ++ ") VALUES (")%string])
               ++ (repeat ", " (List.length fields - 1) ++ [") "]))
            (BString nm
               :: map BString (map fst fields) ++ map snd fields), Done).
Proof.
  intros Hne Hrow. unfold SQLStatement_new.
  cbn [construct_loop nth append andThen ret].
  rewrite appendRaw_pushScalar. cbn [sql values app].
  rewrite (@append_row_in_parentheses
             (mkStmt [(head ++ dq)%string; (dq ++ " (")%string] [BString nm])
             (dq ++ " (")%string fields eq_refl eq_refl Hne Hrow).
  cbn [andThen sql values removelast app].
  unfold appendRaw, setLast. cbn [sql values].
  match goal with
  | |- context [modifyLast _ (modifyLast _ (?x :: ?y :: ?A ++ ?z :: ?B ++ [?e]))] =>
      replace (x :: y :: A ++ z :: B ++ [e]) with ((x :: y :: A ++ z :: B) ++ [e])
        by (cbn [app]; now rewrite <- app_assoc)
  end.
  rewrite modifyLast_snoc, modifyLast_snoc. cbn [String.append].
  rewrite map_map. unfold ret. f_equal. f_equal.
  - rewrite string_app_assoc. cbn [app]. f_equal. f_equal.
    now rewrite <- !app_assoc.
Qed.

Lemma insert_like_resolve (t : DatabaseType) (head nm : string)
    (fields : list (string * BasicSQLValue)) :
  fields <> [] ->
  _resolveSQL t
    (mkStmt ((head ++ dq)%string
               :: (dq ++ " (" ++ dq)%string
               :: (repeat (dq ++ ", " ++ dq)%string (List.length fields - 1)
                     ++ [(dq ++ ") VALUES (")%string])
               ++ (repeat ", " (List.length fields - 1) ++ [") "]))
            (BString nm :: map BString (map fst fields) ++ map snd fields))
  = Returns
      ((head ++ escapeId t nm ++ " ("
          ++ String.concat ", " (map (escapeId t) (map fst fields))
          ++ ") VALUES ("
          ++ String.concat ", " (markers t 0 (List.length fields)) ++ ") ")%string,
       map snd fields).
Proof.
  intros Hne.
  assert (Hn : 1 <= List.length fields)
    by (destruct fields; [congruence|simpl; lia]).
  rewrite resolve_by_pairs
    by (cbn [List.length]; rewrite !length_app, !length_map, !repeat_length;
        simpl; lia).
  match goal with
  | |- context [r_sql ?st] =>
      assert (E : st
                  = mkResolve
                      (head ++ escapeId t nm ++ " ("
                         ++ String.concat ", " (map (escapeId t) (map fst fields))
                         ++ ") VALUES ("
                         ++ String.concat ", " (markers t 0 (List.length fields))
                         ++ ") ")%string
                      (map snd fields)
                      (match t with MySQL => 0 | PG => List.length fields end))
  end.
  { cbn [combine].
    rewrite combine_app_eq
      by (rewrite !length_map, length_app, repeat_length; simpl; lia).
    rewrite resolve_pairs_splice by apply (startsWithQuote_dq (" (" ++ dq)).
    rewrite resolve_pairs_app.
    unfold spliceIdentifier. cbn [r_sql r_values r_paramCount template_text].
    rewrite slice_end_1_dq.
    rewrite (slice_from_1_dq (" (" ++ dq) : slice_from 1 (dq ++ " (" ++ dq) = _).
    replace (head ++ escapeId t nm ++ " (" ++ dq)%string
      with ((head ++ escapeId t nm ++ " (") ++ dq)%string
      by (now rewrite !string_app_assoc).
    pose proof (@resolve_pairs_identifiers t ") VALUES (" (map fst fields)
                  (head ++ escapeId t nm ++ " (")%string [] 0) as Hid.
    rewrite length_map in Hid. rewrite Hid
      by (destruct fields; [congruence|discriminate]).
    pose proof (@resolve_pairs_values t ") " eq_refl (map snd fields)) as Hval.
    rewrite length_map in Hval.
    rewrite Hval; [|destruct fields; [congruence|discriminate]|now destruct t].
    cbn [List.length app Nat.add]. now rewrite !string_app_assoc. }
  rewrite E. reflexivity.
Qed.

End InsertText.

(** X17.  What the insert methods send.  For a row of [n >= 1] scalar
    fields on which [isSQL] answers [false], and no extra clause, on a
    connection whose pool can be queried, [insert] hands to the pool the
    text [INSERT INTO], the escaped table name, the escaped column names in
    parentheses, separated by comma-space, [VALUES] and the markers of
    parameters 1 to [n] in parentheses, with the field values as
    parameters, in the row's order; [insertIgnore] does the same with
    [INSERT IGNORE INTO] and, on MySQL, [replace] with [REPLACE INTO].
    (The text ends with the space that precedes the optional clause.)  For
    the other rows, those with a column named [constructor] whose value is
    [null], the three methods throw the [TypeError] of [isSQL] and send
    nothing. *)
Theorem insert_sends_columns_and_markers :
  forall (PoolState : Type) (t : DatabaseTable PoolState)
         (fields : list (string * BasicSQLValue)) (w : World PoolState),
    fields <> [] ->
    reachesPool (db t) = true ->
    let text head :=
      (head ++ escapeId (db_type (db t)) (name t) ++ " ("
         ++ String.concat ", " (map (escapeId (db_type (db t))) (map fst fields))
         ++ ") VALUES ("
         ++ String.concat ", " (markers (db_type (db t)) 0 (List.length fields))
         ++ ") ")%string in
    (isSQL (rowOf fields) = Returns false ->
     sent (fst (insert t (rowOf fields) None w))
     = sent w ++ [(text "INSERT INTO ", map snd fields)]
     /\ sent (fst (insertIgnore t (rowOf fields) None w))
        = sent w ++ [(text "INSERT IGNORE INTO ", map snd fields)]
     /\ (db_type (db t) = MySQL ->
         sent (fst (replace t (rowOf fields) None w))
         = sent w ++ [(text "REPLACE INTO ", map snd fields)]))
    /\ (isSQL (rowOf fields) <> Returns false ->
        insert t (rowOf fields) None w = (w, Throws TypeError)
        /\ insertIgnore t (rowOf fields) None w = (w, Throws TypeError)
        /\ (db_type (db t) = MySQL ->
            replace t (rowOf fields) None w = (w, Throws TypeError))).
Proof.
  intros PoolState t fields w Hne Hpool text. split; intros Hrow.
  - assert (H : forall head w,
               sent (fst (tagged (@queryExec PoolState) (db t)
                            [(head ++ dq)%string; (dq ++ " (")%string; ") "; EmptyString]
                            (insert_values t (rowOf fields) None) w))
               = sent w ++ [(text head, map snd fields)]).
    { intros head w1. eapply sent_tagged; [|now apply insert_like_statement].
      intros w2. apply sent_queryExec; [|exact Hpool].
      now apply insert_like_resolve. }
    repeat split.
    + apply (H "INSERT INTO ").
    + apply (H "INSERT IGNORE INTO ").
    + intros Hty. unfold replace. rewrite Hty. apply (H "REPLACE INTO ").
  - assert (H : forall head,
               tagged (@queryExec PoolState) (db t)
                 [(head ++ dq)%string; (dq ++ " (")%string; ") "; EmptyString]
                 (insert_values t (rowOf fields) None) w
               = (w, Throws TypeError)).
    { intros head. eapply thrown_by_tagged. now apply insert_like_throws. }
    repeat split.
    + apply (H "INSERT INTO ").
    + apply (H "INSERT IGNORE INTO ").
    + intros Hty. unfold replace. rewrite Hty. apply (H "REPLACE INTO ").
Qed.

Lemma insert_sends_columns_and_markers_witness :
  sent (fst (insertIgnore
               (getTable (fst (PGDatabase_new true empty_world)) "users" None)
               (rowOf [("name", BString "x"); ("age", BNumber 5)]) None
               empty_world))
  = [] ++ [(("INSERT IGNORE INTO " ++ dq ++ "users" ++ dq ++ " (" ++ dq ++ "name"
               ++ dq ++ ", " ++ dq ++ "age" ++ dq ++ ") VALUES ($1, $2) ")%string,
            [BString "x"; BNumber 5])]
  /\ insert (getTable (fst (PGDatabase_new true empty_world)) "users" None)
            (rowOf [("constructor", BNull)]) None empty_world
     = (empty_world, Throws TypeError).
Proof.
  split.
  - exact (proj1 (proj2 (proj1 (@insert_sends_columns_and_markers unit
             (getTable (fst (PGDatabase_new true empty_world)) "users" None)
             [("name", BString "x"); ("age", BNumber 5)] empty_world
             ltac:(discriminate) eq_refl) eq_refl))).
  - exact (proj1 (proj2 (@insert_sends_columns_and_markers unit
             (getTable (fst (PGDatabase_new true empty_world)) "users" None)
             [("constructor", BNull)] empty_world
             ltac:(discriminate) eq_refl) ltac:(discriminate))).
Defined.

Section KeyedText.
Variable PoolState : Type.

Lemma key_clause_statement (k : string) (primaryKey : BasicSQLValue) :
  SQLStatement_new where_key_strings [VString k; of_basic primaryKey]
  = (mkStmt [("WHERE " ++ dq)%string; (dq ++ " = ")%string; EmptyString]
            [BString k; primaryKey], Done).
Proof. destruct primaryKey; reflexivity. Qed.

Lemma resolve_keyed (t : DatabaseType) (head nm k tail : string)
    (primaryKey : BasicSQLValue) :
  startsWithQuote tail = false ->
  _resolveSQL t
    (mkStmt [(head ++ dq)%string; (dq ++ " WHERE " ++ dq)%string;
             (dq ++ " = ")%string; tail]
            [BString nm; BString k; primaryKey])
  = Returns ((head ++ escapeId t nm ++ " WHERE " ++ escapeId t k ++ " = "
                ++ marker t 1 ++ tail)%string, [primaryKey]).
Proof.
  intros Htail. rewrite resolve_by_pairs by reflexivity. cbn [combine].
  rewrite resolve_pairs_splice by apply (startsWithQuote_dq (" WHERE " ++ dq)).
  rewrite resolve_pairs_splice by apply (startsWithQuote_dq " = ").
  rewrite resolve_pairs_bind by assumption.
  unfold resolve_pairs, spliceIdentifier.
  cbn [fold_left r_sql r_values r_paramCount template_text].
  rewrite slice_end_1_dq.
  rewrite (slice_from_1_dq (" WHERE " ++ dq) : slice_from 1 (dq ++ " WHERE " ++ dq) = _).
  rewrite (slice_from_1_dq " = " : slice_from 1 (dq ++ " = ") = _).
  replace (head ++ escapeId t nm ++ " WHERE " ++ dq)%string
    with ((head ++ escapeId t nm ++ " WHERE ") ++ dq)%string
    by (now rewrite !string_app_assoc).
  rewrite slice_end_1_dq.
  destruct t; cbn [bindParameter r_sql r_values marker];
    now rewrite !string_app_assoc.
Qed.

End KeyedText.

(** X18.  What [get] and [delete] send.  On a table whose key name [k] is
    non-empty and whose connection has a pool to query, [get(primaryKey)]
    without a column list hands to the pool the text [SELECT * FROM], the
    escaped table name, [WHERE], the escaped key name, [=], the first
    marker and [LIMIT 1], with the key value as the only parameter;
    [delete(primaryKey)] sends [DELETE FROM], the escaped table name and
    the same key clause, without a limit. *)
Theorem keyed_methods_send_key_clause :
  forall (PoolState : Type) (t : DatabaseTable PoolState) (k : string)
         (primaryKey : BasicSQLValue) (w : World PoolState),
    primaryKeyName t = Some k ->
    k <> EmptyString ->
    reachesPool (db t) = true ->
    sent (fst (get t primaryKey NoEntries w))
    = sent w ++ [(("SELECT * FROM " ++ escapeId (db_type (db t)) (name t)
                     ++ " WHERE " ++ escapeId (db_type (db t)) k ++ " = "
                     ++ marker (db_type (db t)) 1 ++ " LIMIT 1")%string,
                  [primaryKey])]
    /\ sent (fst (delete t primaryKey w))
       = sent w ++ [(("DELETE FROM " ++ escapeId (db_type (db t)) (name t)
                        ++ " WHERE " ++ escapeId (db_type (db t)) k ++ " = "
                        ++ marker (db_type (db t)) 1)%string,
                     [primaryKey])].
Proof.
  intros PoolState t k primaryKey w Hk Hne Hpool.
  assert (Hset : noPrimaryKey t = false).
  { unfold noPrimaryKey. rewrite Hk. now apply String.eqb_neq. }
  assert (Hvals : where_key_values t primaryKey = [VString k; of_basic primaryKey]).
  { unfold where_key_values, keyName. now rewrite Hk. }
  unfold get, delete. rewrite Hset, Hvals. split.
  - unfold selectOne. cbn [entries_statement SQL SQLStatement_new construct_loop ret].
    unfold with_clause. rewrite key_clause_statement.
    apply sent_tagged
      with (stmt := mkStmt [("SELECT * FROM " ++ dq)%string;
                            (dq ++ " WHERE " ++ dq)%string;
                            (dq ++ " = ")%string; " LIMIT 1"]
                           [BString (name t); BString k; primaryKey]);
      [|reflexivity].
    intros w1. apply sent_queryOne; [|exact Hpool].
    apply (@resolve_keyed (db_type (db t)) "SELECT * FROM " (name t) k
             " LIMIT 1" primaryKey eq_refl).
  - unfold deleteAll, with_clause. rewrite key_clause_statement.
    apply sent_tagged
      with (stmt := mkStmt [("DELETE FROM " ++ dq)%string;
                            (dq ++ " WHERE " ++ dq)%string;
                            (dq ++ " = ")%string; EmptyString]
                           [BString (name t); BString k; primaryKey]);
      [|reflexivity].
    intros w1. apply sent_queryExec; [|exact Hpool].
    rewrite (@resolve_keyed (db_type (db t)) "DELETE FROM " (name t) k
               EmptyString primaryKey eq_refl).
    now rewrite !string_app_nil_r.
Qed.

Lemma keyed_methods_send_key_clause_witness :
  sent (fst (delete (getTable (fst (PGDatabase_new true empty_world)) "users"
                              (Some "id"))
                    (BNumber 42) empty_world))
  = [] ++ [(("DELETE FROM " ++ dq ++ "users" ++ dq ++ " WHERE " ++ dq ++ "id"
               ++ dq ++ " = $1")%string, [BNumber 42])].
Proof.
  exact (proj2 (@keyed_methods_send_key_clause unit
                  (getTable (fst (PGDatabase_new true empty_world)) "users"
                            (Some "id"))
                  "id" (BNumber 42) empty_world
                  eq_refl ltac:(discriminate) eq_refl)).
Defined.

Section LimitOne.
Variable PoolState : Type.

Lemma modifyLast_id (l : list string) :
  modifyLast (fun f => (f ++ EmptyString)%string) l = l.
Proof.
  induction l as [|x [|y l] IH]; cbn [modifyLast]; [reflexivity| |].
  - now rewrite string_app_nil_r.
  - f_equal. exact IH.
Qed.

Lemma appendRaw_empty this : appendRaw EmptyString this = this.
Proof.
  unfold appendRaw, setLast. rewrite modifyLast_id. now destruct this.
Qed.

(** The last literal segment of a template is appended raw at the end. *)
Lemma construct_loop_last_literal (s : string) rest :
  forall vals i this,
    construct_loop (rest ++ [s]) vals i this
    = match construct_loop (rest ++ [EmptyString]) vals i this with
      | (st, Done) => (appendRaw s st, Done)
      | r => r
      end.
Proof.
  induction rest as [|x rest IH]; intros vals i this; cbn [app construct_loop].
  - destruct (append (nth i vals VUndefined) this) as [st [|e]];
      cbn [andThen ret]; [|reflexivity].
    now rewrite appendRaw_empty.
  - destruct (append (nth i vals VUndefined) this) as [st [|e]];
      cbn [andThen]; [|reflexivity].
    apply IH.
Qed.

Lemma new_last_literal (s s0 : string) rest vals :
  SQLStatement_new (s0 :: rest ++ [s]) vals
  = match SQLStatement_new (s0 :: rest ++ [EmptyString]) vals with
    | (st, Done) => (appendRaw s st, Done)
    | r => r
    end.
Proof. unfold SQLStatement_new. apply construct_loop_last_literal. Qed.

Lemma invariant_new strings vals :
  strings <> [] -> forallb wellFormed vals = true ->
  invariant (fst (SQLStatement_new strings vals)).
Proof.
  intros Hne Hvals. destruct strings as [|s0 rest]; [congruence|].
  apply invariant_construct_loop; [assumption|reflexivity].
Qed.

Lemma wellFormed_of_statement s : invariant s -> wellFormed (of_statement s) = true.
Proof. intros H. unfold of_statement. cbn [wellFormed]. now apply Nat.eqb_eq. Qed.

(** Two templates that differ in their last literal only, the one having
    [ LIMIT 1] where the other has nothing, run by two ways of running a
    statement that send what the statement resolves to. *)
Lemma limit_one_tagged run run1 (d : Database PoolState) s0 pre vals w :
  (forall stmt text ps w,
      _resolveSQL (db_type d) stmt = Returns (text, ps) ->
      sent (fst (run d stmt w)) = sent w ++ [(text, ps)]) ->
  (forall stmt text ps w,
      _resolveSQL (db_type d) stmt = Returns (text, ps) ->
      sent (fst (run1 d stmt w)) = sent w ++ [(text, ps)]) ->
  forallb wellFormed vals = true ->
  (exists text ps,
      sent (fst (tagged run d (s0 :: pre ++ [EmptyString]) vals w))
      = sent w ++ [(text, ps)]
      /\ sent (fst (tagged run1 d (s0 :: pre ++ [" LIMIT 1"]) vals w))
         = sent w ++ [((text ++ " LIMIT 1")%string, ps)])
  \/ (exists e,
        tagged run d (s0 :: pre ++ [EmptyString]) vals w = (w, Throws e)
        /\ tagged run1 d (s0 :: pre ++ [" LIMIT 1"]) vals w = (w, Throws e)).
Proof.
  intros Hrun Hrun1 Hvals. unfold tagged.
  rewrite (new_last_literal " LIMIT 1").
  pose proof (@invariant_new (s0 :: pre ++ [EmptyString]) vals
                ltac:(discriminate) Hvals) as Hinv.
  destruct (SQLStatement_new (s0 :: pre ++ [EmptyString]) vals) as [st [|e]].
  - left. cbn [fst] in Hinv.
    destruct (@resolve_appendRaw (db_type d) st " LIMIT 1" Hinv eq_refl)
      as (text & ps & H1 & H2).
    exists text, ps. split; [now apply Hrun|now apply Hrun1].
  - right. eauto.
Qed.

End LimitOne.

(** X19.  The [...One] methods are the [...All] methods with [ LIMIT 1]:
    on a connection with a pool to query, for a caller's template whose
    interpolated values nest well-formed statements only, either
    [selectAll] sends some text and parameters and [selectOne] sends that
    text followed by [ LIMIT 1] with the same parameters, or building the
    statement throws, and then both throw the same error and send nothing;
    likewise for [deleteAll] and [deleteOne]. *)
Theorem one_is_all_with_limit :
  forall (PoolState : Type) (t : DatabaseTable PoolState) (entries : Entries)
         (strings : list string) (rest : list SQLValue) (w : World PoolState),
    reachesPool (db t) = true ->
    strings <> [] ->
    forallb wellFormed rest = true ->
    match entries with EntriesSQL s => invariant s | _ => True end ->
    ((exists text ps,
         sent (fst (selectAll t entries strings rest w)) = sent w ++ [(text, ps)]
         /\ sent (fst (selectOne t entries strings rest w))
            = sent w ++ [((text ++ " LIMIT 1")%string, ps)])
     \/ (exists e,
           selectAll t entries strings rest w = (w, Throws e)
           /\ selectOne t entries strings rest w = (w, Throws e)))
    /\ ((exists text ps,
            sent (fst (deleteAll t strings rest w)) = sent w ++ [(text, ps)]
            /\ sent (fst (deleteOne t strings rest w))
               = sent w ++ [((text ++ " LIMIT 1")%string, ps)])
        \/ (exists e,
              deleteAll t strings rest w = (w, Throws e)
              /\ deleteOne t strings rest w = (w, Throws e))).
Proof.
  intros PoolState t entries strings rest w Hpool Hne Hrest Hent.
  pose proof (@invariant_new strings rest Hne Hrest) as Hclause.
  assert (Hq : forall stmt text ps w,
             _resolveSQL (db_type (db t)) stmt = Returns (text, ps) ->
             sent (fst (query (db t) stmt w)) = sent w ++ [(text, ps)])
    by (intros; now apply sent_query).
  assert (Hq1 : forall stmt text ps w,
             _resolveSQL (db_type (db t)) stmt = Returns (text, ps) ->
             sent (fst (queryOne (db t) stmt w)) = sent w ++ [(text, ps)])
    by (intros; now apply sent_queryOne).
  assert (Hqe : forall stmt text ps w,
             _resolveSQL (db_type (db t)) stmt = Returns (text, ps) ->
             sent (fst (queryExec (db t) stmt w)) = sent w ++ [(text, ps)])
    by (intros; now apply sent_queryExec).
  split.
  - unfold selectAll, selectOne.
    assert (Hentinv : invariant (fst (entries_statement entries))).
    { destruct entries as [|cols|s]; cbn [entries_statement fst ret].
      - reflexivity.
      - apply invariant_new; [discriminate|]. cbn [forallb wellFormed].
        rewrite andb_true_r. apply forallb_forall.
        intros v Hv. apply in_map_iff in Hv as (c & <- & _). reflexivity.
      - exact Hent. }
    destruct (entries_statement entries) as [ent [|e]]; [|right; eauto].
    unfold with_clause.
    destruct (SQLStatement_new strings rest) as [clause [|e]]; [|right; eauto].
    cbn [fst] in Hentinv, Hclause.
    apply (@limit_one_tagged PoolState (@query PoolState) (@queryOne PoolState)
             (db t) "SELECT " [(" FROM " ++ dq)%string; (dq ++ " ")%string]);
      auto.
    cbn [forallb wellFormed].
    now rewrite !wellFormed_of_statement.
  - unfold deleteAll, deleteOne, with_clause.
    destruct (SQLStatement_new strings rest) as [clause [|e]]; [|right; eauto].
    cbn [fst] in Hclause.
    apply (@limit_one_tagged PoolState (@queryExec PoolState) (@queryExec PoolState)
             (db t) ("DELETE FROM " ++ dq)%string [(dq ++ " ")%string]);
      auto.
    cbn [forallb wellFormed].
    now rewrite !wellFormed_of_statement.
Qed.

Lemma one_is_all_with_limit_witness :
  (exists text ps,
      sent (fst (selectAll
                   (getTable (fst (MySQLDatabase_new None empty_world)) "users" None)
                   (Columns ["a"; "b"]) ["WHERE x = "; EmptyString] [VNumber 1]
                   empty_world))
      = [] ++ [(text, ps)]
      /\ sent (fst (selectOne
                      (getTable (fst (MySQLDatabase_new None empty_world)) "users" None)
                      (Columns ["a"; "b"]) ["WHERE x = "; EmptyString] [VNumber 1]
                      empty_world))
         = [] ++ [((text ++ " LIMIT 1")%string, ps)])
  \/ (exists e,
        selectAll (getTable (fst (MySQLDatabase_new None empty_world)) "users" None)
                  (Columns ["a"; "b"]) ["WHERE x = "; EmptyString] [VNumber 1]
                  empty_world
        = (empty_world, Throws e)
        /\ selectOne (getTable (fst (MySQLDatabase_new None empty_world)) "users" None)
                     (Columns ["a"; "b"]) ["WHERE x = "; EmptyString] [VNumber 1]
                     empty_world
           = (empty_world, Throws e)).
Proof.
  exact (proj1 (@one_is_all_with_limit unit
                  (getTable (fst (MySQLDatabase_new None empty_world)) "users" None)
                  (Columns ["a"; "b"]) ["WHERE x = "; EmptyString] [VNumber 1]
                  empty_world eq_refl ltac:(discriminate) eq_refl I)).
Defined.

Section UpdateText.
Variable PoolState : Type.

(** An assignment list: names and values alternating resolve to the
    assignments separated by comma-space. *)
Lemma resolve_pairs_assignments t (tail : string) :
  startsWithQuote tail = false ->
  forall (fields : list (string * BasicSQLValue)) (T : string) P k,
    fields <> [] ->
    k = match t with MySQL => 0 | PG => List.length P end ->
    resolve_pairs t
      (combine (flat_map (fun kv => [BString (fst kv); snd kv]) fields)
               (List.concat (repeat [(dq ++ " = ")%string; (", " ++ dq)%string]
                                    (List.length fields - 1))
                  ++ [(dq ++ " = ")%string; tail]))
      (mkResolve (T ++ dq) P k)
    = mkResolve
        (T ++ String.concat ", " (assignments t (List.length P) fields) ++ tail)%string
        (P ++ map snd fields)
        (match t with MySQL => 0 | PG => List.length P + List.length fields end).
Proof.
  intros Htail. induction fields as [|[c v] fields IH]; intros T P k Hne Hk;
    [congruence|].
  assert (Hstep : forall next,
             startsWithQuote next = false ->
             bindParameter t v next
               (spliceIdentifier t (BString c) (dq ++ " = ") (mkResolve (T ++ dq) P k))
             = mkResolve (T ++ escapeId t c ++ " = " ++ marker t (S (List.length P))
                            ++ next)%string
                         (P ++ [v])
                         (match t with MySQL => 0 | PG => S (List.length P) end)).
  { intros next _. unfold spliceIdentifier.
    cbn [r_sql r_values r_paramCount template_text].
    rewrite slice_end_1_dq, (slice_from_1_dq " = " : slice_from 1 (dq ++ " = ") = _).
    subst k. destruct t; cbn [bindParameter r_sql r_values r_paramCount marker];
      now rewrite !string_app_assoc. }
  destruct fields as [|f' fields].
  - cbn [List.length Nat.sub repeat List.concat app flat_map combine fst snd].
    rewrite resolve_pairs_splice by apply (startsWithQuote_dq " = ").
    rewrite resolve_pairs_bind by assumption.
    unfold resolve_pairs. cbn [fold_left]. rewrite Hstep by assumption.
    cbn [assignments String.concat map fst snd].
    f_equal; [now rewrite !string_app_assoc|destruct t; [reflexivity|lia]].
  - specialize (IH (T ++ escapeId t c ++ " = " ++ marker t (S (List.length P)) ++ ", ")%string
                  (P ++ [v])
                  (match t with MySQL => 0 | PG => S (List.length P) end)
                  ltac:(discriminate)).
    cbn [List.length Nat.sub] in IH. rewrite Nat.sub_0_r in IH.
    cbn [List.length Nat.sub repeat List.concat app flat_map combine fst snd].
    rewrite resolve_pairs_splice by apply (startsWithQuote_dq " = ").
    rewrite resolve_pairs_bind by reflexivity.
    rewrite (Hstep (", " ++ dq)%string eq_refl).
    replace (T ++ escapeId t c ++ " = " ++ marker t (S (List.length P)) ++ ", " ++ dq)%string
      with ((T ++ escapeId t c ++ " = " ++ marker t (S (List.length P)) ++ ", ") ++ dq)%string
      by (now rewrite !string_app_assoc).
    etransitivity;
      [apply IH; destruct t; [reflexivity|rewrite length_app; simpl; lia]|].
    rewrite length_app. cbn [List.length]. rewrite Nat.add_1_r.
    change (assignments t (List.length P) ((c, v) :: f' :: fields))
      with ((escapeId t c ++ " = " ++ marker t (S (List.length P)))%string
              :: (escapeId t (fst f') ++ " = " ++ marker t (S (S (List.length P))))%string
              :: assignments t (S (S (List.length P))) fields).
    change (assignments t (S (List.length P)) (f' :: fields))
      with ((escapeId t (fst f') ++ " = " ++ marker t (S (S (List.length P))))%string
              :: assignments t (S (S (List.length P))) fields).
    cbn [String.concat map snd]. f_equal.
    + now rewrite !string_app_assoc.
    + now rewrite <- app_assoc.
    + destruct t; [reflexivity|lia].
Qed.

(** The template of [update] with a row that makes [isSQL] throw. *)
Lemma update_throws (nm : string) (clause : SQLValue)
    (fields : list (string * BasicSQLValue)) :
  isSQL (rowOf fields) <> Returns false ->
  SQLStatement_new
    [("UPDATE " ++ dq)%string; (dq ++ " SET ")%string; " "; EmptyString]
    [VString nm; rowOf fields; clause]
  = (mkStmt [("UPDATE " ++ dq)%string; (dq ++ " SET ")%string] [BString nm],
     Thrown TypeError).
Proof.
  intros Hrow. unfold SQLStatement_new.
  cbn [construct_loop nth].
  change (append (VString nm) (mkStmt [("UPDATE " ++ dq)%string] []))
    with (ret (pushScalar (BString nm) (mkStmt [("UPDATE " ++ dq)%string] []))).
  cbn [andThen ret].
  rewrite appendRaw_pushScalar. cbn [sql values app].
  now rewrite (@append_row_isSQL_throws fields _ Hrow).
Qed.

(** The statement [update] builds for a row of scalars. *)
Lemma update_statement (nm k : string) (primaryKey : BasicSQLValue)
    (fields : list (string * BasicSQLValue)) :
  fields <> [] ->
  isSQL (rowOf fields) = Returns false ->
  SQLStatement_new
    [("UPDATE " ++ dq)%string; (dq ++ " SET ")%string; " "; EmptyString]
    [VString nm; rowOf fields;
     of_statement (mkStmt [("WHERE " ++ dq)%string; (dq ++ " = ")%string; EmptyString]
                          [BString k; primaryKey])]
  = (mkStmt (("UPDATE " ++ dq)%string
               :: (dq ++ " SET " ++ dq)%string
               :: List.concat (repeat [(dq ++ " = ")%string; (", " ++ dq)%string]
                                      (List.length fields - 1))
               ++ [(dq ++ " = ")%string; (" WHERE " ++ dq)%string]
               ++ [(dq ++ " = ")%string; EmptyString])
            (BString nm
               :: flat_map (fun kv => [BString (fst kv); snd kv]) fields
               ++ [BString k; primaryKey]), Done).
Proof.
  intros Hne Hrow. unfold SQLStatement_new.
  cbn [construct_loop nth append andThen ret].
  rewrite appendRaw_pushScalar. cbn [sql values app].
  rewrite (@append_row_after_set
             (mkStmt [("UPDATE " ++ dq)%string; (dq ++ " SET ")%string] [BString nm])
             (dq ++ " SET ")%string fields eq_refl eq_refl Hne Hrow).
  cbn [andThen sql values removelast app of_statement append appendStatement ret].
  set (A := List.concat (repeat [(dq ++ " = ")%string; (", " ++ dq)%string]
                                (List.length fields - 1))).
  assert (Hraw : forall x s vs,
             appendRaw s (mkStmt (("UPDATE " ++ dq)%string
                                    :: ((dq ++ " SET ") ++ dq)%string
                                    :: A ++ [(dq ++ " = ")%string; x]) vs)
             = mkStmt (("UPDATE " ++ dq)%string
                         :: ((dq ++ " SET ") ++ dq)%string
                         :: A ++ [(dq ++ " = ")%string; (x ++ s)%string]) vs).
  { intros x s vs. unfold appendRaw, setLast. cbn [sql values]. f_equal.
    replace (("UPDATE " ++ dq)%string :: ((dq ++ " SET ") ++ dq)%string
               :: A ++ [(dq ++ " = ")%string; x])
      with ((("UPDATE " ++ dq)%string :: ((dq ++ " SET ") ++ dq)%string
               :: A ++ [(dq ++ " = ")%string]) ++ [x])
      by (cbn [app]; now rewrite <- app_assoc).
    rewrite modifyLast_snoc. cbn [app]. now rewrite <- app_assoc. }
  rewrite !Hraw. cbn [sql values String.append].
  unfold appendRaw, setLast. cbn [sql values].
  match goal with
  | |- context [modifyLast _ (?L ++ [?x; ?y])] =>
      replace (L ++ [x; y]) with ((L ++ [x]) ++ [y])
        by (now rewrite <- app_assoc)
  end.
  rewrite modifyLast_snoc. unfold ret. f_equal. f_equal.
  cbn [app String.append]. f_equal. f_equal. rewrite <- !app_assoc.
  reflexivity.
Qed.

Lemma update_resolve (t : DatabaseType) (nm k : string)
    (primaryKey : BasicSQLValue) (fields : list (string * BasicSQLValue)) :
  fields <> [] ->
  _resolveSQL t
    (mkStmt (("UPDATE " ++ dq)%string
               :: (dq ++ " SET " ++ dq)%string
               :: List.concat (repeat [(dq ++ " = ")%string; (", " ++ dq)%string]
                                      (List.length fields - 1))
               ++ [(dq ++ " = ")%string; (" WHERE " ++ dq)%string]
               ++ [(dq ++ " = ")%string; EmptyString])
            (BString nm
               :: flat_map (fun kv => [BString (fst kv); snd kv]) fields
               ++ [BString k; primaryKey]))
  = Returns
      (("UPDATE " ++ escapeId t nm ++ " SET "
          ++ String.concat ", " (assignments t 0 fields)
          ++ " WHERE " ++ escapeId t k ++ " = "
          ++ marker t (S (List.length fields)))%string,
       map snd fields ++ [primaryKey]).
Proof.
  intros Hne.
  assert (Hn : 1 <= List.length fields)
    by (destruct fields; [congruence|simpl; lia]).
  assert (Hflat : List.length (flat_map (fun kv => [BString (fst kv); snd kv]) fields)
                  = 2 * List.length fields).
  { clear. induction fields as [|kv fields IH]; [reflexivity|].
    cbn [flat_map List.length app]. rewrite IH. lia. }
  assert (Hconcat : forall n,
             List.length (List.concat
                            (repeat [(dq ++ " = ")%string; (", " ++ dq)%string] n))
             = 2 * n).
  { induction n as [|n IH]; [reflexivity|].
    cbn [repeat List.concat List.length app]. rewrite IH. lia. }
  rewrite resolve_by_pairs
    by (cbn [List.length]; rewrite !length_app, Hflat, Hconcat; simpl; lia).
  match goal with
  | |- context [r_sql ?st] =>
      assert (E : st
                  = mkResolve
                      ("UPDATE " ++ escapeId t nm ++ " SET "
                         ++ String.concat ", " (assignments t 0 fields)
                         ++ " WHERE " ++ escapeId t k ++ " = "
                         ++ marker t (S (List.length fields)))%string
                      (map snd fields ++ [primaryKey])
                      (match t with
                       | MySQL => 0
                       | PG => S (List.length fields)
                       end))
  end.
  { cbn [combine].
    rewrite resolve_pairs_splice by apply (startsWithQuote_dq (" SET " ++ dq)).
    unfold spliceIdentifier at 1. cbn [r_sql r_values r_paramCount template_text].
    rewrite slice_end_1_dq.
    rewrite (slice_from_1_dq (" SET " ++ dq) : slice_from 1 (dq ++ " SET " ++ dq) = _).
    replace ("UPDATE " ++ escapeId t nm ++ " SET " ++ dq)%string
      with (("UPDATE " ++ escapeId t nm ++ " SET ") ++ dq)%string
      by (now rewrite !string_app_assoc).
    rewrite app_assoc.
    rewrite combine_app_eq
      by (rewrite Hflat, length_app, Hconcat; simpl; lia).
    rewrite resolve_pairs_app.
    rewrite (@resolve_pairs_assignments t (" WHERE " ++ dq)%string eq_refl fields
               ("UPDATE " ++ escapeId t nm ++ " SET ")%string [] 0 Hne)
      by (now destruct t).
    cbn [combine List.length app Nat.add].
    replace (("UPDATE " ++ escapeId t nm ++ " SET ")
               ++ String.concat ", " (assignments t 0 fields) ++ " WHERE " ++ dq)%string
      with ((("UPDATE " ++ escapeId t nm ++ " SET ")
               ++ String.concat ", " (assignments t 0 fields) ++ " WHERE ") ++ dq)%string
      by (now rewrite !string_app_assoc).
    rewrite resolve_pairs_splice by apply (startsWithQuote_dq " = ").
    rewrite resolve_pairs_bind by reflexivity.
    unfold resolve_pairs, spliceIdentifier.
    cbn [fold_left r_sql r_values r_paramCount template_text].
    rewrite slice_end_1_dq, (slice_from_1_dq " = " : slice_from 1 (dq ++ " = ") = _).
    destruct t; cbn [bindParameter r_sql r_values r_paramCount marker];
      rewrite !string_app_assoc, ?string_app_nil_r; reflexivity. }
  rewrite E. reflexivity.
Qed.

End UpdateText.

(** X20.  What [update] sends.  On a table whose key name [k] is
    non-empty and whose connection has a pool to query, [update] of a row
    of [n >= 1] scalar fields on which [isSQL] answers [false] hands to the
    pool the text [UPDATE], the escaped table name, [SET], the assignments
    (each escaped column, [=] and the marker of its value) separated by
    comma-space, [WHERE], the escaped key name, [=] and marker [n + 1]; the
    parameters are the field values in the row's order, then the key
    value.  For the other rows, those with a column named [constructor]
    whose value is [null], [update] throws the [TypeError] of [isSQL] and
    sends nothing. *)
Theorem update_sends_assignments :
  forall (PoolState : Type) (t : DatabaseTable PoolState) (k : string)
         (primaryKey : BasicSQLValue) (fields : list (string * BasicSQLValue))
         (w : World PoolState),
    primaryKeyName t = Some k ->
    k <> EmptyString ->
    fields <> [] ->
    reachesPool (db t) = true ->
    (isSQL (rowOf fields) = Returns false ->
     sent (fst (update t primaryKey (rowOf fields) w))
     = sent w
         ++ [(("UPDATE " ++ escapeId (db_type (db t)) (name t) ++ " SET "
                 ++ String.concat ", " (assignments (db_type (db t)) 0 fields)
                 ++ " WHERE " ++ escapeId (db_type (db t)) k ++ " = "
                 ++ marker (db_type (db t)) (S (List.length fields)))%string,
              map snd fields ++ [primaryKey])])
    /\ (isSQL (rowOf fields) <> Returns false ->
        update t primaryKey (rowOf fields) w = (w, Throws TypeError)).
Proof.
  intros PoolState t k primaryKey fields w Hk Hne Hfields Hpool.
  assert (Hset : noPrimaryKey t = false).
  { unfold noPrimaryKey. rewrite Hk. now apply String.eqb_neq. }
  assert (Hvals : where_key_values t primaryKey = [VString k; of_basic primaryKey]).
  { unfold where_key_values, keyName. now rewrite Hk. }
  unfold update. rewrite Hset, Hvals.
  unfold updateAll, with_clause. rewrite key_clause_statement.
  split; intros Hrow.
  - eapply sent_tagged; [|now apply update_statement].
    intros w1. apply sent_queryExec; [|exact Hpool].
    now apply update_resolve.
  - eapply thrown_by_tagged. now apply update_throws.
Qed.

Lemma update_sends_assignments_witness :
  sent (fst (update (getTable (fst (PGDatabase_new true empty_world)) "users"
                              (Some "id"))
                    (BNumber 7)
                    (rowOf [("status", BString "done"); ("n", BNull)])
                    empty_world))
  = [] ++ [(("UPDATE " ++ dq ++ "users" ++ dq ++ " SET " ++ dq ++ "status" ++ dq
               ++ " = $1, " ++ dq ++ "n" ++ dq ++ " = $2 WHERE " ++ dq ++ "id"
               ++ dq ++ " = $3")%string,
            [BString "done"; BNull; BNumber 7])]
  /\ update (getTable (fst (PGDatabase_new true empty_world)) "users" (Some "id"))
            (BNumber 7) (rowOf [("constructor", BNull)]) empty_world
     = (empty_world, Throws TypeError).
Proof.
  split.
  - exact (proj1 (@update_sends_assignments unit
             (getTable (fst (PGDatabase_new true empty_world)) "users" (Some "id"))
             "id" (BNumber 7) [("status", BString "done"); ("n", BNull)]
             empty_world eq_refl ltac:(discriminate) ltac:(discriminate) eq_refl)
           eq_refl).
  - exact (proj2 (@update_sends_assignments unit
             (getTable (fst (PGDatabase_new true empty_world)) "users" (Some "id"))
             "id" (BNumber 7) [("constructor", BNull)]
             empty_world eq_refl ltac:(discriminate) ltac:(discriminate) eq_refl)
           ltac:(discriminate)).
Defined.
